(** * Load-test device simulator: lifecycle engine, distributor, aggregator

    A shallow embedding of the Go packages [providers], [device] and
    [runner].  Go's [int] and [int64] are 64-bit two's complement numbers:
    they are modelled as [Z] with the wrap-around written out ([wrap64]).
    Go maps are [gmap]s; the order in which a [range] statement enumerates a
    map is not fixed by the language, so every [range] over a map takes its
    enumeration from an oracle that is only known to be a permutation of the
    map's entries.  Random choices, network outcomes and the moment at which
    a concurrent [Shutdown] closes a channel are oracles as well. *)

From Stdlib Require Import ZArith QArith Lia Ascii Sorted.
From stdpp Require Import gmap strings list fin_maps pretty.

Local Open Scope Z_scope.

(** ** Machine integers *)

Definition wrap64 (z : Z) : Z := (z + 2 ^ 63) mod 2 ^ 64 - 2 ^ 63.

Definition int64_range (z : Z) : Prop := - 2 ^ 63 ≤ z < 2 ^ 63.

(** ** Outcomes of a call: a value, a run-time panic, or no return within
    the fuel given to a loop whose termination depends on its input. *)

Inductive outcome (A : Type) : Type :=
| Returns (a : A)
| Panics
| OutOfFuel.
Arguments Returns {A} a.
Arguments Panics {A}.
Arguments OutOfFuel {A}.

(** ** Channels of type [chan struct{}] on which nothing is ever sent: the
    only operations are [close] and the receive that succeeds once the
    channel is closed. *)

Inductive chan : Type := ChanOpen | ChanClosed.

Definition is_closed (c : chan) : bool :=
  match c with ChanClosed => true | ChanOpen => false end.

(** [close(c)]: closing a closed channel panics. *)
Definition chan_close (c : chan) : option chan :=
  match c with ChanOpen => Some ChanClosed | ChanClosed => None end.

(** Number of occurrences of a key in a sequence of keys. *)
Definition occurrences (k : string) (l : list string) : nat :=
  length (filter (λ x, x = k) l).

Definition sum_Z (l : list Z) : Z := foldr Z.add 0 l.

(** * Package providers *)

Module providers.

Record Stop : Type := mkStop {
  Provider : string;
  ProviderID : string;
  Line : string;
  StopID : string;
  Direction : string
}.

Definition zeroStop : Stop :=
  mkStop EmptyString EmptyString EmptyString EmptyString EmptyString.

Definition stopsByProvider : gmap string (list Stop) :=
  list_to_map [
    ("mta", [ mkStop "mta" "mta-subway" "A" "A19N" EmptyString;
              mkStop "mta" "mta-subway" "A" "A19S" EmptyString;
              mkStop "mta" "mta-subway" "L" "L03N" EmptyString;
              mkStop "mta" "mta-subway" "L" "L03S" EmptyString;
              mkStop "mta" "mta-subway" "1" "127N" EmptyString;
              mkStop "mta" "mta-subway" "1" "127S" EmptyString;
              mkStop "mta" "mta-subway" "N" "N02N" EmptyString;
              mkStop "mta" "mta-subway" "N" "N02S" EmptyString ]);
    ("cta", [ mkStop "cta" "cta-subway" "Red" "40900" "N";
              mkStop "cta" "cta-subway" "Red" "40900" "S";
              mkStop "cta" "cta-subway" "Blue" "40380" "S";
              mkStop "cta" "cta-subway" "Blue" "40380" "N";
              mkStop "cta" "cta-subway" "Brn" "40730" "N";
              mkStop "cta" "cta-subway" "Brn" "40730" "S";
              mkStop "cta" "cta-subway" "G" "40280" "S";
              mkStop "cta" "cta-subway" "G" "40280" "N" ]);
    ("mbta", [ mkStop "mbta" "mbta" "Red" "place-pktrm" "1";
               mkStop "mbta" "mbta" "Red" "place-pktrm" "0";
               mkStop "mbta" "mbta" "Orange" "place-dwnxg" "0";
               mkStop "mbta" "mbta" "Orange" "place-dwnxg" "1";
               mkStop "mbta" "mbta" "Green-B" "place-kenmore" "0";
               mkStop "mbta" "mbta" "Green-B" "place-kenmore" "1" ]);
    ("septa", [ mkStop "septa" "septa-rail" "NHSL" "PENN_CENTER" "N";
                mkStop "septa" "septa-rail" "NHSL" "PENN_CENTER" "S";
                mkStop "septa" "septa-rail" "PAOLI" "30TH_STREET" "E";
                mkStop "septa" "septa-rail" "PAOLI" "30TH_STREET" "W" ])
  ].

(** [PickStop] over an arbitrary catalog; [rnd] is the number drawn by
    [rand.Intn], reduced into [0, len). *)
Definition PickStopIn (catalog : gmap string (list Stop)) (rnd : nat)
    (provider : string) : Stop * bool :=
  match catalog !! provider with
  | None => (zeroStop, false)
  | Some stops =>
      if (length stops =? 0)%nat then (zeroStop, false)
      else (default zeroStop (stops !! (rnd mod length stops)%nat), true)
  end.

Definition PickStop : nat → string → Stop * bool := PickStopIn stopsByProvider.

(** [count := (pct * n) / 100]: the product wraps, the division truncates. *)
Definition count_for (n pct : Z) : Z := Z.quot (wrap64 (pct * n)) 100.

(** First loop of [AssignProviders]: for every entry in the enumeration,
    append its key [count] times ([for i := 0; i < count; i++]). *)
Definition weighted_base (n : Z) (entries : list (string * Z)) : list string :=
  foldl (λ weighted e, weighted ++ replicate (Z.to_nat (count_for n e.2)) e.1)
        [] entries.

(** Inner loop of the remainder filler: append the key, then leave the loop
    as soon as the length has reached [n]. *)
Fixpoint fill_pass (n : Z) (keys : list string) (weighted : list string)
    : list string :=
  match keys with
  | [] => weighted
  | provider :: rest =>
      let weighted' := weighted ++ [provider] in
      if n <=? Z.of_nat (length weighted') then weighted'
      else fill_pass n rest weighted'
  end.

Section assign.
(** [range_order j m]: the enumeration of map [m] made by the [j]-th
    [range] statement that is executed. *)
Variable range_order : nat → gmap string Z → list (string * Z).
(** [rand.Shuffle] applied to the whole slice. *)
Variable shuffle : list string → list string.

(** Outer loop [for len(weighted) < n]; [pass] counts the [range]
    statements executed so far. *)
Fixpoint fill (fuel : nat) (n : Z) (dist : gmap string Z) (pass : nat)
    (weighted : list string) : option (list string) :=
  if Z.of_nat (length weighted) <? n then
    match fuel with
    | O => None
    | S fuel' =>
        fill fuel' n dist (S pass)
             (fill_pass n (range_order pass dist).*1 weighted)
    end
  else Some weighted.

Definition AssignProviders (fuel : nat) (n : Z) (dist : gmap string Z)
    : outcome (list string) :=
  if n <? 0 then Panics (* make([]string, 0, n) *)
  else
    let weighted := weighted_base n (range_order 0 dist) in
    match fill fuel n dist 1 weighted with
    | None => OutOfFuel
    | Some weighted =>
        let weighted := shuffle weighted in
        if Z.of_nat (length weighted) <? n then Panics (* weighted[:n] *)
        else Returns (take (Z.to_nat n) weighted)
    end.
End assign.

Definition dist_sum (dist : gmap string Z) : Z :=
  sum_Z (map_to_list dist).*2.

Definition dist_keys (dist : gmap string Z) : list string :=
  (map_to_list dist).*1.

(** What the first loop appends for one entry. *)
Definition expand (n : Z) (e : string * Z) : list string :=
  replicate (Z.to_nat (count_for n e.2)) e.1.

Definition percentages (es : list (string * Z)) : Prop :=
  ∀ e, e ∈ es → 0 ≤ e.2 ≤ 100.

(** Sum of the rounded-down shares [floor(pct * n / 100)]. *)
Definition floors (n : Z) (es : list (string * Z)) : Z :=
  sum_Z ((λ e, e.2 * n / 100) <$> es).

(** The slice before the shuffle, for a valid distribution: the shares of
    the first enumeration, then as many keys of the second enumeration as
    the shares fall short of [n]. *)
Definition filled (range_order : nat → gmap string Z → list (string * Z))
    (n : Z) (dist : gmap string Z) : list string :=
  (range_order 0%nat dist ≫= expand n)
  ++ take (Z.to_nat (n - floors n (range_order 0%nat dist)))
          (range_order 1%nat dist).*1.

(** [ValidProviders]: the keys of the catalog, in the order in which the
    [range] statement enumerates it. *)
Definition ValidProvidersIn
    (range_stops : gmap string (list Stop) → list (string * list Stop))
    (catalog : gmap string (list Stop)) : list string :=
  foldl (λ keys e, keys ++ [e.1]) [] (range_stops catalog).

Definition ValidProviders
    (range_stops : gmap string (list Stop) → list (string * list Stop))
    : list string :=
  ValidProvidersIn range_stops stopsByProvider.

(** A category with at least one target. *)
Definition served (catalog : gmap string (list Stop)) (k : string) : Prop :=
  ∃ stops, catalog !! k = Some stops ∧ stops ≠ [].

End providers.

(** * Package device *)

Module device.

Inductive State : Type :=
| StateInit
| StateRegistering
| StateAuthenticating
| StateLinking
| StateConfiguring
| StateActive
| StateError
| StateDone.

Definition State_String (s : State) : string :=
  match s with
  | StateInit => "INIT"
  | StateRegistering => "REGISTERING"
  | StateAuthenticating => "AUTHENTICATING"
  | StateLinking => "LINKING"
  | StateConfiguring => "CONFIGURING"
  | StateActive => "ACTIVE"
  | StateError => "ERROR"
  | StateDone => "DONE"
  end.

Inductive EventType : Type := EventActive | EventError | EventDone | EventMQTT.

Record Event : Type := mkEvent { ev_DeviceID : string; ev_Type : EventType }.

(** Log records; the timestamps are not modelled. *)
Record HTTPLogEntry : Type := mkHTTPLogEntry {
  Method : string;
  Path : string;
  Status : Z;
  OK : bool
}.

Record MQTTMessage : Type := mkMQTTMessage { Topic : string; Payload : string }.

Record httpClient : Type := mkHttpClient { base : string; secretKey : string }.

(** [client_set] stands for [m.client != nil]; [client_closed] tells that
    [Disconnect] has been called on that client. *)
Record mqttClient : Type := mkMqttClient {
  host : string;
  port : Z;
  username : string;
  password : string;
  client_set : bool;
  client_closed : bool
}.

Record MockDevice : Type := mkMockDevice {
  ShortID : string;
  DeviceID : string;
  Email : string;
  Password : string;
  Stop : providers.Stop;
  State_ : State;
  ErrorMsg : string;
  HTTPLog : list HTTPLogEntry;
  MQTTMsgs : list MQTTMessage;
  MQTTCount : Z;
  http : httpClient;
  mqtt : mqttClient;
  stopCh : chan;
  doneCh : chan
}.

(** Operations invoked on the two transports, in the order of the calls. *)
Inductive Op : Type :=
| BackendCall (method path : string) (timeout_s : Z)
| BrokerConnect (broker clientID : string)
| BrokerSubscribe (topic : string)
| BrokerPublish (topic payload : string)
| BrokerDisconnect (quiesce_ms : Z).

(** What the outside world answers. *)
Inductive HttpResult : Type :=
| RequestError (msg : string)   (* the request could not be built:
                                   nothing is sent, nothing is logged *)
| TransportError (msg : string) (* [client.Do] failed, time-outs included *)
| Response (status : Z).

Inductive TokenResult : Type :=
| TokenTimeout
| TokenError (msg : string)
| TokenOK.

Record Env : Type := mkEnv {
  http_result : nat → HttpResult; (* answer to the device's i-th backend call *)
  connect_result : TokenResult;
  subscribe_result : TokenResult;
  broker_connected : bool;        (* the link to the broker is up when
                                     [disconnect] asks *)
  PathEscape : string → string    (* [url.PathEscape] *)
}.

(** A device together with its surroundings: the number of backend calls
    made so far (the index into the oracle), the transport operations
    invoked, and the events sent on the channel given to [Run].  [history]
    and [executed] are ghost fields: every value written to the state, and
    the names of the steps whose function has been called. *)
Record World : Type := mkWorld {
  dev : MockDevice;
  requests : nat;
  ops : list Op;
  eventCh : list Event;
  history : list State;
  executed : list string
}.

Definition with_dev (f : MockDevice → MockDevice) (w : World) : World :=
  mkWorld (f (dev w)) (requests w) (ops w) (eventCh w) (history w) (executed w).

Definition write_State (s : State) (d : MockDevice) : MockDevice :=
  mkMockDevice (ShortID d) (DeviceID d) (Email d) (Password d) (Stop d)
    s (ErrorMsg d) (HTTPLog d) (MQTTMsgs d) (MQTTCount d)
    (http d) (mqtt d) (stopCh d) (doneCh d).

Definition write_ErrorMsg (msg : string) (d : MockDevice) : MockDevice :=
  mkMockDevice (ShortID d) (DeviceID d) (Email d) (Password d) (Stop d)
    (State_ d) msg (HTTPLog d) (MQTTMsgs d) (MQTTCount d)
    (http d) (mqtt d) (stopCh d) (doneCh d).

Definition write_HTTPLog (l : list HTTPLogEntry) (d : MockDevice) : MockDevice :=
  mkMockDevice (ShortID d) (DeviceID d) (Email d) (Password d) (Stop d)
    (State_ d) (ErrorMsg d) l (MQTTMsgs d) (MQTTCount d)
    (http d) (mqtt d) (stopCh d) (doneCh d).

Definition write_MQTT (l : list MQTTMessage) (c : Z) (d : MockDevice)
    : MockDevice :=
  mkMockDevice (ShortID d) (DeviceID d) (Email d) (Password d) (Stop d)
    (State_ d) (ErrorMsg d) (HTTPLog d) l c
    (http d) (mqtt d) (stopCh d) (doneCh d).

(** [m.client = client], a client on which [Disconnect] has not been
    called. *)
Definition write_client (b : bool) (d : MockDevice) : MockDevice :=
  mkMockDevice (ShortID d) (DeviceID d) (Email d) (Password d) (Stop d)
    (State_ d) (ErrorMsg d) (HTTPLog d) (MQTTMsgs d) (MQTTCount d)
    (http d)
    (mkMqttClient (host (mqtt d)) (port (mqtt d)) (username (mqtt d))
                  (password (mqtt d)) b false)
    (stopCh d) (doneCh d).

(** The client after [Disconnect]. *)
Definition write_closed (d : MockDevice) : MockDevice :=
  mkMockDevice (ShortID d) (DeviceID d) (Email d) (Password d) (Stop d)
    (State_ d) (ErrorMsg d) (HTTPLog d) (MQTTMsgs d) (MQTTCount d)
    (http d)
    (mkMqttClient (host (mqtt d)) (port (mqtt d)) (username (mqtt d))
                  (password (mqtt d)) (client_set (mqtt d)) true)
    (stopCh d) (doneCh d).

Definition write_stopCh (c : chan) (d : MockDevice) : MockDevice :=
  mkMockDevice (ShortID d) (DeviceID d) (Email d) (Password d) (Stop d)
    (State_ d) (ErrorMsg d) (HTTPLog d) (MQTTMsgs d) (MQTTCount d)
    (http d) (mqtt d) c (doneCh d).

Definition write_doneCh (c : chan) (d : MockDevice) : MockDevice :=
  mkMockDevice (ShortID d) (DeviceID d) (Email d) (Password d) (Stop d)
    (State_ d) (ErrorMsg d) (HTTPLog d) (MQTTMsgs d) (MQTTCount d)
    (http d) (mqtt d) (stopCh d) c.

Definition invoke (o : Op) (w : World) : World :=
  mkWorld (dev w) (requests w) (ops w ++ [o]) (eventCh w) (history w)
          (executed w).

(** [eventCh <- ev].  The send is taken not to block: the runner's channel
    holds four events per device and a run sends at most two. *)
Definition send (ev : Event) (w : World) : World :=
  mkWorld (dev w) (requests w) (ops w) (eventCh w ++ [ev]) (history w)
          (executed w).

Definition note_step (name : string) (w : World) : World :=
  mkWorld (dev w) (requests w) (ops w) (eventCh w) (history w)
          (executed w ++ [name]).

Definition setState (s : State) (w : World) : World :=
  mkWorld (write_State s (dev w)) (requests w) (ops w) (eventCh w)
          (history w ++ [s]) (executed w).

Definition setError (msg : string) (w : World) : World :=
  mkWorld (write_ErrorMsg msg (write_State StateError (dev w)))
          (requests w) (ops w) (eventCh w)
          (history w ++ [StateError]) (executed w).

Definition addHTTPLog (entry : HTTPLogEntry) (w : World) : World :=
  with_dev (λ d, write_HTTPLog (HTTPLog d ++ [entry]) d) w.

Definition addMQTTMsg (msg : MQTTMessage) (w : World) : World :=
  with_dev (λ d, write_MQTT (MQTTMsgs d ++ [msg]) (wrap64 (MQTTCount d + 1)) d) w.

Definition GetState (w : World) : State := State_ (dev w).
Definition GetMQTTCount (w : World) : Z := MQTTCount (dev w).
Definition GetErrorMsg (w : World) : string := ErrorMsg (dev w).

(** ** Backend transport *)

(** Returns the status and the error, if any. *)
Definition doWithTimeout (env : Env) (method path : string) (timeout_s : Z)
    (w : World) : (Z * option string) * World :=
  let answer := http_result env (requests w) in
  let w := mkWorld (dev w) (S (requests w))
                   (ops w ++ [BackendCall method path timeout_s])
                   (eventCh w) (history w) (executed w) in
  match answer with
  | RequestError msg => ((0, Some msg), w)
  | TransportError msg =>
      ((0, Some msg), addHTTPLog (mkHTTPLogEntry method path 0 false) w)
  | Response status =>
      let ok := (200 <=? status) && (status <? 300) in
      ((status, None), addHTTPLog (mkHTTPLogEntry method path status ok) w)
  end.

Definition do (env : Env) (method path : string) (w : World)
    : (Z * option string) * World :=
  doWithTimeout env method path 15 w.

(** The common tail of the request functions: pass the error on, or turn
    a status outside [accepted] into an error that names the operation. *)
Definition expect (what : string) (accepted : list Z)
    (r : (Z * option string) * World) : option string * World :=
  match r with
  | ((_, Some err), w) => (Some err, w)
  | ((status, None), w) =>
      if bool_decide (status ∈ accepted) then (None, w)
      else (Some (what +:+ " returned " +:+ pretty status), w)
  end.

Definition registerDevice (env : Env) (w : World) : option string * World :=
  let w := setState StateRegistering w in
  expect "register device" [200; 201] (do env "POST" "/device/register" w).

Definition registerUser (env : Env) (w : World) : option string * World :=
  expect "register user" [200; 201] (do env "POST" "/user/register" w).

Definition login (env : Env) (w : World) : option string * World :=
  let w := setState StateAuthenticating w in
  expect "login" [200; 201] (do env "POST" "/auth/login" w).

Definition linkDevice (env : Env) (w : World) : option string * World :=
  let w := setState StateLinking w in
  expect "link device" [200; 201] (do env "POST" "/user/device/link" w).

Definition config_path (env : Env) (w : World) : string :=
  "/device/" +:+ PathEscape env (DeviceID (dev w)) +:+ "/config".

Definition setConfig (env : Env) (w : World) : option string * World :=
  let w := setState StateConfiguring w in
  expect "set config" [200; 201]
         (doWithTimeout env "POST" (config_path env w) 90 w).

Definition getConfig (env : Env) (w : World) : option string * World :=
  expect "get config" [200] (do env "GET" (config_path env w) w).

Definition refresh (env : Env) (w : World) : option string * World :=
  expect "refresh" [200; 201]
         (do env "POST" ("/refresh/" +:+ PathEscape env (DeviceID (dev w))) w).

Definition logout (env : Env) (w : World) : option string * World :=
  expect "logout" [200; 204] (do env "POST" "/auth/logout" w).

(** ** Broker transport *)

Definition presenceTopic (w : World) : string :=
  "device/" +:+ DeviceID (dev w) +:+ "/presence".

(** [SetAutoReconnect(true)], among the options that [connect] sets. *)
Definition AutoReconnect : bool := true.

(** [connect].  The handler given to [SetOnConnectHandler] is not called
    here: the library calls it, see [on_connect]. *)
Definition connect (env : Env) (w : World) : option string * World :=
  let m := mqtt (dev w) in
  let broker := "tcp://" +:+ host m +:+ ":" +:+ pretty (port m) in
  let w := invoke (BrokerConnect broker (DeviceID (dev w))) w in
  match connect_result env with
  | TokenTimeout => (Some "mqtt connect timeout", w)
  | TokenError msg => (Some ("mqtt connect: " +:+ msg), w)
  | TokenOK => (None, with_dev (write_client true) w)
  end.

(** The handler that [connect] installs with [SetOnConnectHandler].  The
    library runs it on a goroutine of its own each time the connection is
    established, the first time and after every reconnection.  Its publish
    is therefore not an operation of [Run], and its place among the
    operations that [Run] invokes after the connect is not fixed. *)
Definition on_connect (w : World) : World :=
  invoke (BrokerPublish (presenceTopic w) "online") w.

Definition subscribe (env : Env) (w : World) : option string * World :=
  if negb (client_set (mqtt (dev w))) then (Some "mqtt not connected", w)
  else
    let topic := "/device/" +:+ DeviceID (dev w) +:+ "/commands" in
    let w := invoke (BrokerSubscribe topic) w in
    match subscribe_result env with
    | TokenTimeout => (Some "mqtt subscribe timeout", w)
    | TokenError msg => (Some msg, w)
    | TokenOK => (None, w)
    end.

(** [client.IsConnected()].  The library documents it as: the connection
    is up now, or it will be re-established automatically when possible.
    A client set to reconnect that has connected answers true also while
    the link is down, until [Disconnect] is called on it. *)
Definition IsConnected (env : Env) (m : mqttClient) : bool :=
  negb (client_closed m) && (AutoReconnect || broker_connected env).

Definition disconnect (env : Env) (w : World) : World :=
  if client_set (mqtt (dev w)) && IsConnected env (mqtt (dev w)) then
    with_dev write_closed
      (invoke (BrokerDisconnect 500)
              (invoke (BrokerPublish (presenceTopic w) "offline") w))
  else w.

(** ** The lifecycle *)

Abbreviation step := (string * (Env → World → option string * World))%type.

Definition steps : list step := [
  ("register device", registerDevice);
  ("register user", registerUser);
  ("login", login);
  ("link device", linkDevice);
  ("set config", setConfig);
  ("get config", getConfig);
  ("connect mqtt", connect);
  ("subscribe mqtt", subscribe)
].

(** When a concurrent [Shutdown] closes [stopCh], relative to the progress
    of [Run]. *)
Inductive CancelTime : Type :=
| CancelBeforeCheck (k : nat) (* step k-1 has returned; the select that
                                 precedes step k has not yet run *)
| CancelDuringStep (k : nat)  (* after that select, while step k runs *)
| CancelWhileActive           (* while [Run] waits in [<-d.stopCh] *)
| CancelNever.

Definition seen_at_check (c : CancelTime) (k : nat) : bool :=
  match c with
  | CancelBeforeCheck j => (j <=? k)%nat
  | CancelDuringStep j => (j <? k)%nat
  | CancelWhileActive | CancelNever => false
  end.

Definition fires (c : CancelTime) : bool :=
  match c with CancelNever => false | _ => true end.

(** Number of steps that have returned at the moment the signal fires. *)
Definition steps_completed_at (c : CancelTime) : option nat :=
  match c with
  | CancelBeforeCheck k | CancelDuringStep k => Some (k `min` length steps)%nat
  | CancelWhileActive => Some (length steps)
  | CancelNever => None
  end.

(** The [select] before step [k] finds [stopCh] closed. *)
Definition stop_closed (c : CancelTime) (w : World) (k : nat) : bool :=
  is_closed (stopCh (dev w)) || seen_at_check c k.

Definition observe_stop (w : World) : World :=
  with_dev (write_stopCh ChanClosed) w.

(** The loop over the steps.  The boolean tells whether [Run] returns from
    inside the loop. *)
Fixpoint run_steps (env : Env) (c : CancelTime) (k : nat) (ss : list step)
    (w : World) : bool * World :=
  match ss with
  | [] => (false, w)
  | (name, fn) :: rest =>
      if stop_closed c w k then (true, setState StateDone (observe_stop w))
      else
        match fn env (note_step name w) with
        | (Some err, w') =>
            let w' := setError (name +:+ ": " +:+ err) w' in
            (true, send (mkEvent (DeviceID (dev w')) EventError) w')
        | (None, w') => run_steps env c (S k) rest w'
        end
  end.

Definition cleanup (env : Env) (w : World) : World :=
  let w := snd (logout env w) in
  let w := disconnect env w in
  let w := setState StateDone w in
  send (mkEvent (DeviceID (dev w)) EventDone) w.

Inductive RunResult : Type :=
| Returned (w : World)
| Blocked (w : World)   (* parked for ever in [<-d.stopCh] *)
| Panicked (w : World).

Definition world_of (r : RunResult) : World :=
  match r with Returned w | Blocked w | Panicked w => w end.

(** [defer close(d.doneCh)] *)
Definition close_done (w : World) : RunResult :=
  match chan_close (doneCh (dev w)) with
  | Some c => Returned (with_dev (write_doneCh c) w)
  | None => Panicked w
  end.

Definition Run (env : Env) (c : CancelTime) (w : World) : RunResult :=
  match run_steps env c 0 steps w with
  | (true, w) => close_done w
  | (false, w) =>
      let w := setState StateActive w in
      let w := send (mkEvent (DeviceID (dev w)) EventActive) w in
      if is_closed (stopCh (dev w)) || fires c then
        close_done (cleanup env (observe_stop w))
      else Blocked w
  end.

(** [Shutdown]: close [stopCh] unless the receive finds it closed. *)
Definition Shutdown (d : MockDevice) : option MockDevice :=
  if is_closed (stopCh d) then Some d
  else c ← chan_close (stopCh d); Some (write_stopCh c d).

Definition ForceRefresh (env : Env) (w : World) : option string * World :=
  refresh env w.

(** [strings.TrimRight(s, "/")] *)
Fixpoint trim_right_slash (s : string) : string :=
  match s with
  | EmptyString => EmptyString
  | String a rest =>
      match trim_right_slash rest with
      | EmptyString =>
          if Ascii.eqb a "/"%char then EmptyString else String a EmptyString
      | rest' => String a rest'
      end
  end.

(** [New]; [id] and [pw] are the two strings drawn from [uuid.New()].
    [id[:8]] panics on a shorter string, which a UUID never is. *)
Definition New (serverURL secret mqttHost mqttUsername mqttPassword : string)
    (mqttPort : Z) (stop : providers.Stop) (id pw : string) : MockDevice :=
  mkMockDevice (String.substring 0 8 id)
    ("loadtest-" +:+ id) ("loadtest-" +:+ id +:+ "@test.invalid") pw stop
    StateInit EmptyString [] [] 0
    (mkHttpClient (trim_right_slash serverURL) secret)
    (mkMqttClient mqttHost mqttPort mqttUsername mqttPassword false false)
    ChanOpen ChanOpen.

Definition fresh (d : MockDevice) : World := mkWorld d 0 [] [] [] [].

(** ** Helper notions used to state the properties *)

(** All of [ss] succeed one after the other from [w]. *)
Fixpoint exec_steps (env : Env) (ss : list step) (w : World) : option World :=
  match ss with
  | [] => Some w
  | (name, fn) :: rest =>
      match fn env (note_step name w) with
      | (None, w') => exec_steps env rest w'
      | (Some _, _) => None
      end
  end.

(** The operations of the cleanup sequence. *)
Definition is_cleanup_op (o : Op) : bool :=
  match o with
  | BackendCall _ path _ => String.eqb path "/auth/logout"
  | BrokerPublish _ payload => String.eqb payload "offline"
  | BrokerDisconnect _ => true
  | _ => false
  end.

(** [sub] occurs inside [s]. *)
Definition contains (s sub : string) : Prop :=
  ∃ pre post : string, s = pre +:+ sub +:+ post.

(** The states a lifecycle step writes. *)
Definition onboarding_state (s : State) : bool :=
  match s with
  | StateRegistering | StateAuthenticating | StateLinking | StateConfiguring =>
      true
  | _ => false
  end.

(** What the part of [Run] between [w] and [w'] has left untouched and
    what it has added: no event, the same channels and identity, the step
    names [names], onboarding states only, and no cleanup operation. *)
Record frame (names : list string) (w w' : World) : Prop := mkFrame {
  frame_events : eventCh w' = eventCh w;
  frame_executed : executed w' = executed w ++ names;
  frame_stopCh : stopCh (dev w') = stopCh (dev w);
  frame_doneCh : doneCh (dev w') = doneCh (dev w);
  frame_DeviceID : DeviceID (dev w') = DeviceID (dev w);
  frame_history :
    ∃ hs, history w' = history w ++ hs
          ∧ Forall (λ s, onboarding_state s = true) hs;
  frame_ops :
    ∃ os, ops w' = ops w ++ os ∧ Forall (λ o, is_cleanup_op o = false) os
}.

Definition framed (s : step) : Prop :=
  ∀ env w, frame [] w (s.2 env w).2.

(** The device after [Shutdown]. *)
Definition stopped (d : MockDevice) : MockDevice :=
  if is_closed (stopCh d) then d else write_stopCh ChanClosed d.

(** ** Concrete devices and environments for the examples *)

Definition sample_device : MockDevice :=
  New "https://staging.example/" "key" "broker" "user" "secret" 1883
      providers.zeroStop "0123456789abcdef" "pw".

(** Every request is answered with 200 and the broker accepts. *)
Definition env_ok : Env := mkEnv (λ _, Response 200) TokenOK TokenOK true id.

(** The third request, the login, is answered with 500. *)
Definition env_login_rejected : Env :=
  mkEnv (λ i, if (i =? 2)%nat then Response 500 else Response 200)
        TokenOK TokenOK true id.


(** ** Two goroutines that call [Shutdown] on the same device

    A call consists of two channel operations: the [select] that tries to
    receive from [stopCh], and, in its default branch, [close(stopCh)].
    Each of them is atomic; a schedule tells which goroutine moves next.
    The runner's [Shutdown] begins with the same two operations on its
    [StopCh]. *)

Inductive ShutdownPC : Type := AtSelect | AtClose | Finished.

(** One move of a call; [None] is the panic of closing a closed channel. *)
Definition shutdown_move (ch : chan) (pc : ShutdownPC)
    : option (chan * ShutdownPC) :=
  match pc with
  | AtSelect => if is_closed ch then Some (ch, Finished) else Some (ch, AtClose)
  | AtClose => ch' ← chan_close ch; Some (ch', Finished)
  | Finished => Some (ch, Finished)
  end.

(** [false] schedules the first goroutine, [true] the second. *)
Fixpoint interleave (sched : list bool) (ch : chan) (pc1 pc2 : ShutdownPC)
    : option (chan * ShutdownPC * ShutdownPC) :=
  match sched with
  | [] => Some (ch, pc1, pc2)
  | false :: rest =>
      match shutdown_move ch pc1 with
      | Some (ch', pc1') => interleave rest ch' pc1' pc2
      | None => None
      end
  | true :: rest =>
      match shutdown_move ch pc2 with
      | Some (ch', pc2') => interleave rest ch' pc1 pc2'
      | None => None
      end
  end.

(** ** Further functions of the package and notions for their properties *)

(** The numeric value of a state: the constants are numbered by [iota]. *)
Definition State_int (s : State) : Z :=
  match s with
  | StateInit => 0
  | StateRegistering => 1
  | StateAuthenticating => 2
  | StateLinking => 3
  | StateConfiguring => 4
  | StateActive => 5
  | StateError => 6
  | StateDone => 7
  end.

#[global] Instance State_eq_dec : EqDecision State.
Proof. solve_decision. Defined.

(** [Wait] returns once [doneCh] is closed; the boolean tells whether it
    returns. *)
Definition Wait (d : MockDevice) : bool := is_closed (doneCh d).

Definition GetHTTPLog (w : World) : list HTTPLogEntry := HTTPLog (dev w).
Definition GetMQTTMsgs (w : World) : list MQTTMessage := MQTTMsgs (dev w).

(** The callback that [subscribe] installs, run for each message that the
    broker delivers. *)
Definition on_message (topic payload : string) (w : World) : World :=
  addMQTTMsg (mkMQTTMessage topic payload) w.

(** The backend operations of [http.go], each with the name used in its
    error text and the statuses it accepts. *)
Definition backend_ops
    : list (string * (Env → World → option string * World) * list Z) := [
  ("register device", registerDevice, [200; 201]);
  ("register user", registerUser, [200; 201]);
  ("login", login, [200; 201]);
  ("link device", linkDevice, [200; 201]);
  ("set config", setConfig, [200; 201]);
  ("get config", getConfig, [200]);
  ("refresh", refresh, [200; 201]);
  ("logout", logout, [200; 204])
].

(** The flag that [doWithTimeout] stores with a status. *)
Definition status_ok (status : Z) : bool := (200 <=? status) && (status <? 300).

(** The states that each of the eight steps writes, in the order of
    [steps]. *)
Definition step_states : list (list State) := [
  [StateRegistering]; []; [StateAuthenticating]; [StateLinking];
  [StateConfiguring]; []; []; []
].

(** The transport operations that each of the eight steps invokes when it
    succeeds, in the order of [steps], for the device of [w]; and those of
    the cleanup of a device that has connected. *)
Definition step_ops (env : Env) (w : World) : list (list Op) := [
  [BackendCall "POST" "/device/register" 15];
  [BackendCall "POST" "/user/register" 15];
  [BackendCall "POST" "/auth/login" 15];
  [BackendCall "POST" "/user/device/link" 15];
  [BackendCall "POST" (config_path env w) 90];
  [BackendCall "GET" (config_path env w) 15];
  [BrokerConnect ("tcp://" +:+ host (mqtt (dev w)) +:+ ":"
                  +:+ pretty (port (mqtt (dev w))))
                 (DeviceID (dev w))];
  [BrokerSubscribe ("/device/" +:+ DeviceID (dev w) +:+ "/commands")]
].

Definition cleanup_ops (w : World) : list Op := [
  BackendCall "POST" "/auth/logout" 15;
  BrokerPublish (presenceTopic w) "offline";
  BrokerDisconnect 500
].

(** The same device as far as the operations name it. *)
Definition same_identity (w w' : World) : Prop :=
  DeviceID (dev w') = DeviceID (dev w)
  ∧ host (mqtt (dev w')) = host (mqtt (dev w))
  ∧ port (mqtt (dev w')) = port (mqtt (dev w)).

(** What no part of a run changes, and how far it may add to the rest:
    the identity, the assignment, the backend configuration and the
    message log stay; the request log, the operations, the events, the
    states and the step names only grow; a closed stop channel stays
    closed. *)
Record extends (w w' : World) : Prop := mkExtends {
  ext_ShortID : ShortID (dev w') = ShortID (dev w);
  ext_DeviceID : DeviceID (dev w') = DeviceID (dev w);
  ext_Email : Email (dev w') = Email (dev w);
  ext_Password : Password (dev w') = Password (dev w);
  ext_Stop : Stop (dev w') = Stop (dev w);
  ext_http : http (dev w') = http (dev w);
  ext_MQTTMsgs : MQTTMsgs (dev w') = MQTTMsgs (dev w);
  ext_MQTTCount : MQTTCount (dev w') = MQTTCount (dev w);
  ext_requests : (requests w ≤ requests w')%nat;
  ext_HTTPLog :
    ∃ new, HTTPLog (dev w') = HTTPLog (dev w) ++ new
      ∧ (length new ≤ requests w' - requests w)%nat
      ∧ Forall (λ e, OK e = status_ok (Status e)) new;
  ext_ops : ops w `prefix_of` ops w';
  ext_eventCh : eventCh w `prefix_of` eventCh w';
  ext_history : history w `prefix_of` history w';
  ext_executed : executed w `prefix_of` executed w';
  ext_stopCh :
    is_closed (stopCh (dev w)) = true → is_closed (stopCh (dev w')) = true
}.

(** The four ways in which a run can end, with the events it has sent. *)
Inductive Ending : Type :=
| EndCancelled   (* stop seen before a step: Done, no event *)
| EndFailed      (* a step failed: Error, one error event *)
| EndWaiting     (* Active, waiting for the stop signal *)
| EndCleanedUp.  (* Active, then cleanup: Done *)

Definition ending_state (e : Ending) : State :=
  match e with
  | EndCancelled | EndCleanedUp => StateDone
  | EndFailed => StateError
  | EndWaiting => StateActive
  end.

Definition ending_events (id : string) (e : Ending) : list Event :=
  match e with
  | EndCancelled => []
  | EndFailed => [mkEvent id EventError]
  | EndWaiting => [mkEvent id EventActive]
  | EndCleanedUp => [mkEvent id EventActive; mkEvent id EventDone]
  end.

End device.

(** * Package runner *)

Module runner.
Import device.

Record Config : Type := mkConfig {
  ServerURL : string;
  SecretKey : string;
  MQTTHost : string;
  MQTTPort : Z;
  MQTTUsername : string;
  MQTTPassword : string;
  Devices : Z;
  Providers : gmap string Z;
  Duration : Z
}.

(** [mqttWindow] is the array [[5]int64], kept as a list of length 5. *)
Record Stats : Type := mkStats {
  TotalDevices : Z;
  ActiveDevices : Z;
  ErrorCount : Z;
  MQTTTotal : Z;
  mqttWindow : list Z;
  windowIdx : Z
}.

Definition window_capacity : nat := 5.

(** [sum += v] over a slice of [int64]. *)
Definition sum64 (l : list Z) : Z := foldl (λ sum v, wrap64 (sum + v)) 0 l.

(** [float64(sum) / 5.0], as the exact quotient; the rounding of the
    floating-point division is not modelled. *)
Definition MsgsPerSec (s : Stats) : Q := (inject_Z (sum64 (mqttWindow s)) / 5)%Q.

Record Runner : Type := mkRunner {
  Cfg : Config;
  Devices_ : list MockDevice;
  Stats_ : Stats;
  EventCh_cap : Z;
  EventCh : list Event;
  StopCh : chan
}.

Inductive NewError : Type :=
| NoStopsConfigured (provKey : string). (* "no stops configured for provider %q" *)

Section construction.
Variable catalog : gmap string (list providers.Stop).
Variable range_order : nat → gmap string Z → list (string * Z).
Variable shuffle : list string → list string.
Variable rnd : nat → nat.      (* the draw of [rand.Intn] for device i *)
Variable uuid : nat → string.  (* the successive results of [uuid.New()] *)

(** The loop [for i := 0; i < cfg.Devices; i++]; [count] is the number
    of iterations left. *)
Fixpoint new_devices (cfg : Config) (count i : nat)
    (providerAssignments : list string) (devices : list MockDevice)
    : outcome (NewError + list MockDevice) :=
  match count with
  | O => Returns (inr devices)
  | S count' =>
      match providerAssignments !! i with
      | None => Panics (* index out of range *)
      | Some provKey =>
          match providers.PickStopIn catalog (rnd i) provKey with
          | (_, false) => Returns (inl (NoStopsConfigured provKey))
          | (stop, true) =>
              let d := device.New (ServerURL cfg) (SecretKey cfg)
                         (MQTTHost cfg) (MQTTUsername cfg) (MQTTPassword cfg)
                         (MQTTPort cfg) stop
                         (uuid (2 * i)%nat) (uuid (2 * i + 1)%nat) in
              new_devices cfg count' (S i) providerAssignments
                          (devices ++ [d])
          end
      end
  end.

Definition NewIn (fuel : nat) (cfg : Config) : outcome (NewError + Runner) :=
  match providers.AssignProviders range_order shuffle fuel
          (Devices cfg) (Providers cfg) with
  | Panics => Panics
  | OutOfFuel => OutOfFuel
  | Returns providerAssignments =>
      let cap := wrap64 (Devices cfg * 4) in
      if cap <? 0 then Panics (* make(chan device.Event, cfg.Devices*4) *)
      else
        match new_devices cfg (Z.to_nat (Devices cfg)) 0
                          providerAssignments [] with
        | Panics => Panics
        | OutOfFuel => OutOfFuel
        | Returns (inl err) => Returns (inl err)
        | Returns (inr devices) =>
            Returns (inr (mkRunner cfg devices
                            (mkStats (Devices cfg) 0 0 0 (replicate 5 0) 0)
                            cap [] ChanOpen))
        end
  end.
End construction.

Definition New := NewIn providers.stopsByProvider.

(** A category without targets: unknown to the catalog, or known with an
    empty list. *)
Definition unserved (catalog : gmap string (list providers.Stop))
    (k : string) : Prop :=
  catalog !! k = None ∨ catalog !! k = Some [].

(** [Shutdown]: close [StopCh] unless it is closed, then shut every device
    down.  [None] is a panic. *)
Definition Shutdown (r : Runner) : option Runner :=
  stop ← (if is_closed (StopCh r) then Some (StopCh r)
          else chan_close (StopCh r));
  devices ← mapM device.Shutdown (Devices_ r);
  Some (mkRunner (Cfg r) devices (Stats_ r) (EventCh_cap r) (EventCh r) stop).

(** ** The event loop *)

(** What the [select] of [processEvents] receives. *)
Inductive Input : Type :=
| RecvEvent (ev : Event)   (* an event from [EventCh] *)
| EventChClosed            (* [EventCh] closed: [ok] is false *)
| Tick (counts : list Z)   (* the ticker fired; [counts] are the values of
                              [GetMQTTCount] read from the devices *)
| StopClosed.              (* [StopCh] closed *)

(** Messages passed to the display with [program.Send]. *)
Inductive TeaMsg : Type := EventMsg (ev : Event) | TickMsg.

Record Loop : Type := mkLoop {
  stats : Stats;
  lastTotal : Z;
  forwarded : list TeaMsg
}.

Definition forward (program : bool) (m : TeaMsg) (l : list TeaMsg)
    : list TeaMsg :=
  if program then l ++ [m] else l.

Definition on_event (program : bool) (ev : Event) (st : Loop) : Loop :=
  let s := stats st in
  let s' :=
    match ev_Type ev with
    | EventActive =>
        mkStats (TotalDevices s) (wrap64 (ActiveDevices s + 1)) (ErrorCount s)
                (MQTTTotal s) (mqttWindow s) (windowIdx s)
    | EventError =>
        mkStats (TotalDevices s) (ActiveDevices s) (wrap64 (ErrorCount s + 1))
                (MQTTTotal s) (mqttWindow s) (windowIdx s)
    | EventDone =>
        let active := ActiveDevices s in
        if 0 <? active then
          mkStats (TotalDevices s) (wrap64 (ActiveDevices s + -1))
                  (ErrorCount s) (MQTTTotal s) (mqttWindow s) (windowIdx s)
        else s
    | EventMQTT => s
    end in
  mkLoop s' (lastTotal st) (forward program (EventMsg ev) (forwarded st)).

(** [None]: the index [windowIdx % 5] is negative, which the array access
    answers with a panic. *)
Definition on_tick (program : bool) (counts : list Z) (st : Loop)
    : option Loop :=
  let s := stats st in
  let total := sum64 counts in
  let delta := wrap64 (total - lastTotal st) in
  let slot := Z.rem (windowIdx s) 5 in
  if slot <? 0 then None
  else
    Some (mkLoop
            (mkStats (TotalDevices s) (ActiveDevices s) (ErrorCount s) total
                     (<[Z.to_nat slot := delta]> (mqttWindow s))
                     (wrap64 (windowIdx s + 1)))
            total
            (forward program TickMsg (forwarded st))).

Inductive LoopStatus : Type := Waiting | Exited.

(** The loop, run on the inputs received so far. *)
Fixpoint processEvents (program : bool) (ins : list Input) (st : Loop)
    : option (LoopStatus * Loop) :=
  match ins with
  | [] => Some (Waiting, st)
  | RecvEvent ev :: rest => processEvents program rest (on_event program ev st)
  | Tick counts :: rest =>
      match on_tick program counts st with
      | Some st' => processEvents program rest st'
      | None => None
      end
  | EventChClosed :: _ | StopClosed :: _ => Some (Exited, st)
  end.

Definition start_loop (r : Runner) : Loop := mkLoop (Stats_ r) 0 [].

(** ** Helper notions used to state the properties *)

Definition is_exit (i : Input) : bool :=
  match i with EventChClosed | StopClosed => true | _ => false end.

(** The deltas stored by the ticks that the loop handles among [ins],
    oldest first. *)
Fixpoint deltas (last : Z) (ins : list Input) : list Z :=
  match ins with
  | [] => []
  | RecvEvent _ :: rest => deltas last rest
  | Tick counts :: rest =>
      wrap64 (sum64 counts - last) :: deltas (sum64 counts) rest
  | EventChClosed :: _ | StopClosed :: _ => []
  end.

(** The [c] most recent elements of a chronological list. *)
Definition latest {A} (c : nat) (l : list A) : list A :=
  drop (length l - c) l.

(** The five most recent deltas, newest first, padded with the zeros the
    array starts with. *)
Definition recent5 (ds : list Z) : list Z := take 5 (reverse ds ++ replicate 5 0).

(** The array seen as a ring: after the deltas [ds] the slot that will be
    overwritten next holds the oldest of the five, and so on around. *)
Definition window_inv (window ds : list Z) : Prop :=
  length window = 5%nat
  ∧ ∀ i, (i < 5)%nat →
      window !! ((length ds + i) mod 5)%nat = recent5 ds !! (4 - i)%nat.

(** The inputs that the loop handles: those before the first one that
    makes it return. *)
Fixpoint handled (ins : list Input) : list Input :=
  match ins with
  | [] => []
  | i :: rest => if is_exit i then [] else i :: handled rest
  end.

(** What [program.Send] is called with for an input. *)
Definition message_of (i : Input) : option TeaMsg :=
  match i with
  | RecvEvent ev => Some (EventMsg ev)
  | Tick _ => Some TickMsg
  | EventChClosed | StopClosed => None
  end.

Definition event_of (i : Input) : option Event :=
  match i with RecvEvent ev => Some ev | _ => None end.

Definition is_error_event (ev : Event) : bool :=
  match ev_Type ev with EventError => true | _ => false end.

(** The totals computed by the ticks that the loop handles among [ins],
    oldest first. *)
Fixpoint totals (ins : list Input) : list Z :=
  match ins with
  | [] => []
  | RecvEvent _ :: rest => totals rest
  | Tick counts :: rest => sum64 counts :: totals rest
  | EventChClosed :: _ | StopClosed :: _ => []
  end.

(** The channel shared by the devices: [l] is an interleaving of the
    sequences [ls] when it takes the elements of each one in order. *)
Inductive interleaving {A} : list (list A) → list A → Prop :=
| interleaving_done ls : Forall (λ l, l = []) ls → interleaving ls []
| interleaving_next ls i x xs l :
    ls !! i = Some (x :: xs) →
    interleaving (<[i := xs]> ls) l →
    interleaving ls (x :: l).

(** A loop that starts on new statistics, two runs and what the loop may
    receive from them, for the examples. *)
Definition sample_loop : Loop :=
  mkLoop (mkStats 2 0 0 0 (replicate 5 0) 0) 0 [].

Definition sample_runs : list (Env * CancelTime * World) :=
  [(env_ok, CancelNever, fresh sample_device);
   (env_login_rejected, CancelNever, fresh sample_device)].

Definition sample_inputs : list Input :=
  [RecvEvent (mkEvent "loadtest-0123456789abcdef" EventError);
   Tick [0; 0];
   RecvEvent (mkEvent "loadtest-0123456789abcdef" EventActive);
   Tick [3; 0]].

(** The events that one device may still send: nothing, its error, its
    activation, its activation and its end, or its end alone once the
    activation has been received. *)
Definition lifecycle_events (l : list Event) : Prop :=
  ev_Type <$> l ∈ [[]; [EventError]; [EventActive];
                   [EventActive; EventDone]; [EventDone]].

(** What these events will add to the active count and to the error
    count, and whether they end an activation already counted. *)
Definition net_active (l : list Event) : Z :=
  match ev_Type <$> l with
  | [EventActive] => 1
  | [EventDone] => -1
  | _ => 0
  end.

Definition net_error (l : list Event) : Z :=
  match ev_Type <$> l with [EventError] => 1 | _ => 0 end.

Definition due_done (l : list Event) : Z :=
  match ev_Type <$> l with [EventDone] => 1 | _ => 0 end.

End runner.

(** * Package tui: the distribution chosen in the setup screen *)

Module tui.

Definition providerOrder : list string := ["cta"; "mta"; "mbta"; "septa"].

(** The loop that fills [result] from a list of names: with
    [base := 100 / len] and [rem := 100 % len], the name at index [i] gets
    [base + 1] if [i < rem] and [base] otherwise.  [None] is the panic of
    an integer division by zero. *)
Definition share_equally (names : list string) : option (gmap string Z) :=
  let len := Z.of_nat (length names) in
  if len =? 0 then None
  else
    let base := Z.quot 100 len in
    let rem := Z.rem 100 len in
    Some (foldl (λ result ip,
                   <[ip.2 := if Z.of_nat ip.1 <? rem then base + 1 else base]>
                     result)
                ∅ (imap pair names)).

(** The share of the name at index [i] among [len] names. *)
Definition share_of (len : Z) (i : nat) : Z :=
  if Z.of_nat i <? Z.rem 100 len then Z.quot 100 len + 1 else Z.quot 100 len.

(** [enabledProviders[p]] is false for a key that the map does not hold. *)
Definition EnabledProviderDist (enabledProviders : gmap string bool)
    : option (gmap string Z) :=
  let enabled :=
    filter (λ p, default false (enabledProviders !! p) = true) providerOrder in
  if (length enabled =? 0)%nat then share_equally providerOrder
  else share_equally enabled.

(** ** The setup screen *)

(** [l[i]] for a signed index: out of range is a panic ([None]). *)
Definition index {A} (l : list A) (i : Z) : option A :=
  if i <? 0 then None else l !! Z.to_nat i.

(** [for i, x := range l { if p(x) { idx = i; break } }] *)
Fixpoint first_index {A} (p : A → bool) (l : list A) (i : Z) : option Z :=
  match l with
  | [] => None
  | x :: rest => if p x then Some i else first_index p rest (i + 1)
  end.

Definition devicePresets : list Z := [1; 5; 10; 25; 50].

(** Label and value of each preset. *)
Definition durationPresets : list (string * string) := [
  ("30s", "30s"); ("1m", "1m"); ("2m", "2m"); ("5m", "5m"); ("10m", "10m");
  ("unlimited", EmptyString)
].

Record SetupResult : Type := mkSetupResult {
  Devices : Z;
  Duration : string;
  Providers : gmap string Z;
  Start : bool
}.

(** [SetupResult{Start: false}]; the nil map reads as the empty map. *)
Definition not_started : SetupResult := mkSetupResult 0 EmptyString ∅ false.

(** The fields [width] and [height] of [SetupModel] are written
    [setup_width] and [setup_height]. *)
Record SetupModel : Type := mkSetupModel {
  setup_width : Z;
  setup_height : Z;
  serverURL : string;
  field : Z;
  devIdx : Z;
  durIdx : Z;
  providerIdx : Z;
  enabledProviders : gmap string bool;
  Result : SetupResult
}.

Definition fieldDevices : Z := 0.
Definition fieldDuration : Z := 1.
Definition fieldProviders : Z := 2.

Definition NewSetupModel (url : string) (defaultDevices : Z)
    (defaultDuration : string) : SetupModel :=
  mkSetupModel 0 0 url 0
    (default 1 (first_index (λ n, n =? defaultDevices) devicePresets 0))
    (default 5 (first_index (λ d, bool_decide (d.2 = defaultDuration))
                            durationPresets 0))
    0
    (<["septa" := true]> (<["mbta" := true]> (<["mta" := true]>
       (<["cta" := true]> ∅))))
    not_started.

Definition with_size (w h : Z) (m : SetupModel) : SetupModel :=
  mkSetupModel w h (serverURL m) (field m) (devIdx m) (durIdx m)
    (providerIdx m) (enabledProviders m) (Result m).

Definition with_field (f : Z) (m : SetupModel) : SetupModel :=
  mkSetupModel (setup_width m) (setup_height m) (serverURL m) f (devIdx m)
    (durIdx m) (providerIdx m) (enabledProviders m) (Result m).

Definition with_devIdx (i : Z) (m : SetupModel) : SetupModel :=
  mkSetupModel (setup_width m) (setup_height m) (serverURL m) (field m) i
    (durIdx m) (providerIdx m) (enabledProviders m) (Result m).

Definition with_durIdx (i : Z) (m : SetupModel) : SetupModel :=
  mkSetupModel (setup_width m) (setup_height m) (serverURL m) (field m)
    (devIdx m) i (providerIdx m) (enabledProviders m) (Result m).

Definition with_providerIdx (i : Z) (m : SetupModel) : SetupModel :=
  mkSetupModel (setup_width m) (setup_height m) (serverURL m) (field m)
    (devIdx m) (durIdx m) i (enabledProviders m) (Result m).

Definition with_enabled (e : gmap string bool) (m : SetupModel) : SetupModel :=
  mkSetupModel (setup_width m) (setup_height m) (serverURL m) (field m)
    (devIdx m) (durIdx m) (providerIdx m) e (Result m).

Definition with_Result (r : SetupResult) (m : SetupModel) : SetupModel :=
  mkSetupModel (setup_width m) (setup_height m) (serverURL m) (field m)
    (devIdx m) (durIdx m) (providerIdx m) (enabledProviders m) r.

(** [p := providerOrder[m.providerIdx];
     m.enabledProviders[p] = !m.enabledProviders[p]] *)
Definition toggle_provider (m : SetupModel) : option SetupModel :=
  p ← index providerOrder (providerIdx m);
  Some (with_enabled
          (<[p := negb (default false (enabledProviders m !! p))]>
             (enabledProviders m))
          m).

(** What the program delivers to [Update]. *)
Inductive Msg : Type :=
| WindowSizeMsg (w h : Z)
| KeyMsg (key : string)      (* [msg.String()] *)
| OtherMsg.                  (* ticks, device events, anything else *)

(** [SetupModel.Update]; the boolean tells whether the command returned
    is [tea.Quit].  [None] is a panic. *)
Definition SetupModel_Update (msg : Msg) (m : SetupModel)
    : option (SetupModel * bool) :=
  match msg with
  | WindowSizeMsg w h => Some (with_size w h m, false)
  | KeyMsg k =>
      if bool_decide (k ∈ ["ctrl+c"; "q"]) then
        Some (with_Result not_started m, true)
      else if bool_decide (k ∈ ["tab"; "down"; "j"]) then
        Some (with_field (Z.rem (wrap64 (field m + 1)) 3) m, false)
      else if bool_decide (k ∈ ["shift+tab"; "up"; "k"]) then
        Some (with_field (Z.rem (wrap64 (field m + 2)) 3) m, false)
      else if bool_decide (k ∈ ["left"; "h"]) then
        if field m =? fieldDevices then
          Some (if 0 <? devIdx m then with_devIdx (wrap64 (devIdx m - 1)) m
                else m, false)
        else if field m =? fieldDuration then
          Some (if 0 <? durIdx m then with_durIdx (wrap64 (durIdx m - 1)) m
                else m, false)
        else if field m =? fieldProviders then
          Some (if 0 <? providerIdx m
                then with_providerIdx (wrap64 (providerIdx m - 1)) m
                else m, false)
        else Some (m, false)
      else if bool_decide (k ∈ ["right"; "l"]) then
        if field m =? fieldDevices then
          Some (if devIdx m <? Z.of_nat (length devicePresets) - 1
                then with_devIdx (wrap64 (devIdx m + 1)) m else m, false)
        else if field m =? fieldDuration then
          Some (if durIdx m <? Z.of_nat (length durationPresets) - 1
                then with_durIdx (wrap64 (durIdx m + 1)) m else m, false)
        else if field m =? fieldProviders then
          Some (if providerIdx m <? Z.of_nat (length providerOrder) - 1
                then with_providerIdx (wrap64 (providerIdx m + 1)) m
                else m, false)
        else Some (m, false)
      else if bool_decide (k = " ") then
        if field m =? fieldProviders then
          m' ← toggle_provider m; Some (m', false)
        else Some (m, false)
      else if bool_decide (k = "enter") then
        if field m =? fieldProviders then
          m' ← toggle_provider m; Some (m', false)
        else
          devices ← index devicePresets (devIdx m);
          duration ← index durationPresets (durIdx m);
          providers ← EnabledProviderDist (enabledProviders m);
          Some (with_Result (mkSetupResult devices duration.2 providers true) m,
                true)
      else Some (m, false)
  | OtherMsg => Some (m, false)
  end.

(** The program feeds the messages to [Update] until it returns
    [tea.Quit]; what follows is not delivered.  The boolean tells whether
    the program has ended; otherwise it is waiting for more. *)
Fixpoint run_setup (msgs : list Msg) (m : SetupModel)
    : option (SetupModel * bool) :=
  match msgs with
  | [] => Some (m, false)
  | msg :: rest =>
      match SetupModel_Update msg m with
      | None => None
      | Some (m', true) => Some (m', true)
      | Some (m', false) => run_setup rest m'
      end
  end.

(** The cursor positions that are inside their lists, and a result that
    the runner can be built from. *)
Definition valid_indices (m : SetupModel) : Prop :=
  0 ≤ field m < 3
  ∧ 0 ≤ devIdx m < Z.of_nat (length devicePresets)
  ∧ 0 ≤ durIdx m < Z.of_nat (length durationPresets)
  ∧ 0 ≤ providerIdx m < Z.of_nat (length providerOrder).

Definition valid_result (r : SetupResult) : Prop :=
  Devices r ∈ devicePresets
  ∧ Duration r ∈ durationPresets.*2
  ∧ providers.dist_sum (Providers r) = 100
  ∧ Providers r ≠ ∅
  ∧ ∀ k, k ∈ dom (Providers r) →
         providers.served providers.stopsByProvider k.

(** ** The main screen: which device is selected *)

(** The devices and the statistics are shared with the runner; the list of
    devices, with the states they have at that moment, is passed to each
    call. *)
Record Model : Type := mkModel {
  selected : Z;
  filterError : bool;
  showHelp : bool;
  width : Z;
  height : Z
}.

Definition NewModel : Model := mkModel 0 false false 0 0.

Definition visibleDevices (m : Model) (devices : list device.MockDevice)
    : list device.MockDevice :=
  if negb (filterError m) then devices
  else filter (λ d, device.State_ d = device.StateError) devices.

Inductive Cmd : Type :=
| NoCmd
| Quit
| Refresh (d : device.MockDevice). (* [go func() { _ = d.ForceRefresh() }()] *)

Definition with_selected (i : Z) (m : Model) : Model :=
  mkModel i (filterError m) (showHelp m) (width m) (height m).

Definition Model_Update (msg : Msg) (devices : list device.MockDevice)
    (m : Model) : option (Model * Cmd) :=
  match msg with
  | WindowSizeMsg w h =>
      Some (mkModel (selected m) (filterError m) (showHelp m) w h, NoCmd)
  | KeyMsg k =>
      if showHelp m then
        Some (mkModel (selected m) (filterError m) false (width m) (height m),
              NoCmd)
      else if bool_decide (k ∈ ["q"; "ctrl+c"]) then Some (m, Quit)
      else if bool_decide (k ∈ ["up"; "k"]) then
        Some (if 0 <? selected m then with_selected (wrap64 (selected m - 1)) m
              else m, NoCmd)
      else if bool_decide (k ∈ ["down"; "j"]) then
        let visible := visibleDevices m devices in
        Some (if selected m <? Z.of_nat (length visible) - 1
              then with_selected (wrap64 (selected m + 1)) m else m, NoCmd)
      else if bool_decide (k ∈ ["r"]) then
        let visible := visibleDevices m devices in
        if selected m <? Z.of_nat (length visible) then
          d ← index visible (selected m); Some (m, Refresh d)
        else Some (m, NoCmd)
      else if bool_decide (k ∈ ["e"]) then
        Some (mkModel 0 (negb (filterError m)) (showHelp m) (width m)
                      (height m), NoCmd)
      else if bool_decide (k ∈ ["?"]) then
        Some (mkModel (selected m) (filterError m) (negb (showHelp m))
                      (width m) (height m), NoCmd)
      else Some (m, NoCmd)
  | OtherMsg => Some (m, NoCmd)
  end.

(** The scroll window of [renderList]: the indices of the rows that its
    loop appends, for [n] devices. *)
Fixpoint list_rows (fuel : nat) (i start n maxItems : Z) : list Z :=
  match fuel with
  | O => []
  | S fuel' =>
      if (i <? n) && (i - start <? maxItems)
      then i :: list_rows fuel' (i + 1) start n maxItems
      else []
  end.

Definition renderList_rows (n selected height : Z) : list Z :=
  let maxItems := if height - 2 <? 1 then 1 else height - 2 in
  let start := if maxItems <=? selected then selected - maxItems + 1 else 0 in
  list_rows (Z.to_nat n) start start n maxItems.

(** What [View] selects before it renders: it moves [selected] back into
    the list when the list has become shorter, and picks the device for
    the detail panel; then the rows of the list panel.  [None] is a
    panic; the rendering itself is not modelled. *)
Definition Model_View (devices : list device.MockDevice) (m : Model)
    : option (Model * option device.MockDevice * list Z) :=
  if (width m =? 0) || (height m =? 0) then Some (m, None, [])
  else if showHelp m then Some (m, None, [])
  else
    let bodyHeight := if height m - 2 <? 1 then 1 else height m - 2 in
    let visible := visibleDevices m devices in
    let len := Z.of_nat (length visible) in
    let m := if (0 <? len) && (len <=? selected m)
             then with_selected (len - 1) m else m in
    selectedDevice ←
      (if 0 <? len then d ← index visible (selected m); Some (Some d)
       else Some None);
    Some (m, selectedDevice, renderList_rows len (selected m) bodyHeight).

(** A session: messages and redraws in any order, each finding the devices
    in the states of that moment. *)
Inductive UiStep : Type :=
| Deliver (msg : Msg) (devices : list device.MockDevice)
| Redraw (devices : list device.MockDevice).

Fixpoint run_ui (steps : list UiStep) (m : Model) : option Model :=
  match steps with
  | [] => Some m
  | Deliver msg devices :: rest =>
      match Model_Update msg devices m with
      | Some (m', _) => run_ui rest m'
      | None => None
      end
  | Redraw devices :: rest =>
      match Model_View devices m with
      | Some (m', _, _) => run_ui rest m'
      | None => None
      end
  end.

Definition devices_of (s : UiStep) : list device.MockDevice :=
  match s with Deliver _ devices | Redraw devices => devices end.

(** ** Shortening a text *)

(** [truncate]; lengths are counted in bytes, [None] is the panic of
    [s[:max]] for a negative [max]. *)
Definition truncate (s : string) (max : Z) : option string :=
  if Z.of_nat (String.length s) <=? max then Some s
  else if max <? 3 then
    (if max <? 0 then None else Some (String.substring 0 (Z.to_nat max) s))
  else Some (String.substring 0 (Z.to_nat (max - 3)) s +:+ "...").

(** ** Counters with thousands separators *)

(** [%03d] of [fmt.Sprintf]: the decimal text padded with zeros to width
    three, the sign, if any, before the zeros. *)
Fixpoint zeros (k : nat) : string :=
  match k with O => EmptyString | S k' => String "0" (zeros k') end.

Definition Sprintf_03d (b : Z) : string :=
  if b <? 0 then
    let s := pretty (- b) in "-" +:+ zeros (2 - String.length s) +:+ s
  else
    let s := pretty b in zeros (3 - String.length s) +:+ s.

(** [formatNumber]; [/] and [%] of Go truncate towards zero, [%d] is the
    decimal text. *)
Definition formatNumber (n : Z) : string :=
  if n <? 1000 then pretty n
  else if n <? 1000000 then
    pretty (Z.quot n 1000) +:+ "," +:+ Sprintf_03d (Z.rem n 1000)
  else
    pretty (Z.quot n 1000000) +:+ "," +:+
    Sprintf_03d (Z.rem (Z.quot n 1000) 1000) +:+ "," +:+
    Sprintf_03d (Z.rem n 1000).

(** The text with its commas taken out, and the three last decimal digits
    of a number: what the properties of [formatNumber] are stated with. *)
Fixpoint without_commas (s : string) : string :=
  match s with
  | EmptyString => EmptyString
  | String c rest =>
      if Ascii.eqb c "," then without_commas rest
      else String c (without_commas rest)
  end.

Definition digits3 (b : N) : string :=
  String (pretty_N_char (b / 100 mod 10)%N)
    (String (pretty_N_char (b / 10 mod 10)%N)
       (String (pretty_N_char (b mod 10)%N) EmptyString)).

End tui.

(** * Package cmd: the distribution given on the command line *)

Module cmd.

(** [strings.Split(s, sep)] for a separator of one byte: the pieces
    between the separators, one more than there are separators. *)
Fixpoint Split (sep : ascii) (s : string) : list string :=
  match s with
  | EmptyString => [EmptyString]
  | String c rest =>
      if Ascii.eqb c sep then EmptyString :: Split sep rest
      else
        match Split sep rest with
        | [] => [String c EmptyString]
        | piece :: pieces => String c piece :: pieces
        end
  end.

(** The text before and after the first separator, if there is one. *)
Fixpoint cut (sep : ascii) (s : string) : option (string * string) :=
  match s with
  | EmptyString => None
  | String c rest =>
      if Ascii.eqb c sep then Some (EmptyString, rest)
      else
        match cut sep rest with
        | Some (before, after) => Some (String c before, after)
        | None => None
        end
  end.

(** [strings.SplitN(s, sep, 2)] *)
Definition SplitN2 (sep : ascii) (s : string) : list string :=
  match cut sep s with
  | Some (before, after) => [before; after]
  | None => [s]
  end.

Inductive ParseError : Type :=
| InvalidEntry (part : string)     (* "invalid provider distribution entry
                                       %q (expected key=value)" *)
| InvalidPercentage (key : string) (* "invalid percentage for provider %q" *)
| WrongTotal (total : Z).          (* "provider percentages must sum to 100,
                                       got %d" *)

Section parse.
Variable TrimSpace : string → string.   (* [strings.TrimSpace] *)
Variable Atoi : string → option Z.      (* [strconv.Atoi]; [None]: an error *)

(** The loop over the parts, with the map and the total built so far. *)
Fixpoint parse_parts (parts : list string) (result : gmap string Z)
    (total : Z) : ParseError + (gmap string Z * Z) :=
  match parts with
  | [] => inr (result, total)
  | part :: rest =>
      match SplitN2 "=" (TrimSpace part) with
      | [k; v] =>
          match Atoi (TrimSpace v) with
          | None => inl (InvalidPercentage k)
          | Some pct =>
              parse_parts rest (<[TrimSpace k := pct]> result)
                          (wrap64 (total + pct))
          end
      | _ => inl (InvalidEntry part)
      end
  end.

Definition parseProviderDist (s : string) : ParseError + gmap string Z :=
  match parse_parts (Split "," s) ∅ 0 with
  | inl err => inl err
  | inr (result, total) =>
      if total =? 100 then inr result else inl (WrongTotal total)
  end.

(** ** Helper notions used to state the properties *)

(** The key and the percentage that one part stands for. *)
Definition entry_of (part : string) : option (string * Z) :=
  match cut "=" (TrimSpace part) with
  | Some (k, v) =>
      match Atoi (TrimSpace v) with
      | Some pct => Some (TrimSpace k, pct)
      | None => None
      end
  | None => None
  end.

End parse.

(** ** The entry point *)

(** [strings.Contains] *)
Fixpoint has_prefix (p s : string) : bool :=
  match p, s with
  | EmptyString, _ => true
  | String a p', String b s' => Ascii.eqb a b && has_prefix p' s'
  | String _ _, EmptyString => false
  end.

Fixpoint Contains (s substr : string) : bool :=
  has_prefix substr s
  || match s with
     | EmptyString => false
     | String _ rest => Contains rest substr
     end.

Record Flags : Type := mkFlags {
  flagDevices : Z;
  flagProviders : string;
  flagDuration : string;
  flagForce : bool;
  flagNoMenu : bool
}.

Inductive RunError : Type :=
| EnvRequired (name : string)     (* "%s is required but not set" *)
| InvalidPort                     (* "invalid LOADTEST_MQTT_PORT: %w" *)
| BadProviders (err : ParseError)
| InvalidDuration (text : string) (* "invalid duration %q: %w" *)
| BadConfig (err : runner.NewError).

(** How far [runLoadTest] gets: up to the point where the runner is built
    and the main screen and the devices are started. *)
Inductive Exit : Type :=
| ReturnsError (err : RunError) (* [Execute] prints it, exit status 1 *)
| Refuses                       (* the warning, then [os.Exit(1)] *)
| Cancelled                     (* "Cancelled.", exit status 0 *)
| MenuOpen                      (* the setup menu is waiting for input *)
| Starts (r : runner.Runner)
| Crashes                       (* a panic *)
| NeverReturns.

Section main.
Variable getenv : string → string.             (* [os.Getenv] *)
Variable TrimSpace : string → string.
Variable Atoi : string → option Z.
Variable ParseDuration : string → option Z.    (* [time.ParseDuration] *)
Variable range_order : nat → gmap string Z → list (string * Z).
Variable shuffle : list string → list string.
Variable rnd : nat → nat.
Variable uuid : nat → string.
Variable fuel : nat.

(** [runLoadTest]; [menu] is what the setup menu receives.  A failure of
    the terminal itself ("setup menu error") is not modelled. *)
Definition runLoadTest (flags : Flags) (menu : list tui.Msg) : Exit :=
  let serverURL := getenv "LOADTEST_SERVER_URL" in
  if bool_decide (serverURL = EmptyString)
  then ReturnsError (EnvRequired "LOADTEST_SERVER_URL") else
  let secretKey := getenv "LOADTEST_SECRET_KEY" in
  if bool_decide (secretKey = EmptyString)
  then ReturnsError (EnvRequired "LOADTEST_SECRET_KEY") else
  if negb (Contains serverURL "staging") && negb (flagForce flags)
  then Refuses else
  let mqttHost := getenv "LOADTEST_MQTT_HOST" in
  if bool_decide (mqttHost = EmptyString)
  then ReturnsError (EnvRequired "LOADTEST_MQTT_HOST") else
  match (let v := getenv "LOADTEST_MQTT_PORT" in
         if bool_decide (v = EmptyString) then Some 1883 else Atoi v) with
  | None => ReturnsError InvalidPort
  | Some mqttPort =>
  let mqttUsername :=
    (let v := getenv "LOADTEST_MQTT_USERNAME" in
     if bool_decide (v = EmptyString) then "commutelive" else v) in
  let mqttPassword :=
    (let v := getenv "LOADTEST_MQTT_PASSWORD" in
     if bool_decide (v = EmptyString) then "commutelive" else v) in
  match parseProviderDist TrimSpace Atoi (flagProviders flags) with
  | inl err => ReturnsError (BadProviders err)
  | inr providerDist =>
  let build (devices : Z) (durationStr : string) (providerDist : gmap string Z)
      : Exit :=
    match (if bool_decide (durationStr = EmptyString) then Some 0
           else ParseDuration durationStr) with
    | None => ReturnsError (InvalidDuration durationStr)
    | Some duration =>
        match runner.New range_order shuffle rnd uuid fuel
                (runner.mkConfig serverURL secretKey mqttHost mqttPort
                   mqttUsername mqttPassword devices providerDist duration)
        with
        | Returns (inl err) => ReturnsError (BadConfig err)
        | Returns (inr r) => Starts r
        | Panics => Crashes
        | OutOfFuel => NeverReturns
        end
    end in
  if flagNoMenu flags
  then build (flagDevices flags) (flagDuration flags) providerDist
  else
    match tui.run_setup menu
            (tui.NewSetupModel serverURL (flagDevices flags)
                               (flagDuration flags)) with
    | None => Crashes
    | Some (_, false) => MenuOpen
    | Some (m, true) =>
        let result := tui.Result m in
        if negb (tui.Start result) then Cancelled
        else build (tui.Devices result) (tui.Duration result)
                   (tui.Providers result)
    end
  end
  end.

End main.

(** A reading of decimal numerals without sign, for the examples. *)
Definition digit_of (c : ascii) : option Z :=
  let n := Z.of_N (N_of_ascii c) in
  if (48 <=? n) && (n <=? 57) then Some (n - 48) else None.

Fixpoint digits_value (acc : Z) (s : string) : option Z :=
  match s with
  | EmptyString => Some acc
  | String c rest =>
      match digit_of c with
      | Some d => digits_value (10 * acc + d) rest
      | None => None
      end
  end.

Definition sample_Atoi (s : string) : option Z :=
  match s with
  | EmptyString => None
  | _ => digits_value 0 s
  end.

(** The default of the flag [--providers]. *)
Definition default_providers : string := "cta=25,mta=25,mbta=25,septa=25".

End cmd.

(** * Properties

    From here on the file contains statements and proofs only. *)

(** ** Machine arithmetic and counting *)

Lemma wrap64_id z : int64_range z → wrap64 z = z.
Proof.
  unfold int64_range, wrap64. intros Hz.
  rewrite Z.mod_small; lia.
Qed.

Lemma wrap64_range z : int64_range (wrap64 z).
Proof.
  unfold int64_range, wrap64.
  pose proof (Z.mod_pos_bound (z + 2 ^ 63) (2 ^ 64)). lia.
Qed.

Lemma sum_Z_app l1 l2 : sum_Z (l1 ++ l2) = sum_Z l1 + sum_Z l2.
Proof. induction l1 as [|x l1 IH]; simpl; lia. Qed.

Lemma sum_Z_perm l1 l2 : l1 ≡ₚ l2 → sum_Z l1 = sum_Z l2.
Proof. induction 1; simpl; lia. Qed.

Lemma sum_Z_elem_le x l :
  (∀ y, y ∈ l → 0 ≤ y) → x ∈ l → x ≤ sum_Z l.
Proof.
  induction l as [|y l IH]; intros Hpos Hx; [by apply elem_of_nil in Hx|].
  assert (Hpos' : ∀ z, z ∈ l → 0 ≤ z)
    by (intros; by apply Hpos, list_elem_of_further).
  assert (0 ≤ sum_Z l).
  { clear -Hpos'. induction l as [|z l IH]; simpl; [lia|].
    assert (0 ≤ z) by apply Hpos', list_elem_of_here.
    assert (0 ≤ sum_Z l)
      by (apply IH; intros; by apply Hpos', list_elem_of_further).
    lia. }
  assert (0 ≤ y) by apply Hpos, list_elem_of_here.
  apply elem_of_cons in Hx as [->|Hx]; simpl; [lia|].
  specialize (IH Hpos' Hx). lia.
Qed.

Lemma occurrences_nil k : occurrences k [] = 0%nat.
Proof. done. Qed.

Lemma occurrences_cons k x l :
  occurrences k (x :: l) =
  ((if decide (x = k) then 1 else 0) + occurrences k l)%nat.
Proof.
  unfold occurrences. rewrite filter_cons. by case_decide.
Qed.

Lemma occurrences_app k l1 l2 :
  occurrences k (l1 ++ l2) = (occurrences k l1 + occurrences k l2)%nat.
Proof. unfold occurrences. by rewrite filter_app, length_app. Qed.

Lemma occurrences_perm k l1 l2 :
  l1 ≡ₚ l2 → occurrences k l1 = occurrences k l2.
Proof. unfold occurrences. by intros ->. Qed.

Lemma occurrences_replicate k c x :
  occurrences k (replicate c x) = if decide (x = k) then c else 0%nat.
Proof.
  induction c as [|c IH]; simpl; [by case_decide|].
  rewrite occurrences_cons, IH. by case_decide.
Qed.

Lemma occurrences_not_elem k l : k ∉ l → occurrences k l = 0%nat.
Proof.
  induction l as [|x l IH]; intros Hk; [done|].
  apply not_elem_of_cons in Hk as [Hne Hk].
  rewrite occurrences_cons, IH by done.
  case_decide; [congruence|done].
Qed.

Lemma occurrences_NoDup k l : NoDup l → (occurrences k l ≤ 1)%nat.
Proof.
  induction 1 as [|x l Hx Hnd IH]; [rewrite occurrences_nil; lia|].
  rewrite occurrences_cons. case_decide; [|lia].
  subst. rewrite occurrences_not_elem by done. lia.
Qed.

Lemma occurrences_elem k l : k ∈ l → (1 ≤ occurrences k l)%nat.
Proof.
  induction l as [|x l IH]; intros Hk; [by apply elem_of_nil in Hk|].
  rewrite occurrences_cons. case_decide; [lia|].
  apply elem_of_cons in Hk as [->|Hk]; [done|]. specialize (IH Hk). lia.
Qed.

Lemma sum_list_fmap_add {A} (f g : A → nat) (l : list A) :
  sum_list ((λ k, f k + g k)%nat <$> l)
  = (sum_list (f <$> l) + sum_list (g <$> l))%nat.
Proof. induction l as [|a l IH]; [done|]. rewrite !fmap_cons. simpl. lia. Qed.

Lemma sum_list_indicator (x : string) (keys : list string) :
  NoDup keys → x ∈ keys →
  sum_list ((λ k, if decide (x = k) then 1 else 0)%nat <$> keys) = 1%nat.
Proof.
  induction 1 as [|k keys Hk Hnd IH]; intros Hx; [by apply elem_of_nil in Hx|].
  rewrite fmap_cons. simpl. apply elem_of_cons in Hx as [->|Hx].
  - rewrite decide_True by done. f_equal.
    clear -Hk. induction keys as [|a keys IH]; [done|].
    apply not_elem_of_cons in Hk as [Hne Hk].
    rewrite fmap_cons. simpl. rewrite decide_False by done.
    by apply IH.
  - rewrite decide_False by (intros ->; done). by apply IH.
Qed.

(** Summing the occurrences of pairwise distinct keys that cover a
    sequence counts every element once. *)
Lemma occurrences_total (keys l : list string) :
  NoDup keys → (∀ x, x ∈ l → x ∈ keys) →
  sum_list ((λ k, occurrences k l) <$> keys) = length l.
Proof.
  intros Hnd. induction l as [|x l IH]; intros Hin.
  - clear. induction keys as [|a keys IH]; [done|].
    rewrite fmap_cons. simpl in *. lia.
  - assert (Hx : x ∈ keys) by apply Hin, list_elem_of_here.
    assert (Hl : ∀ y, y ∈ l → y ∈ keys)
      by (intros; by apply Hin, list_elem_of_further).
    specialize (IH Hl).
    rewrite (list_fmap_ext (λ k, occurrences k (x :: l))
      (λ k, (if decide (x = k) then 1 else 0) + occurrences k l)%nat keys)
      by (intros; apply occurrences_cons).
    rewrite sum_list_fmap_add, IH, sum_list_indicator by done.
    simpl. lia.
Qed.

(** * Workload distributor *)

Module ProvidersSpec.
Import providers.

Lemma weighted_base_bind n es : weighted_base n es = es ≫= expand n.
Proof.
  unfold weighted_base.
  enough (H : ∀ acc, foldl (λ w e, w ++ expand n e) acc es
                   = acc ++ (es ≫= expand n)) by apply H.
  induction es as [|e es IH]; intros acc; simpl.
  - by rewrite app_nil_r.
  - rewrite IH. by rewrite <- app_assoc.
Qed.

Lemma count_for_floor n p :
  0 ≤ n → 100 * n < 2 ^ 63 → 0 ≤ p ≤ 100 → count_for n p = p * n / 100.
Proof.
  intros Hn Hb Hp. unfold count_for.
  rewrite wrap64_id by (unfold int64_range; nia).
  apply Z.quot_div_nonneg; nia.
Qed.

Lemma floor_bounds n p :
  0 ≤ n → 0 ≤ p →
  0 ≤ p * n / 100 ∧ 100 * (p * n / 100) ≤ p * n ≤ 100 * (p * n / 100) + 99.
Proof.
  intros Hn Hp. assert (0 ≤ p * n) by nia.
  generalize dependent (p * n). intros x Hx.
  pose proof (Z.div_mod x 100). pose proof (Z.mod_pos_bound x 100).
  assert (0 ≤ x / 100) by (apply Z.div_pos; lia). lia.
Qed.

Section entries.
Variable n : Z.
Hypothesis n_nonneg : 0 ≤ n.
Hypothesis n_small : 100 * n < 2 ^ 63.

Lemma percentages_cons e es :
  percentages (e :: es) → 0 ≤ e.2 ≤ 100 ∧ percentages es.
Proof.
  intros H. split; [apply H, list_elem_of_here|].
  intros e' He'. by apply H, list_elem_of_further.
Qed.

Lemma length_base es :
  percentages es → Z.of_nat (length (es ≫= expand n)) = floors n es.
Proof.
  induction es as [|e es IH]; intros Hp; [done|].
  apply percentages_cons in Hp as [He Hp].
  rewrite bind_cons, length_app. unfold expand at 1.
  rewrite length_replicate, count_for_floor by done.
  unfold floors in *. rewrite fmap_cons. simpl.
  pose proof (floor_bounds n e.2 n_nonneg (proj1 He)).
  rewrite <- IH by done. lia.
Qed.

Lemma floors_bounds es :
  percentages es →
  100 * floors n es ≤ n * sum_Z es.*2
  ∧ n * sum_Z es.*2 ≤ 100 * floors n es + 99 * Z.of_nat (length es).
Proof.
  induction es as [|e es IH]; intros Hp.
  - unfold floors. simpl. lia.
  - apply percentages_cons in Hp as [He Hp]. specialize (IH Hp).
    pose proof (floor_bounds n e.2 n_nonneg (proj1 He)).
    unfold floors in *. rewrite !fmap_cons. simpl length. simpl sum_Z.
    lia.
Qed.

Lemma occurrences_base_elem es k p :
  percentages es → NoDup es.*1 → (k, p) ∈ es →
  Z.of_nat (occurrences k (es ≫= expand n)) = p * n / 100.
Proof.
  induction es as [|e es IH]; intros Hp Hnd Hk;
    [by apply elem_of_nil in Hk|].
  apply percentages_cons in Hp as [He Hp].
  rewrite fmap_cons in Hnd. apply NoDup_cons in Hnd as [Hfresh Hnd].
  rewrite bind_cons, occurrences_app. unfold expand at 1.
  rewrite occurrences_replicate.
  pose proof (floor_bounds n e.2 n_nonneg (proj1 He)).
  apply elem_of_cons in Hk as [<-|Hk].
  - simpl in *. rewrite decide_True by done.
    rewrite count_for_floor by done.
    assert (Hz : occurrences k (es ≫= expand n) = 0%nat).
    { apply occurrences_not_elem. intros Hin.
      apply list_elem_of_bind in Hin as (e' & Hin & He').
      unfold expand in Hin. apply elem_of_replicate in Hin as [-> _].
      apply Hfresh. by apply list_elem_of_fmap_2. }
    rewrite Hz. lia.
  - rewrite decide_False.
    + rewrite Nat.add_0_l. by apply IH.
    + intros Heq. apply Hfresh. rewrite Heq.
      by apply (list_elem_of_fmap_2 fst es (k, p)).
Qed.

Lemma elem_of_base es k :
  k ∈ es ≫= expand n → k ∈ es.*1.
Proof.
  intros Hin. apply list_elem_of_bind in Hin as (e & Hin & He).
  unfold expand in Hin. apply elem_of_replicate in Hin as [-> _].
  by apply list_elem_of_fmap_2.
Qed.
End entries.

(** One pass of the filler appends a prefix of the enumeration that is
    exactly as long as the shortfall, when the enumeration is long enough. *)
Lemma fill_pass_prefix n keys w :
  Z.of_nat (length w) < n ≤ Z.of_nat (length w) + Z.of_nat (length keys) →
  fill_pass n keys w = w ++ take (Z.to_nat (n - Z.of_nat (length w))) keys.
Proof.
  revert w. induction keys as [|k keys IH]; intros w Hlen; simpl in *; [lia|].
  rewrite length_app. simpl length.
  destruct (Z.leb_spec n (Z.of_nat (length w + 1))) as [Hle|Hgt].
  - replace (Z.to_nat (n - Z.of_nat (length w))) with 1%nat by lia. done.
  - rewrite IH by (rewrite length_app; simpl; lia).
    rewrite length_app. simpl length.
    replace (Z.to_nat (n - Z.of_nat (length w)))
      with (S (Z.to_nat (n - Z.of_nat (length w + 1)))) by lia.
    simpl. by rewrite <- app_assoc.
Qed.

(** Facts about any enumeration of a valid percentage mapping. *)
Section valid_dist.
Variables (n : Z) (dist : gmap string Z).
Hypothesis n_nonneg : 0 ≤ n.
Hypothesis n_small : 100 * n < 2 ^ 63.
Hypothesis pct_nonneg : ∀ k p, dist !! k = Some p → 0 ≤ p.
Hypothesis sums_to_100 : dist_sum dist = 100.

Variable es : list (string * Z).
Hypothesis es_perm : es ≡ₚ map_to_list dist.

Lemma enum_sum : sum_Z es.*2 = 100.
Proof.
  rewrite <- sums_to_100. unfold dist_sum.
  apply sum_Z_perm. by rewrite es_perm.
Qed.

Lemma enum_lookup e : e ∈ es → dist !! e.1 = Some e.2.
Proof.
  rewrite es_perm. destruct e as [k p]. apply elem_of_map_to_list.
Qed.

Lemma enum_percentages : percentages es.
Proof.
  intros e He.
  assert (Hpos : ∀ y, y ∈ es.*2 → 0 ≤ y).
  { intros y Hy. apply list_elem_of_fmap in Hy as (e' & -> & He').
    eapply pct_nonneg, enum_lookup, He'. }
  split.
  - apply Hpos. by apply list_elem_of_fmap_2.
  - rewrite <- enum_sum. apply sum_Z_elem_le; [done|].
    by apply list_elem_of_fmap_2.
Qed.

Lemma enum_NoDup : NoDup es.*1.
Proof. rewrite es_perm. apply NoDup_fst_map_to_list. Qed.

Lemma enum_keys : es.*1 ≡ₚ dist_keys dist.
Proof. unfold dist_keys. by rewrite es_perm. Qed.

Lemma enum_length : length es = length (dist_keys dist).
Proof. unfold dist_keys. by rewrite es_perm, length_fmap. Qed.

(** The rounded-down shares never exceed [n], and fall short of it by
    at most the number of categories. *)
Lemma shortfall_bounds :
  0 ≤ n - floors n es ≤ Z.of_nat (length es).
Proof.
  pose proof (floors_bounds n n_nonneg es enum_percentages) as [H1 H2].
  rewrite enum_sum in H1, H2. lia.
Qed.
End valid_dist.

Lemma fill_done range_order fuel n dist pass w :
  n ≤ Z.of_nat (length w) → fill range_order fuel n dist pass w = Some w.
Proof.
  intros Hlen. destruct fuel; simpl;
    destruct (Z.ltb_spec (Z.of_nat (length w)) n); done || lia.
Qed.

Section run.
Variable range_order : nat → gmap string Z → list (string * Z).
Variable shuffle : list string → list string.
Hypothesis range_perm : ∀ j m, range_order j m ≡ₚ map_to_list m.
Hypothesis shuffle_perm : ∀ l, shuffle l ≡ₚ l.

Variables (n : Z) (dist : gmap string Z).
Hypothesis n_nonneg : 0 ≤ n.
Hypothesis n_small : 100 * n < 2 ^ 63.
Hypothesis pct_nonneg : ∀ k p, dist !! k = Some p → 0 ≤ p.
Hypothesis sums_to_100 : dist_sum dist = 100.

Lemma length_filled : Z.of_nat (length (filled range_order n dist)) = n.
Proof.
  unfold filled. rewrite length_app.
  pose proof (enum_percentages dist pct_nonneg sums_to_100 _ (range_perm 0%nat dist)) as Hp.
  pose proof (length_base n n_nonneg n_small _ Hp) as Hb.
  pose proof (shortfall_bounds n dist n_nonneg pct_nonneg sums_to_100 _
                (range_perm 0%nat dist)) as Hs.
  pose proof (enum_length dist _ (range_perm 0%nat dist)) as H0.
  pose proof (enum_length dist _ (range_perm 1%nat dist)) as H1.
  rewrite length_take_le by (rewrite length_fmap; lia). lia.
Qed.

(** The filler needs a single pass: any positive fuel is enough. *)
Lemma fill_returns fuel :
  (1 ≤ fuel)%nat →
  fill range_order fuel n dist 1 (weighted_base n (range_order 0%nat dist))
  = Some (filled range_order n dist).
Proof.
  intros Hfuel. pose proof length_filled as Hlen. unfold filled in *.
  rewrite weighted_base_bind.
  set (base := range_order 0%nat dist ≫= expand n) in *.
  pose proof (enum_percentages dist pct_nonneg sums_to_100 _ (range_perm 0%nat dist)) as Hp.
  pose proof (length_base n n_nonneg n_small _ Hp) as Hb. fold base in Hb.
  pose proof (shortfall_bounds n dist n_nonneg pct_nonneg sums_to_100 _
                (range_perm 0%nat dist)) as Hs.
  pose proof (enum_length dist _ (range_perm 0%nat dist)) as H0.
  pose proof (enum_length dist _ (range_perm 1%nat dist)) as H1.
  destruct (Z.ltb_spec (Z.of_nat (length base)) n) as [Hlt|Hge].
  - destruct fuel as [|fuel]; [lia|]. simpl.
    destruct (Z.ltb_spec (Z.of_nat (length base)) n); [|lia].
    rewrite fill_pass_prefix by (rewrite length_fmap; lia).
    rewrite Hb. apply fill_done. lia.
  - replace (Z.to_nat (n - floors n (range_order 0%nat dist))) with 0%nat by lia.
    simpl. rewrite app_nil_r. apply fill_done. lia.
Qed.

Lemma AssignProviders_returns fuel :
  (1 ≤ fuel)%nat →
  AssignProviders range_order shuffle fuel n dist
  = Returns (shuffle (filled range_order n dist)).
Proof.
  intros Hfuel. unfold AssignProviders.
  destruct (Z.ltb_spec n 0); [lia|].
  rewrite fill_returns by done.
  pose proof length_filled as Hlen.
  assert (Hsh : length (shuffle (filled range_order n dist))
                = length (filled range_order n dist))
    by (by rewrite shuffle_perm).
  destruct (Z.ltb_spec (Z.of_nat (length (shuffle (filled range_order n dist)))) n);
    [lia|].
  f_equal. apply take_ge. lia.
Qed.

Lemma occurrences_filled k p :
  dist !! k = Some p →
  ∃ extra : nat,
    Z.of_nat (occurrences k (filled range_order n dist))
    = p * n / 100 + Z.of_nat extra
    ∧ (extra ≤ 1)%nat
    ∧ (n = floors n (range_order 0%nat dist) → extra = 0%nat).
Proof.
  intros Hk. unfold filled. rewrite occurrences_app.
  pose proof (enum_percentages dist pct_nonneg sums_to_100 _ (range_perm 0%nat dist)) as Hp.
  pose proof (enum_NoDup dist _ (range_perm 0%nat dist)) as Hnd0.
  pose proof (enum_NoDup dist _ (range_perm 1%nat dist)) as Hnd1.
  assert (Hin : (k, p) ∈ range_order 0%nat dist)
    by (rewrite range_perm; by apply elem_of_map_to_list).
  pose proof (occurrences_base_elem n n_nonneg n_small _ k p Hp Hnd0 Hin) as Hocc.
  eexists. split; [rewrite Nat2Z.inj_add, Hocc; reflexivity|]. split.
  - apply occurrences_NoDup. eapply sublist_NoDup; [exact Hnd1|apply sublist_take].
  - intros Heq.
    replace (Z.to_nat (n - floors n (range_order 0%nat dist))) with 0%nat
      by lia.
    done.
Qed.

Lemma elem_of_filled k : k ∈ filled range_order n dist → k ∈ dist_keys dist.
Proof.
  unfold filled. intros [Hk|Hk]%elem_of_app.
  - apply elem_of_base in Hk.
    by rewrite (enum_keys dist _ (range_perm 0%nat dist)) in Hk.
  - apply elem_of_take in Hk as (i & Hi & _).
    apply list_elem_of_lookup_2 in Hi.
    by rewrite (enum_keys dist _ (range_perm 1%nat dist)) in Hi.
Qed.
End run.

Lemma floors_exact n es :
  (∀ e, e ∈ es → (e.2 * n) mod 100 = 0) →
  100 * floors n es = n * sum_Z es.*2.
Proof.
  induction es as [|e es IH]; intros Hdiv; unfold floors in *; [simpl; lia|].
  rewrite !fmap_cons. simpl sum_Z.
  assert (He : (e.2 * n) mod 100 = 0) by apply Hdiv, list_elem_of_here.
  assert (IH' : 100 * sum_Z ((λ e, e.2 * n / 100) <$> es) = n * sum_Z es.*2)
    by (apply IH; intros; by apply Hdiv, list_elem_of_further).
  pose proof (Z.div_mod (e.2 * n) 100). lia.
Qed.

(** A few runs of the model. *)

Example AssignProviders_two_of_each :
  AssignProviders (λ _ m, map_to_list m) id 1 4
    (<["mta" := 50]> (<["cta" := 50]> ∅))
  = Returns ["cta"; "cta"; "mta"; "mta"].
Proof. vm_compute. reflexivity. Qed.

(** With an empty mapping and a positive count the filler never ends. *)
Example AssignProviders_empty_map :
  AssignProviders (λ _ m, map_to_list m) id 1000 3 ∅ = OutOfFuel.
Proof. vm_compute. reflexivity. Qed.

Example AssignProviders_negative_count :
  AssignProviders (λ _ m, map_to_list m) id 1 (-1)
    (<["mta" := 100]> ∅) = Panics.
Proof. vm_compute. reflexivity. Qed.

(** Outside the percentages: an entry above 100 balanced by a negative one
    also sums to 100; the slice is then cut down to [n], below the
    rounded-down share of 15. *)
Example AssignProviders_share_above_total :
  AssignProviders (λ _ m, map_to_list m) id 1 10
    (<["mta" := 150]> (<["cta" := -50]> ∅))
  = Returns (replicate 10 "mta").
Proof. vm_compute. reflexivity. Qed.

Example PickStop_known : (PickStop 3 "mta").2 = true.
Proof. vm_compute. reflexivity. Qed.

Example PickStop_unknown : PickStop 3 "lirr" = (zeroStop, false).
Proof. vm_compute. reflexivity. Qed.

(** C2: for a device count [n] and a mapping of non-negative percentages
    that sum to 100, [AssignProviders] returns (one pass of the filler is
    enough, so any positive fuel) exactly [n] assignments; every category
    occurs at least [floor(pct * n / 100)] times; the per-category counts
    add up to [n]; every assigned key is a key of the mapping.  This holds
    for every enumeration order of the map and every shuffle. *)
Theorem AssignProviders_distribution
    (range_order : nat → gmap string Z → list (string * Z))
    (shuffle : list string → list string)
    (fuel : nat) (n : Z) (dist : gmap string Z) :
  (∀ j m, range_order j m ≡ₚ map_to_list m) →
  (∀ l, shuffle l ≡ₚ l) →
  (1 ≤ fuel)%nat →
  0 ≤ n → 100 * n < 2 ^ 63 →
  (∀ k p, dist !! k = Some p → 0 ≤ p) →
  dist_sum dist = 100 →
  ∃ res,
    AssignProviders range_order shuffle fuel n dist = Returns res
    ∧ Z.of_nat (length res) = n
    ∧ (∀ k p, dist !! k = Some p → p * n / 100 ≤ Z.of_nat (occurrences k res))
    ∧ Z.of_nat (sum_list ((λ k, occurrences k res) <$> dist_keys dist)) = n
    ∧ (∀ k, k ∈ res → k ∈ dom dist).
Proof.
  intros Hro Hsh Hfuel Hn Hsmall Hpos Hsum.
  exists (shuffle (filled range_order n dist)).
  pose proof (length_filled range_order Hro n dist Hn Hsmall Hpos Hsum) as Hlen.
  assert (Hmem : ∀ k, k ∈ shuffle (filled range_order n dist) → k ∈ dist_keys dist).
  { intros k. rewrite Hsh. by apply elem_of_filled. }
  split; [by apply AssignProviders_returns|].
  split; [by rewrite Hsh|]. split; [|split].
  - intros k p Hk. rewrite (occurrences_perm k _ _ (Hsh _)).
    destruct (occurrences_filled range_order Hro n dist Hn Hsmall Hpos Hsum k p Hk)
      as (extra & -> & _). lia.
  - rewrite occurrences_total; [by rewrite Hsh| |done].
    apply NoDup_fst_map_to_list.
  - intros k Hk. apply Hmem in Hk. unfold dist_keys in Hk.
    apply list_elem_of_fmap in Hk as ([k' p] & -> & Hk).
    apply elem_of_map_to_list in Hk. apply elem_of_dom. by exists p.
Qed.

(** Three devices over two categories of 50 percent each. *)
Lemma AssignProviders_distribution_witness :
  ∃ res,
    AssignProviders (λ _ m, map_to_list m) id 1 3
      (<["a" := 50]> (<["b" := 50]> ∅)) = Returns res
    ∧ Z.of_nat (length res) = 3
    ∧ (∀ k p, (<["a" := 50]> (<["b" := 50]> ∅) : gmap string Z) !! k = Some p →
         p * 3 / 100 ≤ Z.of_nat (occurrences k res))
    ∧ Z.of_nat (sum_list ((λ k, occurrences k res)
         <$> dist_keys (<["a" := 50]> (<["b" := 50]> ∅)))) = 3
    ∧ (∀ k, k ∈ res → k ∈ dom (<["a" := 50]> (<["b" := 50]> ∅) : gmap string Z)).
Proof.
  apply AssignProviders_distribution.
  - intros; reflexivity.
  - intros; reflexivity.
  - lia.
  - lia.
  - lia.
  - intros k p Hk. apply elem_of_map_to_list in Hk.
    vm_compute in Hk.
    repeat (apply elem_of_cons in Hk as [Hk|Hk]; [injection Hk as -> ->; lia|]).
    by apply elem_of_nil in Hk.
  - reflexivity.
Defined.

Lemma occurrences_pos_elem k l : (1 ≤ occurrences k l)%nat → k ∈ l.
Proof.
  intros H. destruct (decide (k ∈ l)) as [|Hn]; [done|].
  rewrite occurrences_not_elem in H by done. lia.
Qed.

(** A category whose rounded-down share is at least one device is
    assigned, whatever the orders. *)
Lemma share_assigned
    (range_order : nat → gmap string Z → list (string * Z))
    (shuffle : list string → list string)
    (fuel : nat) (n : Z) (dist : gmap string Z) (k : string) (p : Z) :
  (∀ j m, range_order j m ≡ₚ map_to_list m) →
  (∀ l, shuffle l ≡ₚ l) →
  (1 ≤ fuel)%nat →
  0 ≤ n → 100 * n < 2 ^ 63 →
  (∀ k p, dist !! k = Some p → 0 ≤ p) →
  dist_sum dist = 100 →
  dist !! k = Some p → 1 ≤ p * n / 100 →
  ∃ res, AssignProviders range_order shuffle fuel n dist = Returns res
    ∧ k ∈ res
    ∧ ∀ k', k' ∈ res → k' ∈ dom dist.
Proof.
  intros Hro Hsh Hfuel Hn Hsmall Hpos Hsum Hk Hshare.
  exists (shuffle (filled range_order n dist)).
  split; [by apply AssignProviders_returns|]. split.
  - rewrite Hsh. apply occurrences_pos_elem.
    destruct (occurrences_filled range_order Hro n dist Hn Hsmall Hpos Hsum
                k p Hk) as (extra & Hocc & _).
    lia.
  - intros k' Hk'. rewrite Hsh in Hk'.
    apply (elem_of_filled range_order Hro) in Hk'.
    unfold dist_keys in Hk'.
    apply list_elem_of_fmap in Hk' as ([k0 p0] & -> & Hin).
    apply elem_of_map_to_list in Hin. apply elem_of_dom. by exists p0.
Qed.

(** C9, as stated, fails: with percentages 50/50 and three devices the
    third slot goes to whichever key the filler's [range] enumerates first,
    so one run yields two "a" and another run yields one. *)
Lemma AssignProviders_counts_differ :
  ¬ (∀ (ro1 ro2 : nat → gmap string Z → list (string * Z))
       (sh1 sh2 : list string → list string)
       (fuel : nat) (n : Z) (dist : gmap string Z) (r1 r2 : list string),
       (∀ j m, ro1 j m ≡ₚ map_to_list m) →
       (∀ j m, ro2 j m ≡ₚ map_to_list m) →
       (∀ l, sh1 l ≡ₚ l) → (∀ l, sh2 l ≡ₚ l) →
       0 ≤ n → 100 * n < 2 ^ 63 →
       (∀ k p, dist !! k = Some p → 0 ≤ p) →
       dist_sum dist = 100 →
       AssignProviders ro1 sh1 fuel n dist = Returns r1 →
       AssignProviders ro2 sh2 fuel n dist = Returns r2 →
       ∀ k, occurrences k r1 = occurrences k r2).
Proof.
  intros H.
  specialize (H (λ _ m, map_to_list m) (λ _ m, reverse (map_to_list m))
                id id 1%nat 3 (<["a" := 50]> (<["b" := 50]> ∅))
                ["a"; "b"; "a"] ["b"; "a"; "b"]).
  assert (Hocc : occurrences "a" ["a"; "b"; "a"]
                 = occurrences "a" ["b"; "a"; "b"]).
  { apply H; try reflexivity; try lia; try (intros; reflexivity).
    - intros. apply reverse_Permutation.
    - intros k p Hk. apply elem_of_map_to_list in Hk. vm_compute in Hk.
      repeat (apply elem_of_cons in Hk as [Hk|Hk];
              [injection Hk as -> ->; lia|]).
      by apply elem_of_nil in Hk. }
  vm_compute in Hocc. discriminate.
Qed.

(** C9, amended: two runs on the same valid input both return, and for
    every category each run assigns the rounded-down share or one more, so
    the two counts differ by at most one; when 100 divides every
    [pct * n] the counts of the two runs are equal. *)
Theorem AssignProviders_counts_two_runs
    (ro1 ro2 : nat → gmap string Z → list (string * Z))
    (sh1 sh2 : list string → list string)
    (fuel1 fuel2 : nat) (n : Z) (dist : gmap string Z) :
  (∀ j m, ro1 j m ≡ₚ map_to_list m) →
  (∀ j m, ro2 j m ≡ₚ map_to_list m) →
  (∀ l, sh1 l ≡ₚ l) → (∀ l, sh2 l ≡ₚ l) →
  (1 ≤ fuel1)%nat → (1 ≤ fuel2)%nat →
  0 ≤ n → 100 * n < 2 ^ 63 →
  (∀ k p, dist !! k = Some p → 0 ≤ p) →
  dist_sum dist = 100 →
  ∃ r1 r2,
    AssignProviders ro1 sh1 fuel1 n dist = Returns r1
    ∧ AssignProviders ro2 sh2 fuel2 n dist = Returns r2
    ∧ (∀ k p, dist !! k = Some p →
         p * n / 100 ≤ Z.of_nat (occurrences k r1) ≤ p * n / 100 + 1
         ∧ p * n / 100 ≤ Z.of_nat (occurrences k r2) ≤ p * n / 100 + 1)
    ∧ ((∀ k p, dist !! k = Some p → (p * n) mod 100 = 0) →
         ∀ k, occurrences k r1 = occurrences k r2).
Proof.
  intros Hro1 Hro2 Hsh1 Hsh2 Hf1 Hf2 Hn Hsmall Hpos Hsum.
  exists (sh1 (filled ro1 n dist)), (sh2 (filled ro2 n dist)).
  split; [by apply AssignProviders_returns|].
  split; [by apply AssignProviders_returns|].
  split.
  - intros k p Hk.
    rewrite (occurrences_perm k _ _ (Hsh1 _)), (occurrences_perm k _ _ (Hsh2 _)).
    destruct (occurrences_filled ro1 Hro1 n dist Hn Hsmall Hpos Hsum k p Hk)
      as (x1 & -> & Hx1 & _).
    destruct (occurrences_filled ro2 Hro2 n dist Hn Hsmall Hpos Hsum k p Hk)
      as (x2 & -> & Hx2 & _).
    lia.
  - intros Hdiv k.
    rewrite (occurrences_perm k _ _ (Hsh1 _)), (occurrences_perm k _ _ (Hsh2 _)).
    assert (Hfl : ∀ ro, (∀ j m, ro j m ≡ₚ map_to_list m) →
                        n = floors n (ro 0%nat dist)).
    { intros ro Hro.
      pose proof (floors_exact n (ro 0%nat dist)) as Hex.
      rewrite (enum_sum dist Hsum _ (Hro 0%nat dist)) in Hex.
      enough (100 * floors n (ro 0%nat dist) = n * 100) by lia.
      apply Hex. intros e He.
      apply (Hdiv e.1 e.2), (enum_lookup dist _ (Hro 0%nat dist)), He. }
    destruct (dist !! k) as [p|] eqn:Hk.
    + destruct (occurrences_filled ro1 Hro1 n dist Hn Hsmall Hpos Hsum k p Hk)
        as (x1 & E1 & _ & Hz1).
      destruct (occurrences_filled ro2 Hro2 n dist Hn Hsmall Hpos Hsum k p Hk)
        as (x2 & E2 & _ & Hz2).
      rewrite (Hz1 (Hfl ro1 Hro1)) in E1. rewrite (Hz2 (Hfl ro2 Hro2)) in E2.
      lia.
    + assert (Hnot : ∀ ro, (∀ j m, ro j m ≡ₚ map_to_list m) →
                           k ∉ filled ro n dist).
      { intros ro Hro Hin.
        apply (elem_of_filled ro Hro) in Hin. unfold dist_keys in Hin.
        apply list_elem_of_fmap in Hin as ([k' p] & -> & Hin).
        apply elem_of_map_to_list in Hin. simpl in Hk. congruence. }
      by rewrite !occurrences_not_elem by auto.
Qed.

(** Four devices over two categories of 50 percent each, enumerated and
    shuffled differently by the two runs. *)
Lemma AssignProviders_counts_two_runs_witness :
  ∃ r1 r2,
    AssignProviders (λ _ m, map_to_list m) id 1 4
      (<["a" := 50]> (<["b" := 50]> ∅)) = Returns r1
    ∧ AssignProviders (λ _ m, reverse (map_to_list m)) reverse 2 4
      (<["a" := 50]> (<["b" := 50]> ∅)) = Returns r2
    ∧ (∀ k p, (<["a" := 50]> (<["b" := 50]> ∅) : gmap string Z) !! k = Some p →
         p * 4 / 100 ≤ Z.of_nat (occurrences k r1) ≤ p * 4 / 100 + 1
         ∧ p * 4 / 100 ≤ Z.of_nat (occurrences k r2) ≤ p * 4 / 100 + 1)
    ∧ ((∀ k p, (<["a" := 50]> (<["b" := 50]> ∅) : gmap string Z) !! k = Some p →
          (p * 4) mod 100 = 0) →
         ∀ k, occurrences k r1 = occurrences k r2).
Proof.
  apply AssignProviders_counts_two_runs.
  - intros; reflexivity.
  - intros; apply reverse_Permutation.
  - intros; reflexivity.
  - intros; apply reverse_Permutation.
  - lia.
  - lia.
  - lia.
  - lia.
  - intros k p Hk. apply elem_of_map_to_list in Hk.
    vm_compute in Hk.
    repeat (apply elem_of_cons in Hk as [Hk|Hk]; [injection Hk as -> ->; lia|]).
    by apply elem_of_nil in Hk.
  - reflexivity.
Defined.

End ProvidersSpec.

(** * Device lifecycle *)

Module DeviceSpec.
Import device.

Lemma frame_refl w : frame [] w w.
Proof.
  split; try done; [by rewrite app_nil_r| |];
    exists []; by rewrite app_nil_r.
Qed.

Lemma frame_trans n1 n2 w1 w2 w3 :
  frame n1 w1 w2 → frame n2 w2 w3 → frame (n1 ++ n2) w1 w3.
Proof.
  intros [E1 X1 S1 D1 I1 (h1 & H1 & F1) (o1 & O1 & G1)]
         [E2 X2 S2 D2 I2 (h2 & H2 & F2) (o2 & O2 & G2)].
  split; try congruence.
  - rewrite X2, X1. by rewrite app_assoc.
  - exists (h1 ++ h2). split; [rewrite H2, H1; by rewrite app_assoc|].
    by apply Forall_app.
  - exists (o1 ++ o2). split; [rewrite O2, O1; by rewrite app_assoc|].
    by apply Forall_app.
Qed.

Lemma frame_note_step name w : frame [name] w (note_step name w).
Proof. split; try done; exists []; by rewrite app_nil_r. Qed.

Lemma frame_setState s w :
  onboarding_state s = true → frame [] w (setState s w).
Proof.
  intros Hs. split; try done; simpl.
  - by rewrite app_nil_r.
  - exists [s]. split; [done|]. by constructor.
  - exists []. by rewrite app_nil_r.
Qed.

Lemma frame_doWithTimeout env method path t w :
  String.eqb path "/auth/logout" = false →
  frame [] w (doWithTimeout env method path t w).2.
Proof.
  intros Hp. unfold doWithTimeout.
  destruct (http_result env (requests w)); simpl;
    (split; simpl; try done;
     [by rewrite app_nil_r
     |exists []; by rewrite app_nil_r
     |exists [BackendCall method path t]; split; [done|];
      constructor; [exact Hp|constructor]]).
Qed.

Lemma frame_expect names what accepted w r :
  frame names w r.2 → frame names w (expect what accepted r).2.
Proof.
  destruct r as [[status [err|]] w']; simpl; [done|].
  by case_bool_decide.
Qed.

Ltac frame_request :=
  apply frame_expect;
  first [ apply frame_doWithTimeout; reflexivity
        | eapply (frame_trans [] []);
          [|apply frame_doWithTimeout; reflexivity];
          apply frame_setState; reflexivity ].

Lemma framed_steps : Forall framed steps.
Proof.
  unfold steps. repeat apply Forall_cons_2; try apply Forall_nil_2;
    intros env w; simpl.
  - unfold registerDevice, do. frame_request.
  - unfold registerUser, do. frame_request.
  - unfold login, do. frame_request.
  - unfold linkDevice, do. frame_request.
  - unfold setConfig, config_path. frame_request.
  - unfold getConfig, do, config_path. frame_request.
  - unfold connect. destruct (connect_result env); simpl;
      (split; simpl; try done;
       [by rewrite app_nil_r
       |exists []; by rewrite app_nil_r
       |eexists; split; [try rewrite <- app_assoc; reflexivity|];
        repeat constructor]).
  - unfold subscribe. destruct (client_set (mqtt (dev w))); simpl;
      [|apply frame_refl].
    destruct (subscribe_result env); simpl;
      (split; simpl; try done;
       [by rewrite app_nil_r
       |exists []; by rewrite app_nil_r
       |eexists; split; [reflexivity|repeat constructor]]).
Qed.

Lemma exec_steps_frame env ss w w' :
  Forall framed ss → exec_steps env ss w = Some w' → frame ss.*1 w w'.
Proof.
  intros Hss. revert w. induction Hss as [|[name fn] ss Hfn Hss IH];
    intros w Hex; simpl in *.
  - injection Hex as <-. apply frame_refl.
  - destruct (fn env (note_step name w)) as [[err|] w1] eqn:Hfn1; [done|].
    apply (frame_trans [name] _ w (note_step name w));
      [apply frame_note_step|].
    apply (frame_trans [] _ _ w1); [|by apply IH].
    specialize (Hfn env (note_step name w)). simpl in Hfn.
    by rewrite Hfn1 in Hfn.
Qed.

Lemma stop_closed_frame c names w w' k :
  frame names w w' → stop_closed c w' k = stop_closed c w k.
Proof. intros Hf. unfold stop_closed. by rewrite (frame_stopCh _ _ _ Hf). Qed.

(** While the steps succeed and no check finds the channel closed, the
    loop simply advances. *)
Lemma run_steps_prefix env c ss1 ss2 k w w1 :
  Forall framed ss1 →
  exec_steps env ss1 w = Some w1 →
  (∀ j, (j < length ss1)%nat → stop_closed c w (k + j) = false) →
  run_steps env c k (ss1 ++ ss2) w
  = run_steps env c (k + length ss1) ss2 w1.
Proof.
  intros Hss. revert k w.
  induction Hss as [|[name fn] ss Hfn Hss IH]; intros k w Hex Hopen;
    simpl in *.
  - injection Hex as <-. by rewrite Nat.add_0_r.
  - destruct (fn env (note_step name w)) as [[err|] w'] eqn:Hfn1; [done|].
    pose proof (Hopen 0%nat ltac:(lia)) as H0. rewrite Nat.add_0_r in H0.
    rewrite H0.
    assert (Hfr : frame [name] w w').
    { apply (frame_trans [name] [] w (note_step name w));
        [apply frame_note_step|].
      specialize (Hfn env (note_step name w)). simpl in Hfn.
      by rewrite Hfn1 in Hfn. }
    rewrite (IH (S k) w' Hex).
    + f_equal. lia.
    + intros j Hj. rewrite (stop_closed_frame _ _ _ _ _ Hfr).
      replace (S k + j)%nat with (k + S j)%nat by lia. apply Hopen. lia.
Qed.

Lemma steps_split i name fn :
  steps !! i = Some (name, fn) →
  steps = take i steps ++ (name, fn) :: drop (S i) steps
  ∧ length (take i steps) = i
  ∧ Forall framed (take i steps).
Proof.
  intros Hi. split; [by rewrite take_drop_middle|]. split.
  - apply length_take_le, Nat.lt_le_incl. exact (lookup_lt_Some _ _ _ Hi).
  - apply Forall_take, framed_steps.
Qed.

Lemma contains_prefix (a b : string) : contains (a +:+ b) a.
Proof. exists EmptyString, b. done. Qed.

(** A few runs of the model. *)

(** Without a stop signal the device stays Active and [Run] does not
    return. *)
Example Run_waits_while_active :
  ∃ w, Run env_ok CancelNever (fresh sample_device) = Blocked w
    ∧ GetState w = StateActive
    ∧ eventCh w = [mkEvent "loadtest-0123456789abcdef" EventActive]
    ∧ doneCh (dev w) = ChanOpen.
Proof. eexists. split; [vm_compute; reflexivity|]. vm_compute. done. Qed.

Example Run_full_lifecycle :
  ∃ w, Run env_ok CancelWhileActive (fresh sample_device) = Returned w
    ∧ history w = [StateRegistering; StateAuthenticating; StateLinking;
                   StateConfiguring; StateActive; StateDone]
    ∧ eventCh w = [mkEvent "loadtest-0123456789abcdef" EventActive;
                   mkEvent "loadtest-0123456789abcdef" EventDone]
    ∧ length (HTTPLog (dev w)) = 7%nat.
Proof. eexists. split; [vm_compute; reflexivity|]. vm_compute. done. Qed.

(** C1: if step [i] is reached (the steps before it succeed and no check
    up to it finds the stop channel closed) and its function returns an
    error, [Run] returns with the state [StateError], the error text
    "<step name>: <error>", exactly one event, [EventError], added to the
    channel, and exactly the steps [0..i] executed; the states written by
    this run do not include [StateActive]. *)
Theorem Run_step_failure env c w i name fn wi err wf :
  steps !! i = Some (name, fn) →
  doneCh (dev w) = ChanOpen →
  (∀ j, (j ≤ i)%nat → stop_closed c w j = false) →
  exec_steps env (take i steps) w = Some wi →
  fn env (note_step name wi) = (Some err, wf) →
  ∃ r, Run env c w = Returned r
    ∧ GetState r = StateError
    ∧ GetErrorMsg r = (name +:+ ": " +:+ err)
    ∧ contains (GetErrorMsg r) name
    ∧ eventCh r = eventCh w ++ [mkEvent (DeviceID (dev w)) EventError]
    ∧ executed r = executed w ++ (take (S i) steps).*1
    ∧ (∃ hs, history r = history w ++ hs
             ∧ (StateActive ∉ hs) ∧ last hs = Some StateError)
    ∧ doneCh (dev r) = ChanClosed.
Proof.
  intros Hi Hdone Hopen Hex Hfail.
  destruct (steps_split i name fn Hi) as (Hsplit & Hlen & Hfr).
  pose proof (exec_steps_frame env _ w wi Hfr Hex) as Fpre.
  assert (Fstep : frame [name] wi wf).
  { apply (frame_trans [name] [] wi (note_step name wi));
      [apply frame_note_step|].
    assert (Hf : framed (name, fn)).
    { eapply (proj1 (Forall_forall _ _) framed_steps).
      by eapply list_elem_of_lookup_2. }
    specialize (Hf env (note_step name wi)). simpl in Hf.
    by rewrite Hfail in Hf. }
  pose proof (frame_trans _ _ _ _ _ Fpre Fstep)
    as [E X _ D I (hs & H & FH) _].
  unfold Run.
  replace (run_steps env c 0 steps w)
    with (run_steps env c 0 (take i steps ++ (name, fn) :: drop (S i) steps) w)
    by (by rewrite <- Hsplit).
  rewrite (run_steps_prefix env c _ _ 0%nat w wi Hfr Hex)
    by (intros j Hj; apply Hopen; lia).
  simpl run_steps. rewrite Hlen.
  rewrite (stop_closed_frame _ _ _ _ _ Fpre), Hopen by lia.
  rewrite Hfail. unfold close_done. simpl. rewrite D, Hdone. simpl.
  eexists. split; [reflexivity|]. simpl.
  split; [done|]. split; [done|]. split; [apply contains_prefix|].
  split; [by rewrite E, I|]. split.
  - rewrite X. f_equal.
    change ((take i steps).*1 ++ [name] = (take (S i) steps).*1).
    by rewrite (take_S_r _ _ _ Hi), fmap_app.
  - split; [|done]. exists (hs ++ [StateError]).
    rewrite H, <- app_assoc. split; [done|]. split.
    + intros [Hin|Hin]%elem_of_app.
      * apply (proj1 (Forall_forall _ _) FH) in Hin. done.
      * apply list_elem_of_singleton in Hin. done.
    + by rewrite last_snoc.
Qed.

(** A fresh device whose login is answered with status 500. *)
Lemma Run_step_failure_witness :
  ∃ r, Run env_login_rejected CancelNever (fresh sample_device) = Returned r
    ∧ GetState r = StateError
    ∧ GetErrorMsg r = "login: login returned 500"
    ∧ contains (GetErrorMsg r) "login"
    ∧ eventCh r = [mkEvent "loadtest-0123456789abcdef" EventError]
    ∧ executed r = ["register device"; "register user"; "login"]
    ∧ (∃ hs, history r = hs
             ∧ (StateActive ∉ hs) ∧ last hs = Some StateError)
    ∧ doneCh (dev r) = ChanClosed.
Proof.
  eapply (Run_step_failure env_login_rejected CancelNever
            (fresh sample_device) 2 "login" login).
  - reflexivity.
  - reflexivity.
  - intros; reflexivity.
  - reflexivity.
  - reflexivity.
Defined.

(** C7: when the check before the first step finds the stop channel
    closed, [Run] writes [StateDone] and returns: no step function is
    called, no transport operation is invoked, nothing is logged and no
    event is sent. *)
Theorem Run_cancelled_before_start env c w :
  stop_closed c w 0 = true →
  doneCh (dev w) = ChanOpen →
  ∃ r, Run env c w = Returned r
    ∧ GetState r = StateDone
    ∧ history r = history w ++ [StateDone]
    ∧ ops r = ops w
    ∧ requests r = requests w
    ∧ executed r = executed w
    ∧ HTTPLog (dev r) = HTTPLog (dev w)
    ∧ eventCh r = eventCh w
    ∧ doneCh (dev r) = ChanClosed.
Proof.
  intros Hstop Hdone. unfold Run, steps, run_steps. rewrite Hstop.
  unfold close_done. simpl. rewrite Hdone. simpl.
  eexists. split; [reflexivity|]. by simpl.
Qed.

(** A fresh device whose stop channel is closed before the first check. *)
Lemma Run_cancelled_before_start_witness :
  ∃ r, Run env_ok (CancelBeforeCheck 0) (fresh sample_device) = Returned r
    ∧ GetState r = StateDone
    ∧ history r = [StateDone]
    ∧ ops r = []
    ∧ requests r = 0%nat
    ∧ executed r = []
    ∧ HTTPLog (dev r) = []
    ∧ eventCh r = []
    ∧ doneCh (dev r) = ChanClosed.
Proof.
  apply (Run_cancelled_before_start env_ok (CancelBeforeCheck 0)
           (fresh sample_device)); reflexivity.
Defined.

Lemma steps_lookup k :
  (k < length steps)%nat → ∃ name fn, steps !! k = Some (name, fn).
Proof.
  intros Hk. destruct (lookup_lt_is_Some_2 steps k Hk) as [[name fn] H].
  by exists name, fn.
Qed.

Lemma registerDevice_ops env w :
  ops (registerDevice env w).2
  = ops w ++ [BackendCall "POST" "/device/register" 15].
Proof.
  unfold registerDevice, do, doWithTimeout. simpl.
  destruct (http_result env (requests w)); simpl; try done.
  by case_bool_decide.
Qed.

(** C10, as stated, fails: a signal that fires while the last step runs
    (seven steps have completed, the eighth has not) is seen by no check;
    the step succeeds, the device becomes Active, sends two events and
    runs the cleanup. *)
Lemma Run_cancel_during_last_step :
  ¬ (∀ env c w n r,
       steps_completed_at c = Some n →
       (1 ≤ n < length steps)%nat →
       stopCh (dev w) = ChanOpen →
       doneCh (dev w) = ChanOpen →
       Run env c w = Returned r →
       GetState r = StateDone
       ∧ eventCh r = eventCh w
       ∧ Forall (λ o, is_cleanup_op o = false) (drop (length (ops w)) (ops r))).
Proof.
  intros H.
  assert (Hrun : ∃ r, Run env_ok (CancelDuringStep 7) (fresh sample_device)
                      = Returned r) by (vm_compute; eauto).
  destruct Hrun as [r Hrun].
  pose proof (H env_ok (CancelDuringStep 7) (fresh sample_device) 7%nat r
                eq_refl ltac:(simpl; lia) eq_refl eq_refl Hrun)
    as (_ & Hev & _).
  vm_compute in Hrun. injection Hrun as <-. discriminate Hev.
Qed.

(** C10, amended: when the check before step [k], 1 <= k < 8, is the first
    that finds the stop channel closed, the [k] steps before it having
    succeeded, [Run] writes [StateDone] and returns.  It sends no event,
    invokes nothing beyond what those steps invoked (in particular no
    logout, no offline announcement, no broker disconnect), although the
    backend has been contacted. *)
Theorem Run_cancelled_between_steps env c w k wk :
  (1 ≤ k < length steps)%nat →
  doneCh (dev w) = ChanOpen →
  (∀ j, (j < k)%nat → stop_closed c w j = false) →
  stop_closed c w k = true →
  exec_steps env (take k steps) w = Some wk →
  ∃ r, Run env c w = Returned r
    ∧ GetState r = StateDone
    ∧ eventCh r = eventCh w
    ∧ history r = history wk ++ [StateDone]
    ∧ ops r = ops wk
    ∧ (∃ os, ops r = ops w ++ os
             ∧ Forall (λ o, is_cleanup_op o = false) os)
    ∧ BackendCall "POST" "/device/register" 15 ∈ ops r
    ∧ executed r = executed w ++ (take k steps).*1
    ∧ doneCh (dev r) = ChanClosed.
Proof.
  intros [Hk1 Hk8] Hdone Hopen Hseen Hex.
  destruct (steps_lookup k Hk8) as (name & fn & Hi).
  destruct (steps_split k name fn Hi) as (Hsplit & Hlen & Hfr).
  pose proof (exec_steps_frame env _ w wk Hfr Hex) as Fpre.
  pose proof Fpre as [E X _ D I _ (os & O & FO)].
  assert (Hreg : BackendCall "POST" "/device/register" 15 ∈ ops wk).
  { destruct k as [|k']; [lia|].
    change (take (S k') steps)
      with (("register device", registerDevice) :: take k' (tail steps)) in *.
    simpl in Hex.
    destruct (registerDevice env (note_step "register device" w))
      as [[e|] w1] eqn:Hr; [done|].
    apply Forall_cons in Hfr as [_ Hfr'].
    destruct (exec_steps_frame env _ w1 wk Hfr' Hex) as [_ _ _ _ _ _ (os' & O' & _)].
    pose proof (registerDevice_ops env (note_step "register device" w)) as Hops.
    rewrite Hr in Hops. simpl in Hops. rewrite O', Hops.
    apply elem_of_app. left. apply elem_of_app. right. constructor. }
  unfold Run.
  replace (run_steps env c 0 steps w)
    with (run_steps env c 0 (take k steps ++ (name, fn) :: drop (S k) steps) w)
    by (by rewrite <- Hsplit).
  rewrite (run_steps_prefix env c _ _ 0%nat w wk Hfr Hex)
    by (intros j Hj; apply Hopen; lia).
  simpl run_steps. rewrite Hlen.
  rewrite (stop_closed_frame _ _ _ _ _ Fpre), Hseen.
  unfold close_done. simpl. rewrite D, Hdone. simpl.
  eexists. split; [reflexivity|]. simpl.
  repeat split; try done.
  exists os. done.
Qed.

(** The stop channel is closed while the third step runs and is found
    closed by the check before the fourth. *)
Lemma Run_cancelled_between_steps_witness :
  ∃ wk, exec_steps env_ok (take 3 steps) (fresh sample_device) = Some wk
    ∧ ∃ r, Run env_ok (CancelDuringStep 2) (fresh sample_device) = Returned r
      ∧ GetState r = StateDone
      ∧ eventCh r = eventCh (fresh sample_device)
      ∧ history r = history wk ++ [StateDone]
      ∧ ops r = ops wk
      ∧ (∃ os, ops r = ops (fresh sample_device) ++ os
               ∧ Forall (λ o, is_cleanup_op o = false) os)
      ∧ BackendCall "POST" "/device/register" 15 ∈ ops r
      ∧ executed r = executed (fresh sample_device) ++ (take 3 steps).*1
      ∧ doneCh (dev r) = ChanClosed.
Proof.
  eexists. split; [reflexivity|].
  apply (Run_cancelled_between_steps env_ok (CancelDuringStep 2)
           (fresh sample_device) 3).
  - simpl. lia.
  - reflexivity.
  - intros j Hj. destruct j as [|[|[|j]]]; [reflexivity..|lia].
  - reflexivity.
  - reflexivity.
Defined.

Lemma logout_effect env w :
  let w' := (logout env w).2 in
  ops w' = ops w ++ [BackendCall "POST" "/auth/logout" 15]
  ∧ eventCh w' = eventCh w ∧ history w' = history w
  ∧ executed w' = executed w
  ∧ State_ (dev w') = State_ (dev w)
  ∧ DeviceID (dev w') = DeviceID (dev w)
  ∧ mqtt (dev w') = mqtt (dev w)
  ∧ stopCh (dev w') = stopCh (dev w) ∧ doneCh (dev w') = doneCh (dev w).
Proof.
  unfold logout, do, doWithTimeout.
  destruct (http_result env (requests w)); simpl; try done.
  by case_bool_decide.
Qed.

(** After the eight steps have succeeded the device holds a broker client
    on which [Disconnect] has not been called. *)
Lemma exec_steps_client_set env w wa :
  exec_steps env steps w = Some wa →
  client_set (mqtt (dev wa)) = true ∧ client_closed (mqtt (dev wa)) = false.
Proof.
  unfold steps. simpl. intros Hex.
  repeat match type of Hex with
         | context [match ?f env ?x with _ => _ end] =>
             let E := fresh "E" in
             destruct (f env x) as [[?|] ?] eqn:E; [discriminate|]
         end.
  injection Hex as <-.
  match goal with
  | H : connect _ _ = _ |- _ =>
      unfold connect in H; destruct (connect_result env); try discriminate;
      injection H as <-
  end.
  match goal with
  | H : subscribe _ _ = _ |- _ => unfold subscribe in H; simpl in H
  end.
  match goal with
  | H : context [subscribe_result env] |- _ =>
      destruct (subscribe_result env); simpl in H; try discriminate;
      injection H as <-
  end.
  done.
Qed.

Lemma IsConnected_open env m :
  client_closed m = false → IsConnected env m = true.
Proof. unfold IsConnected. by intros ->. Qed.



(** ** Sends never block

    The model appends to the event channel without blocking.  This is
    sound for the channel that [runner.New] creates: it holds four events
    per device, and one run of a device sends at most two. *)

Lemma run_steps_events env c ss k w :
  Forall framed ss →
  ∃ es, eventCh (run_steps env c k ss w).2 = eventCh w ++ es
    ∧ (length es ≤ if (run_steps env c k ss w).1 then 1 else 0)%nat.
Proof.
  intros Hss. revert k w.
  induction Hss as [|[name fn] ss Hfn Hss IH]; intros k w; simpl.
  - exists []. by rewrite app_nil_r.
  - destruct (stop_closed c w k); simpl.
    { exists []. by rewrite app_nil_r; auto. }
    pose proof (Hfn env (note_step name w)) as Hfr. simpl in Hfr.
    destruct (fn env (note_step name w)) as [[err|] w'] eqn:Hstep; simpl in *.
    + eexists. rewrite (frame_events _ _ _ Hfr). simpl. split; [done|].
      simpl. lia.
    + destruct (IH (S k) w') as (es & Hes & Hlen).
      exists es. rewrite Hes, (frame_events _ _ _ Hfr). done.
Qed.

Lemma disconnect_events env w : eventCh (disconnect env w) = eventCh w.
Proof.
  unfold disconnect.
  by destruct (client_set (mqtt (dev w)) && IsConnected env (mqtt (dev w))).
Qed.

Lemma Run_sends_at_most_two env c w :
  ∃ es, eventCh (world_of (Run env c w)) = eventCh w ++ es
    ∧ (length es ≤ 2)%nat.
Proof.
  unfold Run.
  destruct (run_steps_events env c steps 0 w framed_steps) as (es & Hes & Hlen).
  destruct (run_steps env c 0 steps w) as [[] w1]; simpl in *.
  - exists es. split; [|lia].
    unfold close_done. by destruct (chan_close (doneCh (dev w1))).
  - destruct es; [|simpl in Hlen; lia]. rewrite app_nil_r in Hes.
    destruct (is_closed (stopCh (dev w1)) || fires c); simpl.
    + eexists. split; [|shelve].
      unfold close_done.
      match goal with
      | |- context [chan_close ?x] => destruct (chan_close x)
      end; simpl;
        rewrite disconnect_events;
        match goal with
        | |- context [logout env ?x] =>
            destruct (logout_effect env x) as (_ & -> & _)
        end; simpl; rewrite Hes, <- app_assoc; reflexivity.
    + eexists. rewrite Hes. split; [reflexivity|]. simpl. lia.
  Unshelve. simpl. lia.
Qed.

(** ** Shutdown *)

Lemma Shutdown_stopped d : Shutdown d = Some (stopped d).
Proof. unfold Shutdown, stopped. by destruct (stopCh d). Qed.

Lemma stopped_closed d : stopCh (stopped d) = ChanClosed.
Proof. unfold stopped. by destruct (stopCh d) eqn:E. Qed.

Lemma stopped_idemp d : stopped (stopped d) = stopped d.
Proof. unfold stopped at 1. by rewrite stopped_closed. Qed.

(** Two calls one after the other: the second changes nothing. *)
Lemma Shutdown_twice d :
  ∃ d', Shutdown d = Some d' ∧ Shutdown d' = Some d'
        ∧ stopCh d' = ChanClosed ∧ State_ d' = State_ d
        ∧ doneCh d' = doneCh d.
Proof.
  exists (stopped d). rewrite !Shutdown_stopped, stopped_idemp, stopped_closed.
  repeat split; unfold stopped; by destruct (stopCh d).
Qed.

(** A call that runs alone makes its two moves and leaves the channel as
    [Shutdown] does. *)
Lemma Shutdown_moves d :
  ∃ ch, interleave [false; false] (stopCh d) AtSelect Finished
        = Some (ch, Finished, Finished)
        ∧ Shutdown d = Some (write_stopCh ch d).
Proof.
  unfold Shutdown. destruct d as [? ? ? ? ? ? ? ? ? ? ? ? [] ?]; simpl; eauto.
Qed.

(** Any schedule in which one call finishes before the other starts ends
    with the channel closed once. *)
Lemma Shutdown_sequential_schedule ch :
  interleave [false; false; true; true] ch AtSelect AtSelect
  = Some (ChanClosed, Finished, Finished).
Proof. by destruct ch. Qed.

(** C3, the concurrent case: two calls on an open channel whose selects
    both run before either close.  Both take the default branch, and
    whichever call closes second panics; this holds for each of the four
    schedules of that shape. *)
Theorem Shutdown_concurrent_double_close :
  ∀ b : bool,
    interleave [b; negb b; b; negb b] ChanOpen AtSelect AtSelect = None
    ∧ interleave [b; negb b; negb b; b] ChanOpen AtSelect AtSelect = None.
Proof. intros b. destruct b; split; reflexivity. Qed.

End DeviceSpec.

(** * Orchestrator and statistics *)

Module RunnerSpec.
Import device runner.

(** ** Shutdown *)

Lemma mapM_Shutdown ds : mapM device.Shutdown ds = Some (stopped <$> ds).
Proof.
  apply mapM_Some. induction ds as [|d ds IH]; constructor; [|done].
  apply DeviceSpec.Shutdown_stopped.
Qed.

(** The runner-level call after a first one changes nothing and does not
    panic: the stop channel stays closed and every device stays as the
    first call left it. *)
Lemma Runner_Shutdown_twice r :
  ∃ r', Shutdown r = Some r' ∧ Shutdown r' = Some r'
        ∧ StopCh r' = ChanClosed
        ∧ Devices_ r' = stopped <$> Devices_ r.
Proof.
  unfold Shutdown. rewrite mapM_Shutdown.
  eexists. split; [destruct (StopCh r); reflexivity|].
  assert (Hc : StopCh
            (mkRunner (Cfg r) (stopped <$> Devices_ r) (Stats_ r)
               (EventCh_cap r) (EventCh r) ChanClosed) = ChanClosed) by done.
  destruct (StopCh r); simpl; rewrite mapM_Shutdown; simpl;
    (split; [|done]); do 2 f_equal;
    rewrite <- list_fmap_compose; apply list_fmap_ext;
    intros; apply DeviceSpec.stopped_idemp.
Qed.

(** ** Active count *)

Lemma on_event_windowIdx program ev st :
  windowIdx (stats (on_event program ev st)) = windowIdx (stats st).
Proof.
  unfold on_event. destruct (ev_Type ev); simpl; try done.
  by destruct (0 <? ActiveDevices (stats st)).
Qed.

Lemma on_event_active program ev st :
  0 ≤ ActiveDevices (stats st) → ActiveDevices (stats st) + 1 < 2 ^ 63 →
  0 ≤ ActiveDevices (stats (on_event program ev st))
    ≤ ActiveDevices (stats st) + 1.
Proof.
  intros H0 H1. unfold on_event. destruct (ev_Type ev); simpl; try lia.
  - rewrite wrap64_id by (unfold int64_range; lia). lia.
  - destruct (Z.ltb_spec 0 (ActiveDevices (stats st))); simpl; [|lia].
    rewrite wrap64_id by (unfold int64_range; lia). lia.
Qed.

Lemma on_tick_returns program counts st :
  0 ≤ windowIdx (stats st) → windowIdx (stats st) + 1 < 2 ^ 63 →
  ∃ st', on_tick program counts st = Some st'
    ∧ ActiveDevices (stats st') = ActiveDevices (stats st)
    ∧ windowIdx (stats st') = windowIdx (stats st) + 1.
Proof.
  intros H0 H1. unfold on_tick.
  pose proof (Z.rem_nonneg (windowIdx (stats st)) 5 ltac:(lia) H0).
  destruct (Z.ltb_spec (Z.rem (windowIdx (stats st)) 5) 0); [lia|].
  eexists. split; [reflexivity|]. simpl.
  rewrite wrap64_id by (unfold int64_range; lia). done.
Qed.

Lemma processEvents_active program ins st :
  0 ≤ ActiveDevices (stats st) →
  ActiveDevices (stats st) + Z.of_nat (length ins) < 2 ^ 63 →
  0 ≤ windowIdx (stats st) →
  windowIdx (stats st) + Z.of_nat (length ins) < 2 ^ 63 →
  ∃ status st', processEvents program ins st = Some (status, st')
    ∧ 0 ≤ ActiveDevices (stats st').
Proof.
  revert st. induction ins as [|i ins IH]; intros st Ha Hab Hw Hwb.
  - simpl. eauto.
  - simpl length in *. destruct i as [ev| |counts|]; simpl; eauto.
    + pose proof (on_event_active program ev st Ha ltac:(lia)).
      apply IH; rewrite ?on_event_windowIdx; lia.
    + destruct (on_tick_returns program counts st Hw ltac:(lia))
        as (st' & -> & Hact & Hidx).
      apply IH; lia.
Qed.

(** C5: from a state whose active count is not negative, the loop handles
    every sequence of events and ticks (shorter than 2^63, so that no
    64-bit counter wraps) without a panic, and after every prefix of the
    sequence the active count is not negative.  A [EventDone] that arrives
    when the count is zero leaves it at zero. *)
Theorem active_count_never_negative program ins st :
  0 ≤ ActiveDevices (stats st) →
  ActiveDevices (stats st) + Z.of_nat (length ins) < 2 ^ 63 →
  0 ≤ windowIdx (stats st) →
  windowIdx (stats st) + Z.of_nat (length ins) < 2 ^ 63 →
  (∀ pre, pre `prefix_of` ins →
     ∃ status st', processEvents program pre st = Some (status, st')
       ∧ 0 ≤ ActiveDevices (stats st'))
  ∧ (∀ id st', ActiveDevices (stats st') = 0 →
       ActiveDevices (stats (on_event program (mkEvent id EventDone) st')) = 0).
Proof.
  intros Ha Hab Hw Hwb. split.
  - intros pre Hpre. apply prefix_length in Hpre.
    apply processEvents_active; lia.
  - intros id st' Hz. unfold on_event. simpl. by rewrite Hz.
Qed.

(** A done event first, then a device that becomes active and done, then
    one more done event. *)
Lemma active_count_never_negative_witness :
  (∀ pre,
     pre `prefix_of` [RecvEvent (mkEvent "b" EventDone);
                      RecvEvent (mkEvent "a" EventActive);
                      Tick [3; 4];
                      RecvEvent (mkEvent "a" EventDone);
                      RecvEvent (mkEvent "c" EventDone)] →
     ∃ status st',
       processEvents true pre (mkLoop (mkStats 3 0 0 0 (replicate 5 0) 0) 0 [])
       = Some (status, st')
       ∧ 0 ≤ ActiveDevices (stats st'))
  ∧ (∀ id st', ActiveDevices (stats st') = 0 →
       ActiveDevices (stats (on_event true (mkEvent id EventDone) st')) = 0).
Proof.
  apply active_count_never_negative; simpl; lia.
Defined.

(** ** Rolling rate *)

Lemma wrap64_add_l x y : wrap64 (wrap64 x + y) = wrap64 (x + y).
Proof.
  unfold wrap64. f_equal.
  replace ((x + 2 ^ 63) mod 2 ^ 64 - 2 ^ 63 + y + 2 ^ 63)
    with ((x + 2 ^ 63) mod 2 ^ 64 + y) by lia.
  rewrite Zplus_mod_idemp_l. f_equal. lia.
Qed.

Lemma sum64_wrap l : sum64 l = wrap64 (sum_Z l).
Proof.
  unfold sum64.
  enough (H : ∀ a, foldl (λ sum v, wrap64 (sum + v)) (wrap64 a) l
                   = wrap64 (a + sum_Z l)).
  { specialize (H 0). rewrite wrap64_id in H by (unfold int64_range; lia).
    exact H. }
  induction l as [|v l IH]; intros a; simpl.
  - by rewrite Z.add_0_r.
  - rewrite wrap64_add_l, IH. f_equal. lia.
Qed.

Lemma sum_Z_replicate_0 n : sum_Z (replicate n 0) = 0.
Proof. induction n; simpl; lia. Qed.

Lemma length_recent5 ds : length (recent5 ds) = 5%nat.
Proof.
  unfold recent5. rewrite length_take, length_app, length_replicate. lia.
Qed.

Lemma recent5_snoc ds d : recent5 (ds ++ [d]) = d :: take 4 (recent5 ds).
Proof.
  unfold recent5. rewrite reverse_snoc. simpl. f_equal.
  rewrite take_take. done.
Qed.

Lemma sum_recent5 ds : sum_Z (recent5 ds) = sum_Z (latest 5 ds).
Proof.
  unfold recent5, latest.
  rewrite take_app, take_reverse, sum_Z_app, take_replicate, sum_Z_replicate_0.
  rewrite (sum_Z_perm _ _ (reverse_Permutation _)). lia.
Qed.

Lemma window_inv_init : window_inv (replicate 5 0) [].
Proof.
  split; [done|]. intros i Hi.
  destruct i as [|[|[|[|[|i]]]]]; try lia; reflexivity.
Qed.

Lemma window_inv_step w ds d :
  window_inv w ds → window_inv (<[(length ds mod 5)%nat := d]> w) (ds ++ [d]).
Proof.
  intros [Hlen Hinv]. split; [by rewrite length_insert|].
  pose proof (length_recent5 ds) as HR.
  assert (Hm : (length ds mod 5 < 5)%nat) by (apply Nat.mod_upper_bound; lia).
  assert (Hidx : ∀ i, ((length ds + i) mod 5 = (length ds mod 5 + i) mod 5)%nat)
    by (intros; by rewrite Nat.Div0.add_mod_idemp_l).
  pose proof (Hinv 0%nat ltac:(lia)) as H0.
  pose proof (Hinv 1%nat ltac:(lia)) as H1.
  pose proof (Hinv 2%nat ltac:(lia)) as H2.
  pose proof (Hinv 3%nat ltac:(lia)) as H3.
  pose proof (Hinv 4%nat ltac:(lia)) as H4.
  rewrite Hidx in H0, H1, H2, H3, H4.
  intros i Hi. rewrite recent5_snoc, length_app. simpl length.
  replace ((length ds + 1 + i) mod 5)%nat
    with ((length ds mod 5 + (1 + i)) mod 5)%nat
    by (rewrite <- Hidx; f_equal; lia).
  destruct (recent5 ds) as [|r0 [|r1 [|r2 [|r3 [|r4 [|]]]]]]; try discriminate.
  destruct w as [|a0 [|a1 [|a2 [|a3 [|a4 [|]]]]]]; try discriminate.
  clear Hinv Hidx HR Hlen.
  destruct (length ds mod 5)%nat as [|[|[|[|[|m]]]]]; try lia;
    destruct i as [|[|[|[|[|i]]]]]; try lia;
    simpl in *; congruence.
Qed.

Lemma window_inv_sum w ds : window_inv w ds → sum_Z w = sum_Z (recent5 ds).
Proof.
  intros [Hlen Hinv].
  pose proof (length_recent5 ds) as HR.
  assert (Hm : (length ds mod 5 < 5)%nat) by (apply Nat.mod_upper_bound; lia).
  assert (Hidx : ∀ i, ((length ds + i) mod 5 = (length ds mod 5 + i) mod 5)%nat)
    by (intros; by rewrite Nat.Div0.add_mod_idemp_l).
  pose proof (Hinv 0%nat ltac:(lia)) as H0.
  pose proof (Hinv 1%nat ltac:(lia)) as H1.
  pose proof (Hinv 2%nat ltac:(lia)) as H2.
  pose proof (Hinv 3%nat ltac:(lia)) as H3.
  pose proof (Hinv 4%nat ltac:(lia)) as H4.
  rewrite Hidx in H0, H1, H2, H3, H4.
  destruct (recent5 ds) as [|r0 [|r1 [|r2 [|r3 [|r4 [|]]]]]]; try discriminate.
  destruct w as [|a0 [|a1 [|a2 [|a3 [|a4 [|]]]]]]; try discriminate.
  destruct (length ds mod 5)%nat as [|[|[|[|[|m]]]]]; try lia;
    simpl in *; simplify_eq; lia.
Qed.

(** The loop keeps the ring invariant: after the ticks among the inputs
    the array holds the five latest deltas. *)
Lemma processEvents_window program ins st ds0 :
  window_inv (mqttWindow (stats st)) ds0 →
  windowIdx (stats st) = Z.of_nat (length ds0) →
  Z.of_nat (length ds0 + length (deltas (lastTotal st) ins)) < 2 ^ 63 →
  ∃ status st', processEvents program ins st = Some (status, st')
    ∧ window_inv (mqttWindow (stats st')) (ds0 ++ deltas (lastTotal st) ins).
Proof.
  revert st ds0. induction ins as [|i ins IH]; intros st ds0 Hinv Hidx Hlen.
  - simpl. rewrite app_nil_r. eauto.
  - destruct i as [ev| |counts|]; simpl in *;
      try (rewrite app_nil_r; by eauto).
    + apply (IH (on_event program ev st) ds0); try done.
      * unfold on_event. destruct (ev_Type ev); simpl; try done.
        by destruct (0 <? ActiveDevices (stats st)).
      * by rewrite on_event_windowIdx.
    + unfold on_tick. rewrite Hidx.
      assert (Hrem : Z.rem (Z.of_nat (length ds0)) 5
                     = Z.of_nat (length ds0 mod 5)).
      { rewrite Z.rem_mod_nonneg by lia.
        by rewrite Nat2Z.inj_mod. }
      rewrite Hrem.
      destruct (Z.ltb_spec (Z.of_nat (length ds0 mod 5)) 0); [lia|].
      rewrite Nat2Z.id.
      set (d := wrap64 (sum64 counts - lastTotal st)).
      replace (ds0 ++ d :: deltas (sum64 counts) ins)
        with ((ds0 ++ [d]) ++ deltas (sum64 counts) ins)
        by (by rewrite <- app_assoc).
      apply (IH (mkLoop _ _ _) (ds0 ++ [d])); simpl.
      * by apply window_inv_step.
      * rewrite wrap64_id by (unfold int64_range; lia).
        rewrite length_app. simpl. lia.
      * rewrite length_app. simpl. lia.
Qed.

(** C4: started on the zeroed array, after the loop has handled the
    inputs (events and ticks in any order), the reported rate is the sum
    of the deltas of the ticks divided by 5 while there are at most five
    of them, and the sum of the five most recent deltas divided by 5
    afterwards.  The array has five slots throughout.  (Fewer than 2^63
    ticks; the sum of the deltas in the window fits in 64 bits.) *)
Theorem rolling_rate program ins st :
  mqttWindow (stats st) = replicate window_capacity 0 →
  windowIdx (stats st) = 0 →
  Z.of_nat (length (deltas (lastTotal st) ins)) < 2 ^ 63 →
  int64_range (sum_Z (latest window_capacity (deltas (lastTotal st) ins))) →
  ∃ status st', processEvents program ins st = Some (status, st')
    ∧ length (mqttWindow (stats st')) = window_capacity
    ∧ MsgsPerSec (stats st')
      = (inject_Z (sum_Z (latest window_capacity (deltas (lastTotal st) ins)))
         / 5)%Q
    ∧ ((length (deltas (lastTotal st) ins) ≤ window_capacity)%nat →
       MsgsPerSec (stats st')
       = (inject_Z (sum_Z (deltas (lastTotal st) ins)) / 5)%Q).
Proof.
  intros Hw Hidx Hlen Hrange.
  destruct (processEvents_window program ins st [])
    as (status & st' & Hrun & Hinv); simpl; try done.
  { rewrite Hw. apply window_inv_init. }
  simpl in Hinv. exists status, st'. split; [done|].
  split; [apply Hinv|].
  assert (Hrate : MsgsPerSec (stats st')
    = (inject_Z (sum_Z (latest window_capacity (deltas (lastTotal st) ins)))
       / 5)%Q).
  { unfold MsgsPerSec. rewrite sum64_wrap, (window_inv_sum _ _ Hinv).
    rewrite sum_recent5. unfold window_capacity in *.
    by rewrite wrap64_id. }
  split; [done|]. intros Hk. rewrite Hrate. unfold latest, window_capacity in *.
  replace (length (deltas (lastTotal st) ins) - 5)%nat with 0%nat by lia.
  done.
Qed.

(** Seven ticks; the totals read are 2, 5, 9, 10, 18, 21, 40. *)
Lemma rolling_rate_witness :
  ∃ status st',
    processEvents true
      [Tick [1; 1]; RecvEvent (mkEvent "a" EventActive); Tick [2; 3];
       Tick [4; 5]; Tick [4; 6]; Tick [9; 9]; Tick [10; 11]; Tick [20; 20]]
      (mkLoop (mkStats 2 0 0 0 (replicate 5 0) 0) 0 [])
    = Some (status, st')
    ∧ length (mqttWindow (stats st')) = window_capacity
    ∧ MsgsPerSec (stats st') = (inject_Z (4 + 1 + 8 + 3 + 19) / 5)%Q
    ∧ ((7 ≤ window_capacity)%nat →
       MsgsPerSec (stats st')
       = (inject_Z (2 + 3 + 4 + 1 + 8 + 3 + 19) / 5)%Q).
Proof.
  apply (rolling_rate true
    [Tick [1; 1]; RecvEvent (mkEvent "a" EventActive); Tick [2; 3];
     Tick [4; 5]; Tick [4; 6]; Tick [9; 9]; Tick [10; 11]; Tick [20; 20]]
    (mkLoop (mkStats 2 0 0 0 (replicate 5 0) 0) 0 [])).
  - reflexivity.
  - reflexivity.
  - vm_compute. reflexivity.
  - vm_compute. split; [discriminate|reflexivity].
Defined.

(** After three ticks that read the totals 2, 5 and 9 the rate is 9/5. *)
Example rate_after_three_ticks :
  ∃ st', processEvents false [Tick [1; 1]; Tick [2; 3]; Tick [4; 5]]
           (mkLoop (mkStats 2 0 0 0 (replicate 5 0) 0) 0 [])
         = Some (Waiting, st')
    ∧ mqttWindow (stats st') = [2; 3; 4; 0; 0]
    ∧ MsgsPerSec (stats st') = (9 # 5)%Q.
Proof. eexists. split; [vm_compute; reflexivity|]. vm_compute. done. Qed.

(** ** Construction *)

Example New_four_devices :
  ∃ r, New (λ _ m, map_to_list m) id (λ i, i) (λ _, "0123456789abcdef") 1
         (mkConfig "https://staging.example" "key" "broker" 1883
                   "user" "secret" 4
                   (<["mta" := 50]> (<["cta" := 50]> ∅)) 0)
       = Returns (inr r)
    ∧ length (Devices_ r) = 4%nat
    ∧ providers.Provider ∘ Stop <$> Devices_ r = ["cta"; "cta"; "mta"; "mta"]
    ∧ EventCh_cap r = 16
    ∧ ActiveDevices (Stats_ r) = 0.
Proof. eexists. split; [vm_compute; reflexivity|]. vm_compute. done. Qed.

Lemma fill_length range_order fuel n dist pass w w' :
  providers.fill range_order fuel n dist pass w = Some w' →
  n ≤ Z.of_nat (length w').
Proof.
  revert pass w. induction fuel as [|fuel IH]; intros pass w; simpl;
    destruct (Z.ltb_spec (Z.of_nat (length w)) n); try done.
  - intros [= <-]. lia.
  - apply IH.
  - intros [= <-]. lia.
Qed.

Lemma AssignProviders_length range_order shuffle fuel n dist a :
  providers.AssignProviders range_order shuffle fuel n dist = Returns a →
  0 ≤ n ∧ length a = Z.to_nat n.
Proof.
  unfold providers.AssignProviders.
  destruct (Z.ltb_spec n 0); [done|].
  destruct (providers.fill _ _ _ _ _ _) as [w|]; [|done].
  destruct (Z.ltb_spec (Z.of_nat (length (shuffle w))) n); [done|].
  intros [= <-]. split; [done|]. rewrite length_take. lia.
Qed.

Lemma PickStopIn_fails catalog r k :
  (providers.PickStopIn catalog r k).2 = false ↔ unserved catalog k.
Proof.
  unfold providers.PickStopIn, unserved.
  destruct (catalog !! k) as [[|s stops]|]; simpl.
  - split; [by right|done].
  - split; [done|by intros [?|?]].
  - split; [by left|done].
Qed.

Section construction.
Variable catalog : gmap string (list providers.Stop).
Variable range_order : nat → gmap string Z → list (string * Z).
Variable shuffle : list string → list string.
Variable rnd : nat → nat.
Variable uuid : nat → string.

(** The loop stops with an error at the first assignment without
    targets. *)
Lemma new_devices_error cfg count i assign devices j k :
  length assign = (i + count)%nat →
  (i ≤ j)%nat → assign !! j = Some k → unserved catalog k →
  ∃ k', new_devices catalog rnd uuid cfg count i assign devices
        = Returns (inl (NoStopsConfigured k'))
    ∧ k' ∈ assign ∧ unserved catalog k'.
Proof.
  revert i devices. induction count as [|count IH];
    intros i devices Hlen Hij Hj Hbad.
  - apply lookup_lt_Some in Hj. lia.
  - simpl.
    destruct (lookup_lt_is_Some_2 assign i ltac:(lia)) as [k0 Hk0].
    rewrite Hk0.
    destruct (providers.PickStopIn catalog (rnd i) k0) as [stop ok] eqn:Hpick.
    destruct ok.
    + apply IH; try done; [lia|].
      destruct (decide (i = j)) as [->|]; [|lia].
      assert (k0 = k) as -> by congruence.
      apply (PickStopIn_fails catalog (rnd j)) in Hbad.
      rewrite Hpick in Hbad. done.
    + exists k0. split; [done|]. split; [by eapply list_elem_of_lookup_2|].
      apply (PickStopIn_fails catalog (rnd i)). by rewrite Hpick.
Qed.
End construction.

(** Seen from one run: when the assignment that the distributor computed
    contains a category without targets, construction returns the error
    for such a category. *)
Lemma New_rejects_assigned
    (catalog : gmap string (list providers.Stop))
    (range_order : nat → gmap string Z → list (string * Z))
    (shuffle : list string → list string)
    (rnd : nat → nat) (uuid : nat → string)
    (fuel : nat) (cfg : Config) (assign : list string) (k : string) :
  providers.AssignProviders range_order shuffle fuel
    (Devices cfg) (Providers cfg) = Returns assign →
  4 * Devices cfg < 2 ^ 63 →
  k ∈ assign →
  unserved catalog k →
  ∃ k', NewIn catalog range_order shuffle rnd uuid fuel cfg
        = Returns (inl (NoStopsConfigured k'))
    ∧ k' ∈ assign ∧ unserved catalog k'.
Proof.
  intros Hassign Hsmall Hk Hbad. unfold NewIn. rewrite Hassign.
  destruct (AssignProviders_length _ _ _ _ _ _ Hassign) as [Hn Hlen].
  rewrite wrap64_id by (unfold int64_range; lia).
  destruct (Z.ltb_spec (Devices cfg * 4) 0); [lia|].
  apply list_elem_of_lookup in Hk as [j Hj].
  destruct (new_devices_error catalog rnd uuid cfg (Z.to_nat (Devices cfg))
              0 assign [] j k) as (k' & -> & Hin & Hbad'); try done; [lia|].
  by exists k'.
Qed.

(** The configuration used against C8: 99 percent for a category with
    targets, one percent for a category that the catalog does not know,
    and a single device. *)
Lemma one_percent_valid :
  let dist : gmap string Z := <["cta" := 99]> (<["lirr" := 1]> ∅) in
  (∀ k p, dist !! k = Some p → 0 ≤ p)
  ∧ providers.dist_sum dist = 100
  ∧ dist !! "lirr" = Some 1
  ∧ unserved providers.stopsByProvider "lirr".
Proof.
  split; [|split; [vm_compute; reflexivity|split; [reflexivity|by left]]].
  intros k p Hk.
  apply lookup_insert_Some in Hk as [[_ <-]|[_ Hk]]; [lia|].
  apply lookup_insert_Some in Hk as [[_ <-]|[_ Hk]]; [lia|].
  by rewrite lookup_empty in Hk.
Qed.

(** C8, as stated, fails: a category without targets that holds a positive
    share of the distribution does not always receive a device.  With one
    device, the shares of 99 and 1 percent both round down to zero, and the
    device goes to the first key that the map enumeration yields; when that
    is the category with targets, construction succeeds. *)
Lemma New_accepts_unserved_category :
  ¬ (∀ (range_order : nat → gmap string Z → list (string * Z))
       (shuffle : list string → list string)
       (rnd : nat → nat) (uuid : nat → string)
       (fuel : nat) (cfg : Config) (k : string) (p : Z),
       (∀ j m, range_order j m ≡ₚ map_to_list m) →
       (∀ l, shuffle l ≡ₚ l) →
       (1 ≤ fuel)%nat →
       0 < Devices cfg → 100 * Devices cfg < 2 ^ 63 →
       (∀ k p, Providers cfg !! k = Some p → 0 ≤ p) →
       providers.dist_sum (Providers cfg) = 100 →
       Providers cfg !! k = Some p → 0 < p →
       unserved providers.stopsByProvider k →
       ∃ err, New range_order shuffle rnd uuid fuel cfg = Returns (inl err)).
Proof.
  intros H.
  destruct one_percent_valid as (Hpos & Hsum & Hk & Hbad).
  destruct (H (λ _ m, map_to_list m) id (λ i, i) (λ _, "0123456789abcdef")
              1%nat
              (mkConfig "https://staging.example" "key" "broker" 1883
                        "user" "secret" 1
                        (<["cta" := 99]> (<["lirr" := 1]> ∅)) 0)
              "lirr" 1) as [err Herr].
  - reflexivity.
  - reflexivity.
  - lia.
  - simpl. lia.
  - simpl. lia.
  - exact Hpos.
  - exact Hsum.
  - exact Hk.
  - lia.
  - exact Hbad.
  - vm_compute in Herr. discriminate.
Qed.

(** C8, amended: a category without targets (unknown to the catalog, or
    known with an empty list) whose rounded-down share of the devices is at
    least one makes construction fail.  For non-negative percentages that
    sum to 100, every map order, every shuffle and every draw, [New]
    returns the error "no stops configured" for a category of the
    distribution that has no targets, and no runner, hence nothing that
    could be started. *)
Theorem New_rejects_unserved_category
    (catalog : gmap string (list providers.Stop))
    (range_order : nat → gmap string Z → list (string * Z))
    (shuffle : list string → list string)
    (rnd : nat → nat) (uuid : nat → string)
    (fuel : nat) (cfg : Config) (k : string) (p : Z) :
  (∀ j m, range_order j m ≡ₚ map_to_list m) →
  (∀ l, shuffle l ≡ₚ l) →
  (1 ≤ fuel)%nat →
  0 ≤ Devices cfg → 100 * Devices cfg < 2 ^ 63 →
  (∀ k p, Providers cfg !! k = Some p → 0 ≤ p) →
  providers.dist_sum (Providers cfg) = 100 →
  Providers cfg !! k = Some p → 1 ≤ p * Devices cfg / 100 →
  unserved catalog k →
  ∃ k', NewIn catalog range_order shuffle rnd uuid fuel cfg
        = Returns (inl (NoStopsConfigured k'))
    ∧ k' ∈ dom (Providers cfg) ∧ unserved catalog k'.
Proof.
  intros Hro Hsh Hfuel Hn Hsmall Hpos Hsum Hk Hshare Hbad.
  destruct (ProvidersSpec.share_assigned range_order shuffle fuel
              (Devices cfg) (Providers cfg) k p)
    as (res & Hres & Hin & Hkeys); try done.
  destruct (New_rejects_assigned catalog range_order shuffle rnd uuid fuel
              cfg res k Hres ltac:(lia) Hin Hbad) as (k' & HNew & Hk' & Hbad').
  exists k'. split; [done|]. split; [by apply Hkeys|done].
Qed.

(** Half of two devices go to a category that the catalog does not know. *)
Lemma New_rejects_unserved_category_witness :
  ∃ k', New (λ _ m, map_to_list m) id (λ i, i) (λ _, "0123456789abcdef")
          1 (mkConfig "https://staging.example" "key" "broker" 1883
                      "user" "secret" 2
                      (<["mta" := 50]> (<["lirr" := 50]> ∅)) 0)
        = Returns (inl (NoStopsConfigured k'))
    ∧ k' ∈ dom (Providers
                  (mkConfig "https://staging.example" "key" "broker" 1883
                            "user" "secret" 2
                            (<["mta" := 50]> (<["lirr" := 50]> ∅)) 0))
    ∧ unserved providers.stopsByProvider k'.
Proof.
  apply (New_rejects_unserved_category providers.stopsByProvider
           (λ _ m, map_to_list m) id (λ i, i) (λ _, "0123456789abcdef") 1
           (mkConfig "https://staging.example" "key" "broker" 1883
                     "user" "secret" 2
                     (<["mta" := 50]> (<["lirr" := 50]> ∅)) 0)
           "lirr" 50).
  - reflexivity.
  - reflexivity.
  - lia.
  - simpl. lia.
  - simpl. lia.
  - simpl. intros k p Hk.
    apply lookup_insert_Some in Hk as [[_ <-]|[_ Hk]]; [lia|].
    apply lookup_insert_Some in Hk as [[_ <-]|[_ Hk]]; [lia|].
    by rewrite lookup_empty in Hk.
  - vm_compute. reflexivity.
  - reflexivity.
  - simpl. vm_compute. discriminate.
  - left. reflexivity.
Defined.

End RunnerSpec.

(** * More about the workload distributor *)

Module ProvidersMore.
Import providers.

(** ** The catalog and [PickStop] *)

Lemma catalog_consistent :
  map_Forall (λ k stops, stops ≠ [] ∧ Forall (λ s, Provider s = k) stops)
             stopsByProvider.
Proof.
  apply map_Forall_to_list. vm_compute map_to_list.
  repeat constructor; discriminate.
Qed.

Lemma catalog_dom : dom stopsByProvider = list_to_set ["cta"; "mbta"; "mta"; "septa"].
Proof. vm_compute. reflexivity. Qed.

Lemma PickStopIn_member catalog rnd k s :
  PickStopIn catalog rnd k = (s, true) →
  ∃ stops, catalog !! k = Some stops ∧ s ∈ stops.
Proof.
  unfold PickStopIn. destruct (catalog !! k) as [stops|]; [|done].
  destruct (length stops =? 0)%nat eqn:Hlen; [done|].
  intros [= <-]. exists stops. split; [done|].
  apply Nat.eqb_neq in Hlen.
  destruct (lookup_lt_is_Some_2 stops (rnd mod length stops))
    as [s Hs]; [by apply Nat.mod_upper_bound|].
  rewrite Hs. simpl. by eapply list_elem_of_lookup_2.
Qed.

(** [PickStop] answers for every key and every draw: for one of the four
    curated providers it returns one of that provider's stops, whose
    [Provider] field is the key asked for; for any other key it returns
    the zero stop and [false]. *)
Theorem PickStop_answers (rnd : nat) (k : string) :
  match PickStop rnd k with
  | (s, true) =>
      Provider s = k
      ∧ ∃ stops, stopsByProvider !! k = Some stops ∧ s ∈ stops
  | (s, false) => s = zeroStop ∧ stopsByProvider !! k = None
  end.
Proof.
  destruct (PickStop rnd k) as [s []] eqn:Hpick.
  - destruct (PickStopIn_member _ _ _ _ Hpick) as (stops & Hk & Hs).
    split; [|by exists stops].
    destruct (map_Forall_lookup_1 _ _ _ _ catalog_consistent Hk) as [_ Hall].
    by apply (proj1 (Forall_forall _ _) Hall).
  - unfold PickStop, PickStopIn in Hpick.
    destruct (stopsByProvider !! k) as [stops|] eqn:Hk.
    + destruct (map_Forall_lookup_1 _ _ _ _ catalog_consistent Hk) as [Hne _].
      destruct stops; [done|]. simpl in Hpick. discriminate.
    + by injection Hpick as <-.
Qed.

Lemma ValidProvidersIn_keys range_stops catalog :
  ValidProvidersIn range_stops catalog = (range_stops catalog).*1.
Proof.
  unfold ValidProvidersIn.
  enough (H : ∀ acc, foldl (λ keys e, keys ++ [e.1]) acc (range_stops catalog)
                   = acc ++ (range_stops catalog).*1) by apply H.
  induction (range_stops catalog) as [|e es IH]; intros acc; simpl.
  - by rewrite app_nil_r.
  - rewrite IH. by rewrite <- app_assoc.
Qed.

(** [ValidProviders] and [PickStop] agree: in whatever order the map is
    enumerated, the list has no repetition, and a key is in the list
    exactly when [PickStop] finds a stop for it. *)
Theorem ValidProviders_accepted
    (range_stops : gmap string (list Stop) → list (string * list Stop))
    (rnd : nat) (k : string) :
  (∀ m, range_stops m ≡ₚ map_to_list m) →
  NoDup (ValidProviders range_stops)
  ∧ length (ValidProviders range_stops) = 4%nat
  ∧ (k ∈ ValidProviders range_stops ↔ (PickStop rnd k).2 = true).
Proof.
  intros Hperm. unfold ValidProviders. rewrite ValidProvidersIn_keys.
  rewrite (Hperm stopsByProvider). split; [apply NoDup_fst_map_to_list|].
  split; [by vm_compute|].
  unfold PickStop. split.
  - intros Hin. apply list_elem_of_fmap in Hin as ([k' stops] & -> & Hin).
    apply elem_of_map_to_list in Hin. simpl in *.
    destruct (map_Forall_lookup_1 _ _ _ _ catalog_consistent Hin) as [Hne _].
    destruct ((PickStopIn stopsByProvider rnd k').2) eqn:Hp; [done|].
    apply RunnerSpec.PickStopIn_fails in Hp as [Hp|Hp]; congruence.
  - intros Hok. destruct (stopsByProvider !! k) as [stops|] eqn:Hk.
    + apply (list_elem_of_fmap_2 fst (map_to_list stopsByProvider) (k, stops)).
      by apply elem_of_map_to_list.
    + assert (Hu : runner.unserved stopsByProvider k) by (by left).
      apply (RunnerSpec.PickStopIn_fails stopsByProvider rnd k) in Hu.
      congruence.
Qed.

Lemma ValidProviders_accepted_witness :
  NoDup (ValidProviders map_to_list)
  ∧ length (ValidProviders map_to_list) = 4%nat
  ∧ ("septa" ∈ ValidProviders map_to_list ↔ (PickStop 7 "septa").2 = true).
Proof.
  apply (ValidProviders_accepted map_to_list 7 "septa").
  intros; reflexivity.
Defined.

(** ** Termination of [AssignProviders] for arbitrary percentages *)

Lemma fill_pass_grows n keys w :
  Z.of_nat (length w) < n →
  Z.of_nat (length (fill_pass n keys w)) ≤ n
  ∧ (keys ≠ [] → (length w < length (fill_pass n keys w))%nat)
  ∧ ∃ added, fill_pass n keys w = w ++ added ∧ ∀ x, x ∈ added → x ∈ keys.
Proof.
  revert w. induction keys as [|k keys IH]; intros w Hlt; simpl.
  - split; [lia|]. split; [done|]. exists []. split; [by rewrite app_nil_r|].
    intros x Hx. by apply elem_of_nil in Hx.
  - rewrite length_app. simpl length.
    destruct (Z.leb_spec n (Z.of_nat (length w + 1))) as [Hle|Hgt].
    + rewrite length_app. simpl. split; [lia|]. split; [lia|].
      exists [k]. split; [done|]. intros x Hx.
      apply list_elem_of_singleton in Hx as ->. apply list_elem_of_here.
    + destruct (IH (w ++ [k])) as (Hn & _ & added & Heq & Hin).
      { rewrite length_app. simpl. lia. }
      split; [done|]. split.
      * intros _. rewrite Heq, !length_app. simpl. lia.
      * exists (k :: added). split; [by rewrite Heq, <- app_assoc|].
        intros x [->|Hx]%elem_of_cons; [apply list_elem_of_here|].
        by apply list_elem_of_further, Hin.
Qed.

Lemma fill_terminates range_order fuel n dist pass w :
  (∀ j m, range_order j m ≡ₚ map_to_list m) →
  dist ≠ ∅ →
  (Z.to_nat n - length w ≤ fuel)%nat →
  ∃ w' added, fill range_order fuel n dist pass w = Some w'
    ∧ n ≤ Z.of_nat (length w')
    ∧ w' = w ++ added ∧ ∀ x, x ∈ added → x ∈ dist_keys dist.
Proof.
  intros Hro Hne. revert pass w.
  induction fuel as [|fuel IH]; intros pass w Hfuel.
  - exists w, []. rewrite ProvidersSpec.fill_done by lia.
    split; [done|]. split; [lia|]. split; [by rewrite app_nil_r|].
    intros x Hx. by apply elem_of_nil in Hx.
  - destruct (Z.ltb_spec (Z.of_nat (length w)) n) as [Hlt|Hge].
    + simpl. destruct (Z.ltb_spec (Z.of_nat (length w)) n); [|lia].
      assert (Hkeys : (range_order pass dist).*1 ≠ []).
      { intros Hnil. apply fmap_nil_inv in Hnil.
        apply Hne, map_to_list_empty_iff.
        apply Permutation_nil_r. by rewrite <- Hro, Hnil. }
      destruct (fill_pass_grows n (range_order pass dist).*1 w Hlt)
        as (Hle & Hgrow & added & Heq & Hin).
      specialize (Hgrow Hkeys).
      destruct (IH (S pass) (fill_pass n (range_order pass dist).*1 w))
        as (w' & added' & Hfill & Hn & Hw' & Hin'); [lia|].
      exists w', (added ++ added'). split; [done|]. split; [done|].
      split; [by rewrite Hw', Heq, <- app_assoc|].
      intros x [Hx|Hx]%elem_of_app; [|by apply Hin'].
      apply Hin in Hx.
      by rewrite (ProvidersSpec.enum_keys dist _ (Hro pass dist)) in Hx.
    + exists w, []. rewrite ProvidersSpec.fill_done by lia.
      split; [done|]. split; [lia|]. split; [by rewrite app_nil_r|].
      intros x Hx. by apply elem_of_nil in Hx.
Qed.

(** Whatever the percentages (negative, above 100, not summing to 100),
    for a non-empty mapping and a count [n >= 0] the call returns, within
    [n] passes of the filler, exactly [n] keys, all of them keys of the
    mapping. *)
Theorem AssignProviders_terminates
    (range_order : nat → gmap string Z → list (string * Z))
    (shuffle : list string → list string)
    (fuel : nat) (n : Z) (dist : gmap string Z) :
  (∀ j m, range_order j m ≡ₚ map_to_list m) →
  (∀ l, shuffle l ≡ₚ l) →
  0 ≤ n → dist ≠ ∅ → (Z.to_nat n ≤ fuel)%nat →
  ∃ res, AssignProviders range_order shuffle fuel n dist = Returns res
    ∧ length res = Z.to_nat n
    ∧ ∀ k, k ∈ res → k ∈ dom dist.
Proof.
  intros Hro Hsh Hn Hne Hfuel. unfold AssignProviders.
  destruct (Z.ltb_spec n 0); [lia|].
  destruct (fill_terminates range_order fuel n dist 1
              (weighted_base n (range_order 0%nat dist)) Hro Hne)
    as (w' & added & -> & Hlen & Hw' & Hin); [lia|].
  assert (Hshlen : length (shuffle w') = length w') by (by rewrite Hsh).
  destruct (Z.ltb_spec (Z.of_nat (length (shuffle w'))) n); [lia|].
  eexists. split; [reflexivity|]. split; [rewrite length_take; lia|].
  intros k Hk. apply elem_of_take in Hk as (i & Hi & _).
  apply list_elem_of_lookup_2 in Hi. rename Hi into Hk.
  rewrite Hsh, Hw' in Hk.
  assert (Hkey : k ∈ dist_keys dist).
  { apply elem_of_app in Hk as [Hk|Hk]; [|by apply Hin].
    rewrite ProvidersSpec.weighted_base_bind in Hk.
    apply ProvidersSpec.elem_of_base in Hk.
    by rewrite (ProvidersSpec.enum_keys dist _ (Hro 0%nat dist)) in Hk. }
  unfold dist_keys in Hkey.
  apply list_elem_of_fmap in Hkey as ([k' p] & -> & Hkey).
  apply elem_of_map_to_list in Hkey. apply elem_of_dom. by exists p.
Qed.

(** Percentages that add up to 130: still eight assignments. *)
Lemma AssignProviders_terminates_witness :
  ∃ res, AssignProviders (λ _ m, map_to_list m) reverse 8 8
           (<["mta" := 90]> (<["cta" := 40]> ∅)) = Returns res
    ∧ length res = Z.to_nat 8
    ∧ ∀ k, k ∈ res →
           k ∈ dom (<["mta" := 90]> (<["cta" := 40]> ∅) : gmap string Z).
Proof.
  apply AssignProviders_terminates.
  - intros; reflexivity.
  - intros; apply reverse_Permutation.
  - lia.
  - intros H. apply (f_equal (λ m : gmap string Z, m !! "mta")) in H.
    vm_compute in H. discriminate.
  - simpl. lia.
Defined.

(** The two edges of the count and of the mapping: a count of zero gives
    the empty assignment for every mapping; an empty mapping with a
    positive count never returns, however many passes are allowed. *)
Theorem AssignProviders_edges
    (range_order : nat → gmap string Z → list (string * Z))
    (shuffle : list string → list string)
    (fuel : nat) (n : Z) (dist : gmap string Z) :
  (∀ j m, range_order j m ≡ₚ map_to_list m) →
  (∀ l, shuffle l ≡ₚ l) →
  AssignProviders range_order shuffle fuel 0 dist = Returns []
  ∧ (0 < n → AssignProviders range_order shuffle fuel n ∅ = OutOfFuel).
Proof.
  intros Hro Hsh. split.
  - unfold AssignProviders. simpl Z.ltb. cbv iota.
    assert (Hbase : weighted_base 0 (range_order 0%nat dist) = []).
    { rewrite ProvidersSpec.weighted_base_bind.
      induction (range_order 0%nat dist) as [|e es IH]; [done|].
      rewrite bind_cons, IH. unfold expand, count_for.
      by rewrite Z.mul_0_r. }
    rewrite Hbase, ProvidersSpec.fill_done by (simpl; lia).
    assert (Hnil : shuffle [] = []) by (apply Permutation_nil_r; by rewrite Hsh).
    by rewrite Hnil.
  - intros Hpos. unfold AssignProviders.
    destruct (Z.ltb_spec n 0); [lia|].
    assert (Hempty : ∀ j, range_order j ∅ = []).
    { intros j. apply Permutation_nil_r. by rewrite Hro, map_to_list_empty. }
    rewrite Hempty. unfold weighted_base. simpl.
    enough (Hfill : ∀ pass, fill range_order fuel n ∅ pass [] = None)
      by (by rewrite Hfill).
    assert (Hlt : (Z.of_nat 0 <? n) = true) by (apply Z.ltb_lt; lia).
    induction fuel as [|fuel IH]; intros pass; simpl; rewrite Hlt; [done|].
    rewrite Hempty. simpl. apply IH.
Qed.

Lemma AssignProviders_edges_witness :
  AssignProviders (λ _ m, map_to_list m) id 3 0 (<["mta" := 100]> ∅)
  = Returns []
  ∧ (0 < 5 → AssignProviders (λ _ m, map_to_list m) id 3 5 ∅ = OutOfFuel).
Proof.
  apply AssignProviders_edges; intros; reflexivity.
Defined.

End ProvidersMore.

(** * More about the device lifecycle *)

Module DeviceMore.
Import device.

(** ** What a run leaves alone *)

Lemma extends_refl w : extends w w.
Proof.
  split; try done; try lia.
  exists []. rewrite app_nil_r. split; [done|]. split; [simpl; lia|].
  constructor.
Qed.

Lemma extends_trans w1 w2 w3 : extends w1 w2 → extends w2 w3 → extends w1 w3.
Proof.
  intros [A1 A2 A3 A4 A5 A6 A7 A8 A9 (n1 & L1 & C1 & F1) O1 E1 H1 X1 S1]
         [B1 B2 B3 B4 B5 B6 B7 B8 B9 (n2 & L2 & C2 & F2) O2 E2 H2 X2 S2].
  split; try congruence; try lia; try (etrans; eassumption); [|auto].
  exists (n1 ++ n2). rewrite L2, L1, <- app_assoc. split; [done|].
  split; [rewrite length_app; lia|]. by apply Forall_app.
Qed.

Ltac extends_same :=
  split; simpl; try done; try lia;
  try (apply prefix_app_r; reflexivity);
  exists []; rewrite app_nil_r; (split; [done|]);
  (split; [simpl; lia|constructor]).

Lemma extends_note_step name w : extends w (note_step name w).
Proof. extends_same. Qed.

Lemma extends_setState s w : extends w (setState s w).
Proof. extends_same. Qed.

Lemma extends_setError msg w : extends w (setError msg w).
Proof. extends_same. Qed.

Lemma extends_send ev w : extends w (send ev w).
Proof. extends_same. Qed.

Lemma extends_invoke o w : extends w (invoke o w).
Proof. extends_same. Qed.

Lemma extends_observe_stop w : extends w (observe_stop w).
Proof. extends_same. Qed.

Lemma extends_write_doneCh c w : extends w (with_dev (write_doneCh c) w).
Proof. extends_same. Qed.

Lemma extends_write_client b w : extends w (with_dev (write_client b) w).
Proof. extends_same. Qed.

Lemma extends_write_closed w : extends w (with_dev write_closed w).
Proof. extends_same. Qed.

Lemma extends_doWithTimeout env method path t w :
  extends w (doWithTimeout env method path t w).2.
Proof.
  unfold doWithTimeout.
  destruct (http_result env (requests w)) as [msg|msg|status]; simpl.
  - extends_same.
  - split; simpl; try done; try lia;
      try (apply prefix_app_r; reflexivity).
    eexists. split; [reflexivity|]. split; [simpl; lia|].
    by repeat constructor.
  - split; simpl; try done; try lia;
      try (apply prefix_app_r; reflexivity).
    eexists. split; [reflexivity|]. split; [simpl; lia|].
    by repeat constructor.
Qed.

Lemma extends_expect what accepted w r :
  extends w r.2 → extends w (expect what accepted r).2.
Proof.
  destruct r as [[status [err|]] w']; simpl; [done|]. by case_bool_decide.
Qed.

Ltac extends_request :=
  apply extends_expect;
  first [ apply extends_doWithTimeout
        | eapply extends_trans;
          [|apply extends_doWithTimeout]; apply extends_setState ].

Lemma extends_logout env w : extends w (logout env w).2.
Proof. unfold logout, do. extends_request. Qed.

Lemma extends_refresh env w : extends w (refresh env w).2.
Proof. unfold refresh, do. extends_request. Qed.

Lemma extends_connect env w : extends w (connect env w).2.
Proof.
  unfold connect. destruct (connect_result env); simpl;
    try apply extends_invoke.
  eapply extends_trans; [apply extends_invoke|].
  apply extends_write_client.
Qed.

Lemma extends_subscribe env w : extends w (subscribe env w).2.
Proof.
  unfold subscribe. destruct (client_set (mqtt (dev w))); simpl;
    [|apply extends_refl].
  destruct (subscribe_result env); apply extends_invoke.
Qed.

Lemma extends_disconnect env w : extends w (disconnect env w).
Proof.
  unfold disconnect.
  destruct (client_set (mqtt (dev w)) && IsConnected env (mqtt (dev w)));
    [|apply extends_refl].
  eapply extends_trans; [apply extends_invoke|].
  eapply extends_trans; [apply extends_invoke|].
  apply extends_write_closed.
Qed.

Lemma extends_steps :
  Forall (λ s : step, ∀ env w, extends w (s.2 env w).2) steps.
Proof.
  unfold steps. repeat apply Forall_cons_2; try apply Forall_nil_2;
    intros env w; simpl.
  - unfold registerDevice, do. extends_request.
  - unfold registerUser, do. extends_request.
  - unfold login, do. extends_request.
  - unfold linkDevice, do. extends_request.
  - unfold setConfig. extends_request.
  - unfold getConfig, do. extends_request.
  - apply extends_connect.
  - apply extends_subscribe.
Qed.

Lemma extends_run_steps env c ss k w :
  Forall (λ s : step, ∀ env w, extends w (s.2 env w).2) ss →
  extends w (run_steps env c k ss w).2.
Proof.
  intros Hss. revert k w.
  induction Hss as [|[name fn] ss Hfn Hss IH]; intros k w; simpl.
  - apply extends_refl.
  - destruct (stop_closed c w k); simpl.
    { eapply extends_trans; [apply extends_observe_stop|].
      apply extends_setState. }
    pose proof (Hfn env (note_step name w)) as Hstep. simpl in Hstep.
    destruct (fn env (note_step name w)) as [[err|] w'] eqn:Hres; simpl in *.
    + eapply extends_trans; [apply extends_note_step|].
      eapply extends_trans; [exact Hstep|].
      eapply extends_trans; [apply extends_setError|]. apply extends_send.
    + eapply extends_trans; [apply extends_note_step|].
      eapply extends_trans; [exact Hstep|]. apply IH.
Qed.

Lemma extends_close_done w : extends w (world_of (close_done w)).
Proof.
  unfold close_done. destruct (chan_close (doneCh (dev w))); simpl;
    [apply extends_write_doneCh|apply extends_refl].
Qed.

Lemma extends_cleanup env w : extends w (cleanup env w).
Proof.
  unfold cleanup.
  eapply extends_trans; [apply extends_logout|].
  eapply extends_trans; [apply extends_disconnect|].
  eapply extends_trans; [apply extends_setState|]. apply extends_send.
Qed.

(** Whatever the network answers and whenever the stop signal comes, a
    run never changes the identity of the device, its assignment, its
    backend configuration or its message log and counter; it only appends
    to the request log, at most one entry per backend call, each flagged
    OK exactly for a 2xx status; and it never reopens the stop channel. *)
Theorem Run_extends env c w : extends w (world_of (Run env c w)).
Proof.
  unfold Run.
  pose proof (extends_run_steps env c steps 0 w extends_steps) as Hsteps.
  destruct (run_steps env c 0 steps w) as [[] w1]; simpl in Hsteps.
  - eapply extends_trans; [exact Hsteps|]. apply extends_close_done.
  - eapply extends_trans; [exact Hsteps|].
    eapply extends_trans; [apply extends_setState|].
    eapply extends_trans; [apply extends_send|].
    match goal with
    | |- context [if ?b then _ else _] => destruct b
    end; simpl; [|apply extends_refl].
    eapply extends_trans; [apply extends_observe_stop|].
    eapply extends_trans; [apply extends_cleanup|].
    apply extends_close_done.
Qed.

(** ** The ways in which a run ends *)

Lemma run_steps_cases env c k ss w :
  (∃ w', run_steps env c k ss w = (false, w')
         ∧ exec_steps env ss w = Some w')
  ∨ (∃ i wi, (i < length ss)%nat
       ∧ exec_steps env (take i ss) w = Some wi
       ∧ run_steps env c k ss w = (true, setState StateDone (observe_stop wi)))
  ∨ (∃ i name fn wi err wf, ss !! i = Some (name, fn)
       ∧ exec_steps env (take i ss) w = Some wi
       ∧ fn env (note_step name wi) = (Some err, wf)
       ∧ run_steps env c k ss w
         = (true,
            send (mkEvent (DeviceID (dev (setError (name +:+ ": " +:+ err) wf)))
                          EventError)
                 (setError (name +:+ ": " +:+ err) wf))).
Proof.
  revert k w. induction ss as [|[name fn] ss IH]; intros k w; simpl.
  - left. eauto.
  - destruct (stop_closed c w k).
    { right. left. exists 0%nat, w. split; [lia|]. done. }
    destruct (fn env (note_step name w)) as [[err|] w'] eqn:Hfn.
    { right. right. exists 0%nat, name, fn, w, err, w'. done. }
    destruct (IH (S k) w')
      as [(w2 & Hrun & Hex)
         |[(i & wi & Hi & Hex & Hrun)
          |(i & name' & fn' & wi & err & wf & Hi & Hex & Hfail & Hrun)]].
    + left. eauto.
    + right. left. exists (S i), wi. split; [lia|]. simpl. by rewrite Hfn.
    + right. right. exists (S i), name', fn', wi, err, wf. simpl.
      by rewrite Hfn.
Qed.

Ltac unfold_transport :=
  unfold registerDevice, registerUser, login, linkDevice, setConfig,
    getConfig, refresh, logout, do, doWithTimeout, connect, subscribe,
    disconnect, IsConnected, expect;
  simpl;
  repeat match goal with
         | |- context [http_result ?e ?n] => destruct (http_result e n)
         | |- context [connect_result ?e] => destruct (connect_result e)
         | |- context [subscribe_result ?e] => destruct (subscribe_result e)
         | |- context [bool_decide ?P] => destruct (bool_decide P)
         | |- context [client_set ?m] => destruct (client_set m)
         | |- context [client_closed ?m] => destruct (client_closed m)
         end;
  simpl.

Lemma ErrorMsg_steps :
  Forall (λ s : step, ∀ env w, ErrorMsg (dev (s.2 env w).2) = ErrorMsg (dev w))
         steps.
Proof.
  unfold steps. repeat apply Forall_cons_2; try apply Forall_nil_2;
    intros env w; simpl; unfold_transport; reflexivity.
Qed.

Lemma exec_steps_ErrorMsg env ss w w' :
  Forall (λ s : step, ∀ env w, ErrorMsg (dev (s.2 env w).2) = ErrorMsg (dev w))
         ss →
  exec_steps env ss w = Some w' → ErrorMsg (dev w') = ErrorMsg (dev w).
Proof.
  intros Hss. revert w. induction Hss as [|[name fn] ss Hfn Hss IH];
    intros w Hex; simpl in *.
  - by injection Hex as <-.
  - pose proof (Hfn env (note_step name w)) as Hkeep. simpl in Hkeep.
    destruct (fn env (note_step name w)) as [[err|] w1]; [done|].
    rewrite (IH _ Hex). exact Hkeep.
Qed.

Lemma cleanup_effect env w :
  State_ (dev (cleanup env w)) = StateDone
  ∧ eventCh (cleanup env w)
    = eventCh w ++ [mkEvent (DeviceID (dev w)) EventDone]
  ∧ ErrorMsg (dev (cleanup env w)) = ErrorMsg (dev w)
  ∧ doneCh (dev (cleanup env w)) = doneCh (dev w).
Proof. unfold cleanup. unfold_transport; done. Qed.

Lemma cleanup_history env w :
  history (cleanup env w) = history w ++ [StateDone].
Proof. unfold cleanup. unfold_transport; done. Qed.

Lemma close_done_keeps w :
  history (world_of (close_done w)) = history w
  ∧ State_ (dev (world_of (close_done w))) = State_ (dev w).
Proof. unfold close_done. by destruct (chan_close (doneCh (dev w))). Qed.

Lemma history_steps :
  Forall2 (λ (s : step) sts,
             ∀ env w, history (s.2 env w).2 = history w ++ sts
                      ∧ (sts = [] → State_ (dev (s.2 env w).2) = State_ (dev w)))
          steps step_states.
Proof.
  unfold steps, step_states.
  repeat apply Forall2_cons_2; try apply Forall2_nil_2;
    intros env w; simpl; unfold_transport;
    by rewrite ?app_nil_r.
Qed.

Lemma exec_steps_history env ss stss w w' :
  Forall2 (λ (s : step) sts,
             ∀ env w, history (s.2 env w).2 = history w ++ sts
                      ∧ (sts = [] → State_ (dev (s.2 env w).2) = State_ (dev w)))
          ss stss →
  exec_steps env ss w = Some w' →
  history w' = history w ++ concat stss.
Proof.
  intros Hss. revert w. induction Hss as [|[name fn] sts ss stss Hfn Hss IH];
    intros w Hex; simpl in *.
  - injection Hex as <-. by rewrite app_nil_r.
  - destruct (Hfn env (note_step name w)) as [Hh _]. simpl in Hh.
    destruct (fn env (note_step name w)) as [[err|] w1]; [done|].
    simpl in Hh. rewrite (IH _ Hex), Hh, app_assoc. done.
Qed.

Ltac increasing :=
  repeat first [ apply SSorted_nil | apply SSorted_cons
               | apply Forall_nil_2 | apply Forall_cons_2 | done ].

Lemma Run_ending env c w :
  ∃ e, eventCh (world_of (Run env c w))
       = eventCh w ++ ending_events (DeviceID (dev w)) e
    ∧ GetState (world_of (Run env c w)) = ending_state e.
Proof.
  unfold Run, GetState.
  assert (Hclose : ∀ x, eventCh (world_of (close_done x)) = eventCh x
                        ∧ State_ (dev (world_of (close_done x)))
                          = State_ (dev x)).
  { intros x. unfold close_done. by destruct (chan_close (doneCh (dev x))). }
  destruct (run_steps_cases env c 0 steps w)
    as [(w1 & -> & Hex)
       |[(i & wi & Hi & Hex & ->)
        |(i & name & fn & wi & err & wf & Hi & Hex & Hfail & ->)]].
  - pose proof (DeviceSpec.exec_steps_frame env _ w w1
                  DeviceSpec.framed_steps Hex) as [E _ _ _ I _ _].
    match goal with
    | |- context [if ?b then _ else _] => destruct b
    end.
    + exists EndCleanedUp.
      set (wa := observe_stop _).
      destruct (Hclose (cleanup env wa)) as [-> ->].
      destruct (cleanup_effect env wa) as (-> & -> & _).
      subst wa. simpl. by rewrite E, I, <- app_assoc.
    + exists EndWaiting. simpl. by rewrite E, I.
  - pose proof (DeviceSpec.exec_steps_frame env _ w wi
                  (Forall_take _ _ _ DeviceSpec.framed_steps) Hex)
      as [E _ _ _ I _ _].
    exists EndCancelled.
    destruct (Hclose (setState StateDone (observe_stop wi))) as [-> ->].
    simpl. by rewrite E, app_nil_r.
  - pose proof (DeviceSpec.exec_steps_frame env _ w wi
                  (Forall_take _ _ _ DeviceSpec.framed_steps) Hex)
      as [E _ _ _ I _ _].
    assert (Hf : framed (name, fn)).
    { eapply (proj1 (Forall_forall _ _) DeviceSpec.framed_steps).
      by eapply list_elem_of_lookup_2. }
    specialize (Hf env (note_step name wi)). simpl in Hf.
    rewrite Hfail in Hf. destruct Hf as [E' _ _ _ I' _ _]. simpl in *.
    exists EndFailed.
    match goal with
    | |- context [close_done ?x] => destruct (Hclose x) as [-> ->]
    end.
    simpl. by rewrite E', E, I', I.
Qed.

(** Every run ends in one of four ways, whatever the network answers and
    whenever the stop signal comes: cancelled before a step (Done, no
    event), failed at a step (Error, one error event, the error text
    starting with the name of a step), Active and waiting (one active
    event; only if the stop signal never comes), or Active and cleaned up
    (Done; an active event, then a done event).  [Run] has returned and
    closed [doneCh], so that [Wait] returns, in all cases but the third.
    The error text is only written in the second case. *)
Theorem Run_outcomes env c w :
  doneCh (dev w) = ChanOpen →
  ∃ e r,
    Run env c w = match e with EndWaiting => Blocked r | _ => Returned r end
    ∧ GetState r = ending_state e
    ∧ eventCh r = eventCh w ++ ending_events (DeviceID (dev w)) e
    ∧ Wait (dev r) = match e with EndWaiting => false | _ => true end
    ∧ match e with
      | EndFailed =>
          ∃ name err, name ∈ steps.*1
                      ∧ GetErrorMsg r = (name +:+ ": " +:+ err)
      | _ => GetErrorMsg r = GetErrorMsg w
      end
    ∧ (e = EndWaiting → fires c = false).
Proof.
  intros Hdone. unfold Run, Wait, GetState, GetErrorMsg.
  destruct (run_steps_cases env c 0 steps w)
    as [(w1 & -> & Hex)
       |[(i & wi & Hi & Hex & ->)
        |(i & name & fn & wi & err & wf & Hi & Hex & Hfail & ->)]].
  - pose proof (DeviceSpec.exec_steps_frame env _ w w1
                  DeviceSpec.framed_steps Hex) as [E _ S D I _ _].
    pose proof (exec_steps_ErrorMsg env _ w w1 ErrorMsg_steps Hex) as M.
    simpl. rewrite S.
    destruct (is_closed (stopCh (dev w)) || fires c) eqn:Hfires.
    + exists EndCleanedUp.
      set (wa := observe_stop
                   (send (mkEvent (DeviceID (dev w1)) EventActive)
                         (setState StateActive w1))).
      destruct (cleanup_effect env wa) as (C1 & C2 & C3 & C4).
      assert (D' : doneCh (dev wa) = ChanOpen) by (by rewrite <- Hdone, <- D).
      assert (M' : ErrorMsg (dev wa) = ErrorMsg (dev w)) by exact M.
      assert (E' : eventCh wa
                   = eventCh w ++ [mkEvent (DeviceID (dev w)) EventActive])
        by (subst wa; simpl; by rewrite E, I).
      assert (I' : DeviceID (dev wa) = DeviceID (dev w)) by exact I.
      unfold close_done. rewrite C4, D'. simpl.
      exists (with_dev (write_doneCh ChanClosed) (cleanup env wa)).
      split; [reflexivity|].
      cbn [with_dev write_doneCh dev eventCh State_ ErrorMsg doneCh
           is_closed ending_state ending_events].
      rewrite C1, C2, C3, E', I', M', <- app_assoc. done.
    + exists EndWaiting. eexists. split; [reflexivity|]. simpl.
      rewrite E, I, M, D, Hdone. repeat split; try done.
      intros _. by apply orb_false_elim in Hfires as [_ ?].
  - pose proof (DeviceSpec.exec_steps_frame env _ w wi
                  (Forall_take _ _ _ DeviceSpec.framed_steps) Hex)
      as [E _ S D I _ _].
    pose proof (exec_steps_ErrorMsg env _ w wi
                  (Forall_take _ _ _ ErrorMsg_steps) Hex) as M.
    exists EndCancelled. unfold close_done. simpl. rewrite D, Hdone. simpl.
    eexists. split; [reflexivity|]. simpl. rewrite E, M, app_nil_r. done.
  - pose proof (DeviceSpec.exec_steps_frame env _ w wi
                  (Forall_take _ _ _ DeviceSpec.framed_steps) Hex)
      as [E _ S D I _ _].
    assert (Hf : framed (name, fn)).
    { eapply (proj1 (Forall_forall _ _) DeviceSpec.framed_steps).
      by eapply list_elem_of_lookup_2. }
    specialize (Hf env (note_step name wi)). simpl in Hf.
    rewrite Hfail in Hf. destruct Hf as [E' _ S' D' I' _ _]. simpl in *.
    exists EndFailed. unfold close_done. simpl. rewrite D', D, Hdone. simpl.
    eexists. split; [reflexivity|]. simpl. rewrite E', E, I', I.
    repeat split; try done.
    exists name, err. split; [|done].
    apply (list_elem_of_fmap_2 fst steps (name, fn)).
    by eapply list_elem_of_lookup_2.
Qed.

(** The login answered with status 500: the run ends as failed. *)
Lemma Run_outcomes_witness :
  ∃ e r,
    Run env_login_rejected CancelNever (fresh sample_device)
    = match e with EndWaiting => Blocked r | _ => Returned r end
    ∧ GetState r = ending_state e
    ∧ eventCh r = eventCh (fresh sample_device)
                  ++ ending_events (DeviceID (dev (fresh sample_device))) e
    ∧ Wait (dev r) = match e with EndWaiting => false | _ => true end
    ∧ match e with
      | EndFailed =>
          ∃ name err, name ∈ steps.*1
                      ∧ GetErrorMsg r = (name +:+ ": " +:+ err)
      | _ => GetErrorMsg r = GetErrorMsg (fresh sample_device)
      end
    ∧ (e = EndWaiting → fires CancelNever = false).
Proof.
  apply (Run_outcomes env_login_rejected CancelNever (fresh sample_device)).
  reflexivity.
Defined.

Lemma concat_take_prefix {A} (l : list (list A)) i :
  concat (take i l) `prefix_of` concat l.
Proof.
  rewrite <- (take_drop i l) at 2. rewrite concat_app. by apply prefix_app_r.
Qed.

(** What the shape of the states written implies. *)
Lemma states_shape (stages ending : list State) :
  stages `prefix_of` concat step_states →
  ending ∈ [[StateDone]; [StateError]; [StateActive];
            [StateActive; StateDone]] →
  StronglySorted Z.lt (State_int <$> (stages ++ ending))
  ∧ (StateInit ∉ (stages ++ ending))
  ∧ (∀ i s, (stages ++ ending) !! i = Some s →
       s = StateError ∨ s = StateDone → S i = length (stages ++ ending))
  ∧ (StateActive ∈ (stages ++ ending) → StateError ∉ (stages ++ ending)).
Proof.
  intros [rest Hst] Hend. simpl in Hst.
  assert (Hstages : stages ∈ [[]; [StateRegistering];
                              [StateRegistering; StateAuthenticating];
                              [StateRegistering; StateAuthenticating;
                               StateLinking];
                              [StateRegistering; StateAuthenticating;
                               StateLinking; StateConfiguring]]).
  { destruct stages as [|s1 [|s2 [|s3 [|s4 [|s5 more]]]]];
      simpl in Hst; simplify_eq; rewrite !elem_of_cons; auto 10. }
  clear Hst rest.
  rewrite !elem_of_cons in Hstages. rewrite !elem_of_cons in Hend.
  destruct Hstages as [->|[->|[->|[->|[->|Hno]]]]];
    [..|by apply elem_of_nil in Hno];
    (destruct Hend as [->|[->|[->|[->|Hno]]]];
     [..|by apply elem_of_nil in Hno]);
    (split; [simpl; increasing|]);
    (split; [refine (bool_decide_unpack _ _); vm_compute; exact I|]);
    (split; [|refine (bool_decide_unpack _ _); vm_compute; exact I]);
    intros i s Hi Hs;
    repeat (destruct i as [|i];
            [injection Hi as <-; destruct Hs; (discriminate || reflexivity)|]);
    done.
Qed.

(** The states that a run writes are a beginning of the four stages of the
    onboarding, in their order, followed by exactly one ending: Done (the
    run was cancelled), Error (a step failed), Active (the run is waiting),
    or Active and then Done (the run was stopped while Active).  Active is
    only written after all four stages.  Hence the states written are
    strictly increasing in the numbering of the state constants: a stage is
    never entered twice, none is entered out of order; nothing follows Done
    or Error; Error never follows Active; [Init] is never written.  The
    last state written is the state the device is left in. *)
Theorem Run_states_forward env c w :
  ∃ stages ending,
    history (world_of (Run env c w)) = history w ++ stages ++ ending
    ∧ stages `prefix_of` concat step_states
    ∧ ending ∈ [[StateDone]; [StateError]; [StateActive];
                [StateActive; StateDone]]
    ∧ (StateActive ∈ ending → stages = concat step_states)
    ∧ last (stages ++ ending) = Some (GetState (world_of (Run env c w)))
    ∧ StronglySorted Z.lt (State_int <$> (stages ++ ending))
    ∧ (StateInit ∉ (stages ++ ending))
    ∧ (∀ i s, (stages ++ ending) !! i = Some s →
         s = StateError ∨ s = StateDone → S i = length (stages ++ ending))
    ∧ (StateActive ∈ (stages ++ ending) → StateError ∉ (stages ++ ending)).
Proof.
  assert (Hmain : ∃ stages ending,
    history (world_of (Run env c w)) = history w ++ stages ++ ending
    ∧ stages `prefix_of` concat step_states
    ∧ ending ∈ [[StateDone]; [StateError]; [StateActive];
                [StateActive; StateDone]]
    ∧ (StateActive ∈ ending → stages = concat step_states)
    ∧ last ending = Some (GetState (world_of (Run env c w)))).
  2: { destruct Hmain as (stages & ending & Hh & Hpre & Hend & Hact & Hlast).
       exists stages, ending.
       split; [done|]. split; [done|]. split; [done|]. split; [done|].
       split; [|by apply states_shape].
       rewrite last_app, Hlast. done. }
  unfold Run, GetState.
  destruct (run_steps_cases env c 0 steps w)
    as [(w1 & -> & Hex)
       |[(i & wi & Hi & Hex & ->)
        |(i & name & fn & wi & err & wf & Hi & Hex & Hfail & ->)]].
  - pose proof (exec_steps_history env _ _ w w1 history_steps Hex) as Hh.
    match goal with
    | |- context [if ?b then _ else _] => destruct b
    end.
    + set (wa := observe_stop _).
      destruct (close_done_keeps (cleanup env wa)) as [-> ->].
      rewrite cleanup_history.
      destruct (cleanup_effect env wa) as (-> & _).
      exists (concat step_states), [StateActive; StateDone].
      split; [subst wa; simpl; rewrite Hh, <- !app_assoc; reflexivity|].
      split; [done|]. split; [rewrite !elem_of_cons; auto 10|]. done.
    + exists (concat step_states), [StateActive].
      split; [simpl; rewrite Hh, <- !app_assoc; reflexivity|].
      split; [done|]. split; [rewrite !elem_of_cons; auto 10|]. done.
  - pose proof (exec_steps_history env _ _ w wi
                  (Forall2_take _ _ _ i history_steps) Hex) as Hh.
    destruct (close_done_keeps (setState StateDone (observe_stop wi)))
      as [-> ->].
    exists (concat (take i step_states)), [StateDone].
    split; [simpl; rewrite Hh, <- !app_assoc; reflexivity|].
    split; [apply concat_take_prefix|].
    split; [rewrite !elem_of_cons; auto 10|].
    split; [|done].
    intros Ha. apply list_elem_of_singleton in Ha. discriminate.
  - pose proof (exec_steps_history env _ _ w wi
                  (Forall2_take _ _ _ i history_steps) Hex) as Hh.
    destruct (Forall2_lookup_l _ _ _ _ _ history_steps Hi)
      as (sts & Hsts & Hfn).
    destruct (Hfn env (note_step name wi)) as [Hf _]. simpl in Hf.
    rewrite Hfail in Hf. simpl in Hf.
    match goal with
    | |- context [close_done ?x] =>
        destruct (close_done_keeps x) as [-> ->]
    end.
    exists (concat (take (S i) step_states)), [StateError].
    assert (Hcat : concat (take (S i) step_states)
                   = concat (take i step_states) ++ sts).
    { rewrite (take_S_r _ _ _ Hsts), concat_app. simpl.
      by rewrite app_nil_r. }
    split.
    { rewrite Hcat. simpl. rewrite Hf, Hh, <- !app_assoc. reflexivity. }
    split; [apply concat_take_prefix|].
    split; [rewrite !elem_of_cons; auto 10|].
    split; [|done].
    intros Ha. apply list_elem_of_singleton in Ha. discriminate.
Qed.

(** A stop signal always ends the run.  If the stop channel is closed
    when [Run] starts, or is closed at any moment afterwards (before a
    step, during a step, or while the device is Active), [Run] returns and
    closes [doneCh], so that [Wait] returns; the device is left in Done or
    in Error, never in Active or in a stage of the onboarding. *)
Theorem Run_returns_when_stopped env c w :
  doneCh (dev w) = ChanOpen →
  is_closed (stopCh (dev w)) = true ∨ fires c = true →
  ∃ r, Run env c w = Returned r
    ∧ Wait (dev r) = true
    ∧ (GetState r = StateDone ∨ GetState r = StateError).
Proof.
  intros Hdone Hstop. unfold Run, Wait, GetState.
  destruct (run_steps_cases env c 0 steps w)
    as [(w1 & -> & Hex)
       |[(i & wi & Hi & Hex & ->)
        |(i & name & fn & wi & err & wf & Hi & Hex & Hfail & ->)]].
  - pose proof (DeviceSpec.exec_steps_frame env _ w w1
                  DeviceSpec.framed_steps Hex) as [_ _ S D _ _ _].
    simpl. rewrite S.
    assert (Hfires : is_closed (stopCh (dev w)) || fires c = true).
    { apply orb_true_iff. destruct Hstop; auto. }
    rewrite Hfires.
    set (wa := observe_stop _).
    destruct (cleanup_effect env wa) as (C1 & _ & _ & C4).
    assert (D' : doneCh (dev wa) = ChanOpen) by (by rewrite <- Hdone, <- D).
    unfold close_done. rewrite C4, D'. simpl.
    exists (with_dev (write_doneCh ChanClosed) (cleanup env wa)).
    split; [reflexivity|].
    cbn [with_dev write_doneCh dev State_ doneCh is_closed].
    rewrite C1. auto.
  - pose proof (DeviceSpec.exec_steps_frame env _ w wi
                  (Forall_take _ _ _ DeviceSpec.framed_steps) Hex)
      as [_ _ _ D _ _ _].
    unfold close_done. simpl. rewrite D, Hdone. simpl.
    eexists. split; [reflexivity|]. simpl. auto.
  - pose proof (DeviceSpec.exec_steps_frame env _ w wi
                  (Forall_take _ _ _ DeviceSpec.framed_steps) Hex)
      as [_ _ _ D _ _ _].
    assert (Hf : framed (name, fn)).
    { eapply (proj1 (Forall_forall _ _) DeviceSpec.framed_steps).
      by eapply list_elem_of_lookup_2. }
    specialize (Hf env (note_step name wi)). simpl in Hf.
    rewrite Hfail in Hf. destruct Hf as [_ _ _ D' _ _ _]. simpl in *.
    unfold close_done. simpl. rewrite D', D, Hdone. simpl.
    eexists. split; [reflexivity|]. simpl. auto.
Qed.

(** The stop signal comes while the fourth step is running. *)
Lemma Run_returns_when_stopped_witness :
  ∃ r, Run env_ok (CancelDuringStep 3) (fresh sample_device) = Returned r
    ∧ Wait (dev r) = true
    ∧ (GetState r = StateDone ∨ GetState r = StateError).
Proof.
  apply (Run_returns_when_stopped env_ok (CancelDuringStep 3)
           (fresh sample_device)).
  - reflexivity.
  - right. reflexivity.
Defined.

(** ** The order of the operations *)

Lemma ops_steps env w :
  Forall2 (λ (s : step) os,
             ∀ w', same_identity w w' →
               same_identity w (s.2 env w').2
               ∧ ∃ new, ops (s.2 env w').2 = ops w' ++ new
                        ∧ new `prefix_of` os
                        ∧ ((s.2 env w').1 = None → new = os))
          steps (step_ops env w).
Proof.
  unfold steps, step_ops.
  repeat apply Forall2_cons_2; try apply Forall2_nil_2;
    intros w' (Hid & Hhost & Hport); simpl;
    unfold_transport; unfold config_path, presenceTopic; simpl;
    rewrite ?Hid, ?Hhost, ?Hport, <- ?app_assoc;
    (split; [done|]);
    first [ by eexists; split; [reflexivity|]; split; [|done]
          | by exists []; rewrite app_nil_r; split; [done|];
               split; [apply prefix_nil|]
          | by eexists; split; [reflexivity|];
               split; [apply prefix_cons, prefix_nil|] ].
Qed.

Lemma exec_steps_ops env w ss oss :
  Forall2 (λ (s : step) os,
             ∀ w', same_identity w w' →
               same_identity w (s.2 env w').2
               ∧ ∃ new, ops (s.2 env w').2 = ops w' ++ new
                        ∧ new `prefix_of` os
                        ∧ ((s.2 env w').1 = None → new = os))
          ss oss →
  ∀ w0 w1, same_identity w w0 → exec_steps env ss w0 = Some w1 →
    same_identity w w1 ∧ ops w1 = ops w0 ++ concat oss.
Proof.
  induction 1 as [|[name fn] os ss oss Hfn Hss IH]; intros w0 w1 Hid Hex;
    simpl in *.
  - injection Hex as <-. by rewrite app_nil_r.
  - destruct (Hfn (note_step name w0) Hid) as (Hid' & new & Hops & _ & Hnew).
    simpl in *.
    destruct (fn env (note_step name w0)) as [[err|] w'] eqn:Hstep; [done|].
    simpl in *. rewrite (Hnew eq_refl) in Hops.
    destruct (IH w' w1 Hid' Hex) as [Hid1 Hops1].
    split; [done|]. by rewrite Hops1, Hops, <- app_assoc.
Qed.

Lemma cleanup_operations env w wa :
  same_identity w wa →
  client_set (mqtt (dev wa)) = true →
  client_closed (mqtt (dev wa)) = false →
  ops (cleanup env wa) = ops wa ++ cleanup_ops w.
Proof.
  intros (Hid & _ & _) Hset Hopen. unfold cleanup. cbv zeta.
  destruct (DeviceSpec.logout_effect env wa)
    as (O & _ & _ & _ & _ & I & M & _).
  set (w2 := (logout env wa).2) in *.
  unfold disconnect.
  rewrite M, Hset, (DeviceSpec.IsConnected_open env _ Hopen). simpl.
  rewrite O. unfold presenceTopic, cleanup_ops.
  by rewrite I, Hid, <- !app_assoc.
Qed.

(** No operation of the onboarding or of the cleanup is the announcement
    of the presence. *)
Lemma online_not_invoked env w new topic :
  new `prefix_of` concat (step_ops env w) ++ cleanup_ops w →
  BrokerPublish topic "online" ∉ new.
Proof.
  intros [rest Hnew] Hin.
  assert (Hall : BrokerPublish topic "online"
                 ∈ concat (step_ops env w) ++ cleanup_ops w).
  { rewrite Hnew. apply elem_of_app. by left. }
  unfold step_ops, cleanup_ops in Hall. simpl in Hall.
  repeat (apply elem_of_cons in Hall as [Hall|Hall]; [discriminate|]).
  by apply elem_of_nil in Hall.
Qed.

(** The handler may run before or after the subscription: both orders of
    the two operations are runs of the model. *)
Lemma on_connect_either_order env w :
  client_set (mqtt (dev w)) = true →
  let announce := BrokerPublish (presenceTopic w) "online" in
  let commands :=
    BrokerSubscribe ("/device/" +:+ DeviceID (dev w) +:+ "/commands") in
  ops (subscribe env (on_connect w)).2 = ops w ++ [announce; commands]
  ∧ ops (on_connect (subscribe env w).2) = ops w ++ [commands; announce].
Proof.
  intros Hset. unfold subscribe, on_connect, presenceTopic. simpl.
  rewrite Hset. simpl.
  destruct (subscribe_result env); simpl; by rewrite <- !app_assoc.
Qed.

(** [Run] invokes its transport operations in one fixed order: the six
    backend operations of the onboarding, then the connection to the
    broker and the subscription; an operation is counted when it is
    invoked, whether or not a request leaves.  A run that is cancelled or
    fails has invoked a beginning of that sequence and nothing else; in
    particular the broker is never contacted before the configuration has
    been accepted and read back.  A run that is waiting in Active has
    invoked exactly that sequence.  A run that was stopped while Active has
    added the logout, the farewell and the disconnect, and nothing else.
    [Run] never announces the presence itself: that is left to the handler
    of [on_connect], which the library runs on its own. *)
Theorem Run_operations env c w :
  ∃ e new,
    ops (world_of (Run env c w)) = ops w ++ new
    ∧ GetState (world_of (Run env c w)) = ending_state e
    ∧ match e with
      | EndCancelled | EndFailed => new `prefix_of` concat (step_ops env w)
      | EndWaiting => new = concat (step_ops env w)
      | EndCleanedUp => new = concat (step_ops env w) ++ cleanup_ops w
      end
    ∧ ∀ topic, BrokerPublish topic "online" ∉ new.
Proof.
  assert (Hmain : ∃ e new,
    ops (world_of (Run env c w)) = ops w ++ new
    ∧ GetState (world_of (Run env c w)) = ending_state e
    ∧ match e with
      | EndCancelled | EndFailed => new `prefix_of` concat (step_ops env w)
      | EndWaiting => new = concat (step_ops env w)
      | EndCleanedUp => new = concat (step_ops env w) ++ cleanup_ops w
      end).
  2: { destruct Hmain as (e & new & Hops & Hstate & Hnew).
       exists e, new. repeat split; try done.
       intros topic. apply (online_not_invoked env w).
       destruct e; rewrite ?Hnew;
         first [ done | by apply prefix_app_r ]. }
  unfold Run, GetState.
  assert (Hself : same_identity w w) by done.
  assert (Hclose : ∀ x, ops (world_of (close_done x)) = ops x
                        ∧ State_ (dev (world_of (close_done x)))
                          = State_ (dev x)).
  { intros x. unfold close_done. by destruct (chan_close (doneCh (dev x))). }
  destruct (run_steps_cases env c 0 steps w)
    as [(w1 & -> & Hex)
       |[(i & wi & Hi & Hex & ->)
        |(i & name & fn & wi & err & wf & Hi & Hex & Hfail & ->)]].
  - destruct (exec_steps_ops env w _ _ (ops_steps env w) w w1 Hself Hex)
      as [Hid Hops].
    destruct (DeviceSpec.exec_steps_client_set env w w1 Hex) as [Hset Hopen].
    match goal with
    | |- context [if ?b then _ else _] => destruct b
    end.
    + exists EndCleanedUp.
      set (wa := observe_stop _).
      destruct (Hclose (cleanup env wa)) as [-> ->].
      destruct (cleanup_effect env wa) as (-> & _).
      rewrite (cleanup_operations env w wa Hid Hset Hopen).
      eexists. split; [|split; [done|reflexivity]].
      subst wa. simpl. by rewrite Hops, <- app_assoc.
    + exists EndWaiting. eexists. split; [|split; [done|reflexivity]].
      simpl. exact Hops.
  - destruct (exec_steps_ops env w _ _
                (Forall2_take _ _ _ i (ops_steps env w)) w wi Hself Hex)
      as [Hid Hops].
    exists EndCancelled.
    destruct (Hclose (setState StateDone (observe_stop wi))) as [-> ->].
    eexists. split; [exact Hops|]. split; [done|].
    rewrite <- (take_drop i (step_ops env w)) at 2.
    rewrite concat_app. by apply prefix_app_r.
  - destruct (exec_steps_ops env w _ _
                (Forall2_take _ _ _ i (ops_steps env w)) w wi Hself Hex)
      as [Hid Hops].
    destruct (Forall2_lookup_l _ _ _ _ _ (ops_steps env w) Hi)
      as (os & Hos & Hfn).
    destruct (Hfn (note_step name wi) Hid) as (_ & new & Hnew & Hpre & _).
    simpl in Hnew. rewrite Hfail in Hnew. simpl in Hnew.
    exists EndFailed.
    match goal with
    | |- context [close_done ?x] => destruct (Hclose x) as [-> ->]
    end.
    eexists. split; [|split; [done|]].
    { simpl. rewrite Hnew, Hops, <- app_assoc. reflexivity. }
    assert (Hsplit : concat (step_ops env w)
              = concat (take i (step_ops env w))
                ++ os ++ concat (drop (S i) (step_ops env w))).
    { rewrite <- (take_drop_middle _ _ _ Hos) at 1.
      by rewrite concat_app, concat_cons. }
    rewrite Hsplit. apply prefix_app, prefix_app_r, Hpre.
Qed.

(** ** The backend operations *)

(** Each of the eight backend operations makes exactly one call.  If the
    request cannot be built, the error is returned and nothing is logged.
    If the transport fails, the error is returned and an entry with status
    0, not OK, is logged.  If a response arrives, one entry with its
    status is logged, OK exactly for the statuses 200 to 299, and the
    operation succeeds exactly when the status is one that it accepts;
    otherwise its error names the operation and the status.  Every accepted
    status is logged OK, but a response logged OK may still fail the
    operation. *)
Theorem backend_operation_contract :
  Forall (λ op : string * (Env → World → option string * World) * list Z,
            ∀ env w,
              requests (op.1.2 env w).2 = S (requests w)
              ∧ Forall (λ status, status_ok status = true) op.2
              ∧ match http_result env (requests w) with
                | RequestError msg =>
                    (op.1.2 env w).1 = Some msg
                    ∧ GetHTTPLog (op.1.2 env w).2 = GetHTTPLog w
                | TransportError msg =>
                    (op.1.2 env w).1 = Some msg
                    ∧ ∃ e, GetHTTPLog (op.1.2 env w).2 = GetHTTPLog w ++ [e]
                           ∧ Status e = 0 ∧ OK e = false
                | Response status =>
                    (op.1.2 env w).1
                    = (if bool_decide (status ∈ op.2) then None
                       else Some (op.1.1 +:+ " returned " +:+ pretty status))
                    ∧ ∃ e, GetHTTPLog (op.1.2 env w).2 = GetHTTPLog w ++ [e]
                           ∧ Status e = status ∧ OK e = status_ok status
                end)
         backend_ops.
Proof.
  unfold backend_ops.
  repeat apply Forall_cons_2; try apply Forall_nil_2; intros env w;
    (split; [unfold_transport; reflexivity|]);
    (split; [repeat apply Forall_cons_2; try apply Forall_nil_2; reflexivity|]);
    unfold GetHTTPLog; cbn [fst snd];
    destruct (http_result env (requests w)) as [msg|msg|status] eqn:Hans;
    unfold registerDevice, registerUser, login, linkDevice, setConfig,
      getConfig, refresh, logout, do, doWithTimeout; simpl; rewrite Hans;
      simpl; try destruct (bool_decide _); simpl;
      (split; [reflexivity|]);
      first [reflexivity | eexists; repeat split; reflexivity].
Qed.

(** A manual refresh makes one call, [POST /refresh/<id>], and leaves the
    lifecycle alone whether it succeeds or not: the state, the error text,
    the states written, the events, the channels and the broker client are
    as before; its error is returned to the caller only. *)
Theorem ForceRefresh_keeps_lifecycle env w :
  let w' := (ForceRefresh env w).2 in
  GetState w' = GetState w
  ∧ GetErrorMsg w' = GetErrorMsg w
  ∧ history w' = history w
  ∧ eventCh w' = eventCh w
  ∧ stopCh (dev w') = stopCh (dev w)
  ∧ doneCh (dev w') = doneCh (dev w)
  ∧ mqtt (dev w') = mqtt (dev w)
  ∧ ops w' = ops w ++ [BackendCall "POST"
                         ("/refresh/" +:+ PathEscape env (DeviceID (dev w)))
                         15].
Proof.
  unfold ForceRefresh, GetState, GetErrorMsg. unfold_transport; done.
Qed.

(** ** Messages *)

(** The message log is never trimmed: after any number of deliveries to a
    device the log holds every message in the order of arrival, after what
    it held before, and the counter has grown by their number (as long as
    it stays below 2^63).  Nothing else of the device changes. *)
Theorem on_message_log (msgs : list (string * string)) (w : World) :
  0 ≤ GetMQTTCount w →
  GetMQTTCount w + Z.of_nat (length msgs) < 2 ^ 63 →
  let w' := foldl (λ w m, on_message m.1 m.2 w) w msgs in
  GetMQTTMsgs w'
  = GetMQTTMsgs w ++ ((λ m, mkMQTTMessage m.1 m.2) <$> msgs)
  ∧ GetMQTTCount w' = GetMQTTCount w + Z.of_nat (length msgs)
  ∧ GetState w' = GetState w
  ∧ GetHTTPLog w' = GetHTTPLog w.
Proof.
  revert w. induction msgs as [|m msgs IH]; intros w Hpos Hsmall; simpl.
  - rewrite app_nil_r. repeat split; try done. lia.
  - assert (Hone : GetMQTTCount (on_message m.1 m.2 w) = GetMQTTCount w + 1).
    { unfold on_message, addMQTTMsg, GetMQTTCount in *. simpl in *.
      apply wrap64_id. unfold int64_range. lia. }
    destruct (IH (on_message m.1 m.2 w)) as (Hlog & Hcount & Hst & Hhttp).
    { lia. }
    { simpl in Hsmall. lia. }
    rewrite Hlog, Hcount, Hst, Hhttp, Hone.
    unfold on_message, addMQTTMsg, GetMQTTMsgs, GetState, GetHTTPLog.
    simpl. rewrite <- app_assoc. repeat split; try done. lia.
Qed.

(** Two deliveries to a new device. *)
Lemma on_message_log_witness :
  let w' := foldl (λ w m, on_message m.1 m.2 w) (fresh sample_device)
                  [("t", "a"); ("t", "b")] in
  GetMQTTMsgs w'
  = GetMQTTMsgs (fresh sample_device)
    ++ ((λ m, mkMQTTMessage m.1 m.2) <$> [("t", "a"); ("t", "b")])
  ∧ GetMQTTCount w' = GetMQTTCount (fresh sample_device) + Z.of_nat 2
  ∧ GetState w' = GetState (fresh sample_device)
  ∧ GetHTTPLog w' = GetHTTPLog (fresh sample_device).
Proof.
  apply (on_message_log [("t", "a"); ("t", "b")] (fresh sample_device));
    vm_compute; [discriminate | reflexivity].
Defined.

End DeviceMore.

(** * More about the runner *)

Module RunnerMore.
Import device runner.

(** ** Construction succeeds for a served distribution *)

Section construction.
Variable catalog : gmap string (list providers.Stop).
Variable range_order : nat → gmap string Z → list (string * Z).
Variable shuffle : list string → list string.
Variable rnd : nat → nat.
Variable uuid : nat → string.

Lemma new_devices_ok cfg count i assign devices :
  length assign = (i + count)%nat →
  (∀ k, k ∈ assign → providers.served catalog k) →
  ∃ ds, new_devices catalog rnd uuid cfg count i assign devices
        = Returns (inr (devices ++ ds))
    ∧ length ds = count
    ∧ ∀ j d, ds !! j = Some d →
        ∃ k stops, assign !! (i + j)%nat = Some k
          ∧ catalog !! k = Some stops ∧ Stop d ∈ stops
          ∧ d = device.New (ServerURL cfg) (SecretKey cfg) (MQTTHost cfg)
                  (MQTTUsername cfg) (MQTTPassword cfg) (MQTTPort cfg)
                  (Stop d) (uuid (2 * (i + j))%nat)
                  (uuid (2 * (i + j) + 1)%nat).
Proof.
  revert i devices. induction count as [|count IH]; intros i devices Hlen Hok.
  - exists []. simpl. rewrite app_nil_r. repeat split; try done.
  - cbn [new_devices].
    destruct (lookup_lt_is_Some_2 assign i ltac:(lia)) as [k Hk].
    rewrite Hk.
    destruct (Hok k) as (stops & Hstops & Hne);
      [by eapply list_elem_of_lookup_2|].
    destruct (providers.PickStopIn catalog (rnd i) k) as [stop ok] eqn:Hpick.
    destruct ok.
    + destruct (ProvidersMore.PickStopIn_member _ _ _ _ Hpick)
        as (stops' & Hstops' & Hin).
      destruct (IH (S i)
                  (devices ++
                   [device.New (ServerURL cfg) (SecretKey cfg) (MQTTHost cfg)
                      (MQTTUsername cfg) (MQTTPassword cfg) (MQTTPort cfg)
                      stop (uuid (2 * i)%nat) (uuid (2 * i + 1)%nat)]))
        as (ds & -> & Hds & Hall); [lia|done|].
      eexists (_ :: ds). rewrite <- app_assoc. split; [reflexivity|].
      split; [simpl; lia|].
      intros [|j] d Hd; simpl in Hd.
      * injection Hd as <-. exists k, stops'.
        rewrite !Nat.add_0_r. repeat split; try done.
        simpl. rewrite !Nat.add_0_r. reflexivity.
      * destruct (Hall j d Hd) as (k' & stops'' & Hk' & ? & ? & Heq).
        exists k', stops''.
        replace (i + S j)%nat with (S i + j)%nat by lia. done.
    + assert (Hbad : unserved catalog k).
      { apply (RunnerSpec.PickStopIn_fails catalog (rnd i)).
        by rewrite Hpick. }
      destruct Hbad as [Hbad|Hbad]; congruence.
Qed.

End construction.

Lemma new_devices_length catalog rnd uuid cfg count :
  ∀ i assign devices ds,
    new_devices catalog rnd uuid cfg count i assign devices
    = Returns (inr ds) →
    length ds = (length devices + count)%nat.
Proof.
  induction count as [|count IH]; intros i assign devices ds; simpl.
  - intros [= <-]. lia.
  - destruct (assign !! i) as [k|]; [|done].
    destruct (providers.PickStopIn catalog (rnd i) k) as [stop []]; [|done].
    intros Hds. apply IH in Hds. rewrite length_app in Hds. simpl in Hds. lia.
Qed.

Lemma NewIn_returns catalog range_order shuffle rnd uuid fuel cfg r :
  NewIn catalog range_order shuffle rnd uuid fuel cfg = Returns (inr r) →
  Cfg r = cfg
  ∧ Z.of_nat (length (Devices_ r)) = Devices cfg
  ∧ EventCh_cap r = wrap64 (Devices cfg * 4)
  ∧ 0 ≤ EventCh_cap r.
Proof.
  unfold NewIn.
  destruct (providers.AssignProviders _ _ _ _ _) as [assign| |] eqn:Hassign;
    [|done..].
  destruct (RunnerSpec.AssignProviders_length _ _ _ _ _ _ Hassign) as [Hn _].
  destruct (Z.ltb_spec (wrap64 (Devices cfg * 4)) 0); [done|].
  destruct (new_devices _ _ _ _ _ _ _ _) as [[err|ds]| |] eqn:Hds;
    [done| |done..].
  intros [= <-]. simpl. split; [done|].
  apply new_devices_length in Hds. simpl in Hds. split; [lia|done].
Qed.

Lemma NewIn_built
    (catalog : gmap string (list providers.Stop))
    (range_order : nat → gmap string Z → list (string * Z))
    (shuffle : list string → list string)
    (rnd : nat → nat) (uuid : nat → string)
    (fuel : nat) (cfg : Config) :
  (∀ j m, range_order j m ≡ₚ map_to_list m) →
  (∀ l, shuffle l ≡ₚ l) →
  0 ≤ Devices cfg → 4 * Devices cfg < 2 ^ 63 →
  (Z.to_nat (Devices cfg) ≤ fuel)%nat →
  Providers cfg ≠ ∅ →
  (∀ k, k ∈ dom (Providers cfg) → providers.served catalog k) →
  ∃ ds, NewIn catalog range_order shuffle rnd uuid fuel cfg
        = Returns (inr (mkRunner cfg ds
                          (mkStats (Devices cfg) 0 0 0 (replicate 5 0) 0)
                          (Devices cfg * 4) [] ChanOpen))
    ∧ length ds = Z.to_nat (Devices cfg)
    ∧ ∀ j d, ds !! j = Some d →
        ∃ k stops, k ∈ dom (Providers cfg)
          ∧ catalog !! k = Some stops ∧ Stop d ∈ stops
          ∧ d = device.New (ServerURL cfg) (SecretKey cfg) (MQTTHost cfg)
                  (MQTTUsername cfg) (MQTTPassword cfg) (MQTTPort cfg)
                  (Stop d) (uuid (2 * j)%nat) (uuid (2 * j + 1)%nat).
Proof.
  intros Hro Hsh Hn Hcap Hfuel Hne Hserved. unfold NewIn.
  destruct (ProvidersMore.fill_terminates range_order fuel (Devices cfg)
              (Providers cfg) 1
              (providers.weighted_base (Devices cfg)
                 (range_order 0%nat (Providers cfg))) Hro Hne)
    as (w' & added & Hfill & Hlen & Hw' & Hin); [lia|].
  destruct (providers.AssignProviders range_order shuffle fuel
              (Devices cfg) (Providers cfg)) as [assign| |] eqn:Hassign.
  2,3: unfold providers.AssignProviders in Hassign;
       destruct (Z.ltb_spec (Devices cfg) 0); [lia|];
       rewrite Hfill in Hassign;
       assert (length (shuffle w') = length w') by (by rewrite Hsh);
       destruct (Z.ltb_spec (Z.of_nat (length (shuffle w'))) (Devices cfg));
       [lia|done].
  destruct (RunnerSpec.AssignProviders_length _ _ _ _ _ _ Hassign)
    as [_ Hlena].
  assert (Hkeys : ∀ k, k ∈ assign → k ∈ dom (Providers cfg)).
  { unfold providers.AssignProviders in Hassign.
    destruct (Z.ltb_spec (Devices cfg) 0); [lia|].
    rewrite Hfill in Hassign.
    destruct (Z.ltb_spec (Z.of_nat (length (shuffle w'))) (Devices cfg));
      [done|].
    injection Hassign as <-.
    intros k Hk. apply elem_of_take in Hk as (i & Hi & _).
    apply list_elem_of_lookup_2 in Hi. rewrite Hsh, Hw' in Hi.
    assert (Hkey : k ∈ providers.dist_keys (Providers cfg)).
    { apply elem_of_app in Hi as [Hi|Hi]; [|by apply Hin].
      rewrite ProvidersSpec.weighted_base_bind in Hi.
      apply ProvidersSpec.elem_of_base in Hi.
      by rewrite (ProvidersSpec.enum_keys _ _ (Hro 0%nat (Providers cfg)))
        in Hi. }
    unfold providers.dist_keys in Hkey.
    apply list_elem_of_fmap in Hkey as ([k' p] & -> & Hkey).
    apply elem_of_map_to_list in Hkey. apply elem_of_dom. by exists p. }
  rewrite wrap64_id by (unfold int64_range; lia).
  destruct (Z.ltb_spec (Devices cfg * 4) 0); [lia|].
  destruct (new_devices_ok catalog rnd uuid cfg (Z.to_nat (Devices cfg)) 0
              assign [])
    as (ds & -> & Hds & Hall); [done|by intros k Hk; apply Hserved, Hkeys|].
  exists ds. split; [reflexivity|]. split; [done|].
  intros j d Hd.
  destruct (Hall j d Hd) as (k & stops & Hk & Hstops & Hstop & Heq).
  exists k, stops. split; [|done].
  apply Hkeys. by eapply list_elem_of_lookup_2.
Qed.

(** For a count that is not negative and a non-empty distribution all of
    whose categories have targets, construction returns a runner, whatever
    the percentages: it holds exactly as many devices as asked for, each
    new (state Init, both channels open), each with a target from the list
    of a category of the distribution, and with the identifier built from
    its own draw of the generator; the statistics start at zero, the event
    channel has room for four events per device, and the stop channel is
    open.  If the generator never repeats, no two devices share an
    identifier. *)
Theorem New_succeeds
    (catalog : gmap string (list providers.Stop))
    (range_order : nat → gmap string Z → list (string * Z))
    (shuffle : list string → list string)
    (rnd : nat → nat) (uuid : nat → string)
    (fuel : nat) (cfg : Config) :
  (∀ j m, range_order j m ≡ₚ map_to_list m) →
  (∀ l, shuffle l ≡ₚ l) →
  0 ≤ Devices cfg → 4 * Devices cfg < 2 ^ 63 →
  (Z.to_nat (Devices cfg) ≤ fuel)%nat →
  Providers cfg ≠ ∅ →
  (∀ k, k ∈ dom (Providers cfg) → providers.served catalog k) →
  ∃ r, NewIn catalog range_order shuffle rnd uuid fuel cfg = Returns (inr r)
    ∧ Cfg r = cfg
    ∧ Stats_ r = mkStats (Devices cfg) 0 0 0 [0; 0; 0; 0; 0] 0
    ∧ EventCh_cap r = 4 * Devices cfg
    ∧ EventCh r = [] ∧ StopCh r = ChanOpen
    ∧ Z.of_nat (length (Devices_ r)) = Devices cfg
    ∧ (∀ j d, Devices_ r !! j = Some d →
         State_ d = StateInit ∧ stopCh d = ChanOpen ∧ doneCh d = ChanOpen
         ∧ DeviceID d = ("loadtest-" +:+ uuid (2 * j)%nat)
         ∧ ∃ k stops, k ∈ dom (Providers cfg)
                      ∧ catalog !! k = Some stops ∧ Stop d ∈ stops)
    ∧ ((∀ a b, uuid a = uuid b → a = b) → NoDup (DeviceID <$> Devices_ r)).
Proof.
  intros Hro Hsh Hn Hcap Hfuel Hne Hserved.
  destruct (NewIn_built catalog range_order shuffle rnd uuid fuel cfg)
    as (ds & -> & Hds & Hall); try done.
  eexists. split; [reflexivity|]. cbn [Cfg Stats_ EventCh_cap EventCh StopCh
                                       Devices_].
  assert (Hdev : ∀ j d, ds !! j = Some d →
            State_ d = StateInit ∧ stopCh d = ChanOpen ∧ doneCh d = ChanOpen
            ∧ DeviceID d = ("loadtest-" +:+ uuid (2 * j)%nat)
            ∧ ∃ k stops, k ∈ dom (Providers cfg)
                         ∧ catalog !! k = Some stops ∧ Stop d ∈ stops).
  { intros j d Hd.
    destruct (Hall j d Hd) as (k & stops & Hk & Hstops & Hstop & Heq).
    rewrite Heq. cbn [device.New State_ stopCh doneCh DeviceID].
    do 4 (split; [done|]). exists k, stops. by rewrite <- Heq. }
  do 2 (split; [done|]). split; [lia|]. do 2 (split; [done|]).
  split; [lia|]. split; [exact Hdev|].
  intros Hinj. apply NoDup_alt. intros a b id Ha Hb.
  rewrite list_lookup_fmap in Ha, Hb.
  destruct (ds !! a) as [da|] eqn:Hda; [|done].
  destruct (ds !! b) as [db|] eqn:Hdb; [|done].
  destruct (Hdev a da Hda) as (_ & _ & _ & Hida & _).
  destruct (Hdev b db Hdb) as (_ & _ & _ & Hidb & _).
  simpl in Ha, Hb. injection Ha as <-. injection Hb as Hb.
  rewrite Hida, Hidb in Hb. simpl in Hb.
  injection Hb as Hb. apply Hinj in Hb. lia.
Qed.

(** Four devices, half on each of two curated providers. *)
Lemma New_succeeds_witness :
  let cfg := mkConfig "https://staging.example" "key" "broker" 1883
               "user" "secret" 4 (<["mta" := 50]> (<["cta" := 50]> ∅)) 0 in
  ∃ r, NewIn providers.stopsByProvider (λ _ m, map_to_list m) id (λ i, i)
             (λ i, pretty i) 4 cfg = Returns (inr r)
    ∧ Cfg r = cfg
    ∧ Stats_ r = mkStats (Devices cfg) 0 0 0 [0; 0; 0; 0; 0] 0
    ∧ EventCh_cap r = 4 * Devices cfg
    ∧ EventCh r = [] ∧ StopCh r = ChanOpen
    ∧ Z.of_nat (length (Devices_ r)) = Devices cfg
    ∧ (∀ j d, Devices_ r !! j = Some d →
         State_ d = StateInit ∧ stopCh d = ChanOpen ∧ doneCh d = ChanOpen
         ∧ DeviceID d = ("loadtest-" +:+ pretty (2 * j)%nat)
         ∧ ∃ k stops, k ∈ dom (Providers cfg)
                      ∧ providers.stopsByProvider !! k = Some stops
                      ∧ Stop d ∈ stops)
    ∧ ((∀ a b : nat, pretty a = pretty b → a = b) →
       NoDup (DeviceID <$> Devices_ r)).
Proof.
  apply (New_succeeds providers.stopsByProvider (λ _ m, map_to_list m) id
           (λ i, i) (λ i, pretty i) 4).
  - intros; reflexivity.
  - intros; reflexivity.
  - simpl; lia.
  - simpl; lia.
  - simpl; lia.
  - intros H. apply (f_equal (λ m : gmap string Z, m !! "mta")) in H.
    vm_compute in H. discriminate.
  - intros k Hk. simpl in Hk. apply elem_of_dom in Hk as [p Hp].
    destruct (decide (k = "mta")) as [->|Hmta].
    { eexists. split; [vm_compute; reflexivity|discriminate]. }
    rewrite lookup_insert_ne in Hp by done.
    destruct (decide (k = "cta")) as [->|Hcta].
    { eexists. split; [vm_compute; reflexivity|discriminate]. }
    rewrite lookup_insert_ne in Hp by done.
    by rewrite lookup_empty in Hp.
Defined.

(** ** Shutting down more than once, one call after the other *)

(** Any number of calls of the runner's [Shutdown], one after the other,
    succeed, and all of them after the first change nothing: the stop
    channel of the runner and of every device is closed, and nothing else
    of the runner or of a device is touched. *)
Theorem Shutdown_repeated (r : Runner) (n : nat) :
  ∃ r', Nat.iter (S n) (λ o, o ≫= Shutdown) (Some r) = Some r'
    ∧ StopCh r' = ChanClosed
    ∧ Forall2 (λ d d', stopCh d' = ChanClosed
                       ∧ write_stopCh (stopCh d) d' = write_stopCh (stopCh d) d)
              (Devices_ r) (Devices_ r')
    ∧ Cfg r' = Cfg r ∧ Stats_ r' = Stats_ r
    ∧ EventCh_cap r' = EventCh_cap r ∧ EventCh r' = EventCh r.
Proof.
  set (shut := λ r, mkRunner (Cfg r) (stopped <$> Devices_ r) (Stats_ r)
                             (EventCh_cap r) (EventCh r) ChanClosed).
  assert (Hone : ∀ r, Shutdown r = Some (shut r)).
  { intros r0. unfold Shutdown. rewrite RunnerSpec.mapM_Shutdown.
    by destruct (StopCh r0). }
  assert (Hidem : ∀ r, shut (shut r) = shut r).
  { intros r0. unfold shut. simpl. f_equal.
    rewrite <- list_fmap_compose. apply list_fmap_ext.
    intros; apply DeviceSpec.stopped_idemp. }
  exists (shut r). split.
  - induction n as [|n IH]; [apply Hone|].
    change (Nat.iter (S (S n)) (λ o, o ≫= Shutdown) (Some r))
      with (Nat.iter (S n) (λ o, o ≫= Shutdown) (Some r) ≫= Shutdown).
    rewrite IH. simpl. by rewrite Hone, Hidem.
  - simpl. repeat split; try done.
    apply Forall2_fmap_r, Forall_Forall2_diag, Forall_forall.
    intros d _. unfold stopped.
    destruct d as [? ? ? ? ? ? ? ? ? ? ? ? [] ?]; done.
Qed.

(** ** The counters of the event loop *)

Lemma on_event_counts program ev st :
  0 ≤ ErrorCount (stats st) → ErrorCount (stats st) + 1 < 2 ^ 63 →
  ErrorCount (stats (on_event program ev st))
  = ErrorCount (stats st) + (if is_error_event ev then 1 else 0)
  ∧ forwarded (on_event program ev st)
    = forwarded st ++ (if program then [EventMsg ev] else [])
  ∧ TotalDevices (stats (on_event program ev st)) = TotalDevices (stats st)
  ∧ MQTTTotal (stats (on_event program ev st)) = MQTTTotal (stats st)
  ∧ lastTotal (on_event program ev st) = lastTotal st.
Proof.
  intros H0 H1. unfold on_event, is_error_event, forward.
  destruct (ev_Type ev); simpl;
    try destruct (0 <? ActiveDevices (stats st)); simpl;
    rewrite ?wrap64_id by (unfold int64_range; lia);
    destruct program; rewrite ?app_nil_r; repeat split; first [done | lia].
Qed.

Lemma on_tick_counts program counts st :
  0 ≤ windowIdx (stats st) → windowIdx (stats st) + 1 < 2 ^ 63 →
  ∃ st', on_tick program counts st = Some st'
    ∧ ErrorCount (stats st') = ErrorCount (stats st)
    ∧ ActiveDevices (stats st') = ActiveDevices (stats st)
    ∧ windowIdx (stats st') = windowIdx (stats st) + 1
    ∧ forwarded st' = forwarded st ++ (if program then [TickMsg] else [])
    ∧ TotalDevices (stats st') = TotalDevices (stats st)
    ∧ MQTTTotal (stats st') = sum64 counts
    ∧ lastTotal st' = sum64 counts.
Proof.
  intros H0 H1. unfold on_tick.
  pose proof (Z.rem_nonneg (windowIdx (stats st)) 5 ltac:(lia) H0).
  destruct (Z.ltb_spec (Z.rem (windowIdx (stats st)) 5) 0); [lia|].
  eexists. split; [reflexivity|]. simpl.
  rewrite wrap64_id by (unfold int64_range; lia).
  unfold forward. destruct program; rewrite ?app_nil_r; done.
Qed.

(** The loop returns exactly when an input tells it that a channel was
    closed, and nothing after that input has any effect.  Of the inputs
    before it, every event and every tick is passed to the display, in the
    order received, if there is a display, and none otherwise; the error
    count grows by the number of error events; the published total is the
    one of the latest tick; the number of devices is never changed.
    (Fewer than 2^63 inputs, so that no counter wraps.) *)
Theorem processEvents_summary program ins st :
  0 ≤ ErrorCount (stats st) →
  ErrorCount (stats st) + Z.of_nat (length ins) < 2 ^ 63 →
  0 ≤ windowIdx (stats st) →
  windowIdx (stats st) + Z.of_nat (length ins) < 2 ^ 63 →
  ∃ st',
    processEvents program ins st
    = Some (if existsb is_exit ins then Exited else Waiting, st')
    ∧ processEvents program (handled ins) st = Some (Waiting, st')
    ∧ ErrorCount (stats st')
      = ErrorCount (stats st)
        + Z.of_nat (length (filter (λ ev, is_error_event ev = true)
                                   (omap event_of (handled ins))))
    ∧ forwarded st'
      = forwarded st ++ (if program then omap message_of (handled ins) else [])
    ∧ MQTTTotal (stats st') = default (MQTTTotal (stats st)) (last (totals ins))
    ∧ TotalDevices (stats st') = TotalDevices (stats st).
Proof.
  revert st. induction ins as [|i ins IH]; intros st He Heb Hw Hwb.
  - exists st. simpl. rewrite Z.add_0_r.
    destruct program; rewrite app_nil_r; done.
  - simpl length in *. destruct i as [ev| |counts|]; simpl.
    + destruct (on_event_counts program ev st He ltac:(lia))
        as (Herr & Hfwd & Htot & Hmq & _).
      destruct (IH (on_event program ev st))
        as (st' & Hrun & Hhandled & Herr' & Hfwd' & Hmq' & Htot');
        rewrite ?RunnerSpec.on_event_windowIdx;
        try (destruct (is_error_event ev); lia).
      exists st'. split; [done|]. split; [done|].
      rewrite Herr', Hfwd', Hmq', Htot', Herr, Hfwd, Htot, Hmq.
      rewrite filter_cons. split.
      { destruct (is_error_event ev) eqn:Hev.
        - rewrite decide_True by done. unfold omap. simpl. lia.
        - rewrite decide_False by done. unfold omap. simpl. lia. }
      split; [|done].
      rewrite <- app_assoc. by destruct program.
    + exists st. rewrite Z.add_0_r.
      destruct program; rewrite app_nil_r; done.
    + destruct (on_tick_counts program counts st Hw ltac:(lia))
        as (st1 & -> & Herr & _ & Hidx & Hfwd & Htot & Hmq & _).
      destruct (IH st1)
        as (st' & Hrun & Hhandled & Herr' & Hfwd' & Hmq' & Htot'); try lia.
      exists st'. split; [done|]. split; [done|].
      rewrite Herr', Hfwd', Hmq', Htot', Herr, Hfwd, Htot, Hmq.
      split; [done|]. split; [rewrite <- app_assoc; by destruct program|].
      split; [|done].
      rewrite last_cons. by destruct (last (totals ins)).
    + exists st. rewrite Z.add_0_r.
      destruct program; rewrite app_nil_r; done.
Qed.

(** ** The counters and the devices *)

Lemma sum_Z_fmap_cons {A} (f : A → Z) a (ls : list A) :
  sum_Z (f <$> a :: ls) = f a + sum_Z (f <$> ls).
Proof. reflexivity. Qed.

Lemma sum_Z_insert {A} (f : A → Z) (ls : list A) i x y :
  ls !! i = Some x →
  sum_Z (f <$> <[i := y]> ls) = sum_Z (f <$> ls) - f x + f y.
Proof.
  revert i. induction ls as [|a ls IH]; intros [|i] Hi; try done.
  - injection Hi as ->. simpl. lia.
  - pose proof (IH i Hi) as IHi.
    change (sum_Z (f <$> <[S i := y]> (a :: ls)))
      with (f a + sum_Z (f <$> <[i := y]> ls)).
    change (sum_Z (f <$> a :: ls)) with (f a + sum_Z (f <$> ls)).
    lia.
Qed.

Lemma due_done_nonneg ls : 0 ≤ sum_Z (due_done <$> ls).
Proof.
  induction ls as [|l ls IH]; [done|]. rewrite sum_Z_fmap_cons.
  assert (0 ≤ due_done l); [|lia].
  unfold due_done. destruct (ev_Type <$> l) as [|[] [|? ?]]; lia.
Qed.

Lemma lifecycle_events_cases ev xs :
  lifecycle_events (ev :: xs) →
  (ev_Type ev = EventError ∧ xs = [])
  ∨ (ev_Type ev = EventActive ∧ xs = [])
  ∨ (ev_Type ev = EventActive ∧ ev_Type <$> xs = [EventDone])
  ∨ (ev_Type ev = EventDone ∧ xs = []).
Proof.
  unfold lifecycle_events. rewrite fmap_cons, !elem_of_cons.
  intros [H|[H|[H|[H|[H|H]]]]]; try discriminate;
    try (by apply elem_of_nil in H);
    injection H as Hty Hxs; try apply fmap_nil_inv in Hxs; auto.
Qed.

Lemma on_event_step program ev st :
  0 ≤ ActiveDevices (stats st) → ActiveDevices (stats st) + 1 < 2 ^ 63 →
  0 ≤ ErrorCount (stats st) → ErrorCount (stats st) + 1 < 2 ^ 63 →
  ActiveDevices (stats (on_event program ev st))
  = ActiveDevices (stats st)
    + match ev_Type ev with
      | EventActive => 1
      | EventDone => if 0 <? ActiveDevices (stats st) then -1 else 0
      | _ => 0
      end
  ∧ ErrorCount (stats (on_event program ev st))
    = ErrorCount (stats st)
      + match ev_Type ev with EventError => 1 | _ => 0 end.
Proof.
  intros Ha Hab He Heb. unfold on_event.
  destruct (ev_Type ev); simpl;
    try destruct (Z.ltb_spec 0 (ActiveDevices (stats st))); simpl;
    rewrite ?wrap64_id by (unfold int64_range; lia); lia.
Qed.

Lemma processEvents_interleaving program ins :
  ∀ ls st,
    interleaving ls (omap event_of ins) →
    Forall (λ i, is_exit i = false) ins →
    Forall lifecycle_events ls →
    sum_Z (due_done <$> ls) ≤ ActiveDevices (stats st) →
    ActiveDevices (stats st) + Z.of_nat (length ins) < 2 ^ 63 →
    0 ≤ ErrorCount (stats st) →
    ErrorCount (stats st) + Z.of_nat (length ins) < 2 ^ 63 →
    0 ≤ windowIdx (stats st) →
    windowIdx (stats st) + Z.of_nat (length ins) < 2 ^ 63 →
    ∃ st', processEvents program ins st = Some (Waiting, st')
      ∧ ActiveDevices (stats st')
        = ActiveDevices (stats st) + sum_Z (net_active <$> ls)
      ∧ ErrorCount (stats st')
        = ErrorCount (stats st) + sum_Z (net_error <$> ls).
Proof.
  induction ins as [|i ins IH];
    intros ls st Hil Hne Hok Hdue Hab He Heb Hw Hwb.
  - exists st. split; [done|].
    inversion Hil as [ls' Hall|]; subst.
    assert (Hz : sum_Z (net_active <$> ls) = 0 ∧ sum_Z (net_error <$> ls) = 0).
    { clear -Hall. induction Hall as [|l ls -> _ [IH1 IH2]]; [done|].
      rewrite !sum_Z_fmap_cons, IH1, IH2. done. }
    lia.
  - apply Forall_cons in Hne as [Hi Hne]. simpl length in *.
    pose proof (due_done_nonneg ls) as Hdue0.
    destruct i as [ev| |counts|]; try discriminate; simpl in Hil |- *.
    + inversion Hil as [|ls' j x xs l Hj Hrest]; subst.
      assert (Hokj : lifecycle_events (ev :: xs)).
      { eapply (proj1 (Forall_forall _ _) Hok).
        by eapply list_elem_of_lookup_2. }
      pose proof (sum_Z_insert due_done ls j _ xs Hj) as Sdue.
      pose proof (sum_Z_insert net_active ls j _ xs Hj) as Sact.
      pose proof (sum_Z_insert net_error ls j _ xs Hj) as Serr.
      pose proof (due_done_nonneg (<[j := xs]> ls)) as Hdue1.
      assert (Hok' : Forall lifecycle_events (<[j := xs]> ls)).
      { apply Forall_insert; [done|].
        destruct (lifecycle_events_cases ev xs Hokj)
          as [[_ ->]|[[_ ->]|[[_ Hxs]|[_ ->]]]];
          unfold lifecycle_events; rewrite ?Hxs; simpl;
          rewrite !elem_of_cons; auto 10. }
      assert (Hact0 : 0 ≤ ActiveDevices (stats st)) by lia.
      pose proof (on_event_step program ev st Hact0 ltac:(lia) He ltac:(lia))
        as [Hact1 Herr1].
      pose proof (RunnerSpec.on_event_windowIdx program ev st) as Hidx1.
      set (st1 := on_event program ev st) in *.
      destruct (lifecycle_events_cases ev xs Hokj)
        as [[Hty ->]|[[Hty ->]|[[Hty Hxs]|[Hty ->]]]];
        rewrite Hty in Hact1, Herr1;
        unfold due_done, net_active, net_error in Sdue, Sact, Serr;
        rewrite fmap_cons, Hty, ?Hxs, ?fmap_nil in Sdue, Sact, Serr;
        fold (@due_done) in Sdue; fold (@net_active) in Sact;
        fold (@net_error) in Serr;
        try (assert (Hpos : (0 <? ActiveDevices (stats st)) = true)
               by (apply Z.ltb_lt; lia);
             rewrite Hpos in Hact1);
        (destruct (IH _ st1 Hrest Hne Hok')
           as (st' & Hrun & Hact & Herr); [lia..|]);
        exists st'; (split; [done|]); lia.
    + destruct (on_tick_counts program counts st Hw ltac:(lia))
        as (st1 & -> & Herr1 & Hact1 & Hidx1 & _).
      destruct (IH ls st1) as (st' & Hrun & Hact & Herr); try done; try lia.
      exists st'. split; [done|]. lia.
Qed.

(** The counters agree with the devices.  Let any number of devices run,
    each against its own network and with its own moment of cancellation,
    and let the loop receive what they sent, interleaved in any way that
    keeps the order of each device's events, with ticks in between.  Then
    the loop handles everything without a panic, and afterwards the active
    count is the number of devices left in state Active and the error count
    is the number of devices left in state Error. *)
Theorem counters_match_devices program
    (runs : list (Env * CancelTime * World)) (ins : list Input) (st : Loop) :
  let finals := (λ r, world_of (Run r.1.1 r.1.2 r.2)) <$> runs in
  Forall (λ r, eventCh r.2 = []) runs →
  interleaving (eventCh <$> finals) (omap event_of ins) →
  Forall (λ i, is_exit i = false) ins →
  ActiveDevices (stats st) = 0 → ErrorCount (stats st) = 0 →
  0 ≤ windowIdx (stats st) →
  windowIdx (stats st) + Z.of_nat (length ins) < 2 ^ 63 →
  ∃ st', processEvents program ins st = Some (Waiting, st')
    ∧ ActiveDevices (stats st')
      = Z.of_nat (length (filter (λ w, GetState w = StateActive) finals))
    ∧ ErrorCount (stats st')
      = Z.of_nat (length (filter (λ w, GetState w = StateError) finals)).
Proof.
  intros finals Hfresh Hil Hne Ha He Hw Hwb.
  assert (Hshape : Forall (λ w, lifecycle_events (eventCh w)
              ∧ due_done (eventCh w) = 0
              ∧ net_active (eventCh w)
                = (if decide (GetState w = StateActive) then 1 else 0)
              ∧ net_error (eventCh w)
                = (if decide (GetState w = StateError) then 1 else 0))
            finals).
  { subst finals. apply Forall_fmap, Forall_forall.
    intros [[env c] w] Hin. simpl.
    pose proof (proj1 (Forall_forall _ _) Hfresh _ Hin) as Hw0. simpl in Hw0.
    destruct (DeviceMore.Run_ending env c w) as (e & -> & ->).
    rewrite Hw0. unfold lifecycle_events, due_done, net_active, net_error.
    destruct e; simpl; rewrite !elem_of_cons; auto 10. }
  assert (Hsums : sum_Z (due_done <$> (eventCh <$> finals)) = 0
            ∧ sum_Z (net_active <$> (eventCh <$> finals))
              = Z.of_nat (length (filter (λ w, GetState w = StateActive) finals))
            ∧ sum_Z (net_error <$> (eventCh <$> finals))
              = Z.of_nat (length (filter (λ w, GetState w = StateError) finals))).
  { clear -Hshape. induction Hshape as [|w ws (_ & Hd & Hna & Hne) _ IH];
      [done|].
    destruct IH as (IH1 & IH2 & IH3).
    rewrite !fmap_cons, !filter_cons.
    repeat match goal with
           | |- context [sum_Z (?a :: ?l)] =>
               change (sum_Z (a :: l)) with (a + sum_Z l)
           end.
    rewrite Hd, Hna, Hne, IH1, IH2, IH3.
    destruct (decide (GetState w = StateActive));
      destruct (decide (GetState w = StateError)); simpl length; lia. }
  destruct Hsums as (Hd & Hna & Hne').
  destruct (processEvents_interleaving program ins (eventCh <$> finals) st)
    as (st' & Hrun & Hact & Herr); try done; try lia.
  - apply Forall_fmap. eapply Forall_impl; [exact Hshape|]. by intros w [? _].
  - exists st'. split; [done|]. lia.
Qed.

(** One device fails at the login, the other reaches Active. *)
Lemma counters_match_devices_witness :
  ∃ st', processEvents true sample_inputs sample_loop = Some (Waiting, st')
    ∧ ActiveDevices (stats st')
      = Z.of_nat (length (filter (λ w, GetState w = StateActive)
                            ((λ r, world_of (Run r.1.1 r.1.2 r.2))
                               <$> sample_runs)))
    ∧ ErrorCount (stats st')
      = Z.of_nat (length (filter (λ w, GetState w = StateError)
                            ((λ r, world_of (Run r.1.1 r.1.2 r.2))
                               <$> sample_runs))).
Proof.
  apply (counters_match_devices true sample_runs sample_inputs sample_loop).
  - repeat constructor.
  - vm_compute.
    eapply (interleaving_next _ 1%nat); [reflexivity|].
    eapply (interleaving_next _ 0%nat); [reflexivity|].
    apply interleaving_done. repeat constructor.
  - repeat constructor.
  - reflexivity.
  - reflexivity.
  - simpl. lia.
  - simpl. lia.
Defined.

(** An error, a tick, the stop signal, and an event that is never read. *)
Lemma processEvents_summary_witness :
  let ins := [RecvEvent (mkEvent "a" EventError); Tick [3; 4]; StopClosed;
              RecvEvent (mkEvent "b" EventError)] in
  ∃ st',
    processEvents true ins sample_loop
    = Some (if existsb is_exit ins then Exited else Waiting, st')
    ∧ processEvents true (handled ins) sample_loop = Some (Waiting, st')
    ∧ ErrorCount (stats st')
      = ErrorCount (stats sample_loop)
        + Z.of_nat (length (filter (λ ev, is_error_event ev = true)
                                   (omap event_of (handled ins))))
    ∧ forwarded st'
      = forwarded sample_loop
        ++ (if true then omap message_of (handled ins) else [])
    ∧ MQTTTotal (stats st')
      = default (MQTTTotal (stats sample_loop)) (last (totals ins))
    ∧ TotalDevices (stats st') = TotalDevices (stats sample_loop).
Proof.
  apply (processEvents_summary true
           [RecvEvent (mkEvent "a" EventError); Tick [3; 4]; StopClosed;
            RecvEvent (mkEvent "b" EventError)] sample_loop);
    simpl; lia.
Defined.

(** ** The capacity of the event channel *)

(** No send on the event channel can block.  The channel that [New] makes
    has room for four events per device, and however the devices of the
    runner run, all of them together send at most two events per device:
    the channel is never more than half full, even when the loop has
    stopped receiving. *)
Theorem event_channel_never_full
    (catalog : gmap string (list providers.Stop))
    (range_order : nat → gmap string Z → list (string * Z))
    (shuffle : list string → list string)
    (rnd : nat → nat) (uuid : nat → string)
    (fuel : nat) (cfg : Config) (r : Runner)
    (runs : list (Env * CancelTime)) :
  NewIn catalog range_order shuffle rnd uuid fuel cfg = Returns (inr r) →
  4 * Devices cfg < 2 ^ 63 →
  let sent :=
    zip_with (λ d run, eventCh (world_of (Run run.1 run.2 (fresh d))))
             (Devices_ r) runs in
  EventCh_cap r = 4 * Devices cfg
  ∧ 2 * Z.of_nat (length (concat sent)) ≤ EventCh_cap r.
Proof.
  intros Hnew Hcap sent.
  destruct (NewIn_returns _ _ _ _ _ _ _ _ Hnew) as (_ & Hlen & -> & Hpos).
  assert (Hn : 0 ≤ Devices cfg) by lia.
  rewrite wrap64_id by (unfold int64_range; lia).
  split; [lia|].
  enough (Hsent : (length (concat sent) ≤ 2 * length (Devices_ r))%nat) by lia.
  subst sent. clear. revert runs.
  induction (Devices_ r) as [|d ds IH]; intros [|run runs]; simpl; try lia.
  rewrite length_app. specialize (IH runs).
  destruct (DeviceSpec.Run_sends_at_most_two run.1 run.2 (fresh d))
    as (es & -> & Hes).
  simpl. lia.
Qed.

Lemma event_channel_never_full_witness :
  ∃ r, NewIn providers.stopsByProvider (λ _ m, map_to_list m) id (λ i, i)
         (λ i, pretty i) 2
         (mkConfig "https://staging.example" "key" "broker" 1883 "user"
                   "secret" 2 (<["mta" := 100]> ∅) 0) = Returns (inr r)
    ∧ EventCh_cap r = 4 * 2
    ∧ 2 * Z.of_nat
            (length (concat
               (zip_with
                  (λ d run, eventCh (world_of (Run run.1 run.2 (fresh d))))
                  (Devices_ r)
                  [(env_ok, CancelWhileActive);
                   (env_login_rejected, CancelNever)])))
      ≤ EventCh_cap r.
Proof.
  eexists. split; [vm_compute; reflexivity|].
  eapply (event_channel_never_full providers.stopsByProvider
            (λ _ m, map_to_list m) id (λ i, i) (λ i, pretty i) 2
            (mkConfig "https://staging.example" "key" "broker" 1883 "user"
                      "secret" 2 (<["mta" := 100]> ∅) 0)).
  - vm_compute. reflexivity.
  - simpl. lia.
Defined.

(** ** The rate as the growth of the total *)

Lemma deltas_telescope ins :
  ∀ t0 n,
    0 ≤ t0 < 2 ^ 63 →
    Forall (λ t, 0 ≤ t) (totals ins) →
    (n ≤ length (totals ins))%nat →
    length (deltas t0 ins) = length (totals ins)
    ∧ sum_Z (drop n (deltas t0 ins))
      = default 0 (last (t0 :: totals ins))
        - default 0 ((t0 :: totals ins) !! n).
Proof.
  induction ins as [|i ins IH]; intros t0 n Ht0 Hpos Hn.
  - simpl in *. replace n with 0%nat by lia. simpl. lia.
  - destruct i as [ev| |counts|]; simpl in Hpos, Hn |- *.
    + by apply IH.
    + replace n with 0%nat by lia. simpl. lia.
    + apply Forall_cons in Hpos as [Ht Hpos].
      pose proof (wrap64_range (sum_Z counts)) as Hr.
      rewrite <- RunnerSpec.sum64_wrap in Hr. unfold int64_range in Hr.
      rewrite wrap64_id by (unfold int64_range; lia).
      destruct n as [|m].
      * destruct (IH (sum64 counts) 0%nat) as [Hlen Hsum];
          [lia|done|lia|].
        rewrite drop_0 in Hsum |- *. split; [simpl; lia|].
        change (sum_Z ((sum64 counts - t0) :: deltas (sum64 counts) ins))
          with ((sum64 counts - t0) + sum_Z (deltas (sum64 counts) ins)).
        rewrite Hsum. simpl. lia.
      * destruct (IH (sum64 counts) m) as [Hlen Hsum];
          [lia|done|lia|].
        split; [simpl; lia|].
        change (drop (S m) ((sum64 counts - t0) :: deltas (sum64 counts) ins))
          with (drop m (deltas (sum64 counts) ins)).
        rewrite Hsum. simpl. lia.
    + replace n with 0%nat by lia. simpl. lia.
Qed.

(** The rate is the growth of the total over the last five ticks, divided
    by 5: started on the zeroed array, after the loop has handled the
    inputs, the reported rate is the total of the latest tick minus the
    total of the tick five ticks earlier, or minus the starting total when
    there have been fewer than five ticks yet, divided by 5.  (The totals
    are not negative, that is, the 64-bit sum of the devices' counters has
    not overflowed.) *)
Theorem rate_is_growth_over_five_ticks program ins st :
  mqttWindow (stats st) = replicate window_capacity 0 →
  windowIdx (stats st) = 0 →
  0 ≤ lastTotal st < 2 ^ 63 →
  Forall (λ t, 0 ≤ t) (totals ins) →
  Z.of_nat (length ins) < 2 ^ 63 →
  ∃ status st', processEvents program ins st = Some (status, st')
    ∧ MsgsPerSec (stats st')
      = (inject_Z
           (default 0 (last (lastTotal st :: totals ins))
            - default 0 ((lastTotal st :: totals ins)
                           !! (length (totals ins) - 5)%nat))%Z
         / 5)%Q.
Proof.
  intros Hw Hidx Ht0 Hpos Hlen.
  destruct (deltas_telescope ins (lastTotal st)
              (length (totals ins) - 5)%nat Ht0 Hpos ltac:(lia))
    as [Hdl Hsum].
  assert (Hins : (length (totals ins) ≤ length ins)%nat).
  { clear. induction ins as [|[] ins IH]; simpl; lia. }
  destruct (RunnerSpec.processEvents_window program ins st [])
    as (status & st' & Hrun & Hinv); simpl.
  { rewrite Hw. apply RunnerSpec.window_inv_init. }
  { done. }
  { lia. }
  simpl in Hinv. exists status, st'. split; [done|].
  unfold MsgsPerSec. do 2 f_equal.
  rewrite RunnerSpec.sum64_wrap, (RunnerSpec.window_inv_sum _ _ Hinv),
    RunnerSpec.sum_recent5.
  unfold latest. rewrite Hdl, Hsum.
  assert (Hall : ∀ t, t ∈ lastTotal st :: totals ins → 0 ≤ t < 2 ^ 63).
  { intros t [->|Ht]%elem_of_cons; [done|].
    split; [by apply (proj1 (Forall_forall _ _) Hpos)|].
    clear -Ht. induction ins as [|[] ins IH]; simpl in Ht;
      try (by apply elem_of_nil in Ht); try (by apply IH).
    apply elem_of_cons in Ht as [->|Ht]; [|by apply IH].
    rewrite RunnerSpec.sum64_wrap.
    pose proof (wrap64_range (sum_Z counts)) as Hr.
    unfold int64_range in Hr. lia. }
  assert (Hlast : 0 ≤ default 0 (last (lastTotal st :: totals ins)) < 2 ^ 63).
  { destruct (last (lastTotal st :: totals ins)) as [t|] eqn:Hl; simpl; [|lia].
    apply Hall. by apply last_Some_elem_of. }
  assert (Hold : 0 ≤ default 0 ((lastTotal st :: totals ins)
                                  !! (length (totals ins) - 5)%nat) < 2 ^ 63).
  { destruct ((lastTotal st :: totals ins) !! (length (totals ins) - 5)%nat)
      as [t|] eqn:Hl; simpl; [|lia].
    apply Hall. by eapply list_elem_of_lookup_2. }
  apply wrap64_id. unfold int64_range. lia.
Qed.

(** Seven ticks with growing totals. *)
Lemma rate_is_growth_over_five_ticks_witness :
  let ins := [Tick [1]; Tick [2]; Tick [4]; Tick [8]; Tick [16]; Tick [32];
              Tick [64]] in
  ∃ status st', processEvents false ins sample_loop = Some (status, st')
    ∧ MsgsPerSec (stats st')
      = (inject_Z
           (default 0 (last (lastTotal sample_loop :: totals ins))
            - default 0 ((lastTotal sample_loop :: totals ins)
                           !! (length (totals ins) - 5)%nat))%Z
         / 5)%Q.
Proof.
  apply (rate_is_growth_over_five_ticks false
           [Tick [1]; Tick [2]; Tick [4]; Tick [8]; Tick [16]; Tick [32];
            Tick [64]] sample_loop).
  - reflexivity.
  - reflexivity.
  - simpl. lia.
  - vm_compute. repeat constructor; discriminate.
  - simpl. lia.
Defined.

End RunnerMore.

(** * The screens *)

Module TuiSpec.
Import tui.

(** ** The distribution chosen in the setup screen *)

Lemma foldl_insert_shares (g : nat → Z) (names : list string) :
  ∀ (h : nat → nat) (m : gmap string Z),
    NoDup names → (∀ p, p ∈ names → m !! p = None) →
    map_to_list
      (foldl (λ result (ip : nat * string), <[ip.2 := g ip.1]> result) m
             (imap (λ i p, (h i, p)) names))
    ≡ₚ map_to_list m ++ imap (λ i p, (p, g (h i))) names.
Proof.
  induction names as [|x names IH]; intros h m Hnd Hfresh.
  - simpl. by rewrite app_nil_r.
  - apply NoDup_cons in Hnd as [Hx Hnd].
    rewrite !imap_cons. cbn [foldl fst snd].
    rewrite (IH (h ∘ S) (<[x := g (h 0%nat)]> m) Hnd).
    + rewrite map_to_list_insert
        by (apply Hfresh, list_elem_of_here).
      simpl. by rewrite Permutation_middle.
    + intros p Hp. rewrite lookup_insert_ne by (intros ->; done).
      by apply Hfresh, list_elem_of_further.
Qed.

Lemma sum_shares (names : list string) (len : Z) :
  ∀ k, 0 ≤ Z.rem 100 len →
    sum_Z ((imap (λ i p, (p, share_of len (k + i))) names).*2)
    = Z.of_nat (length names) * Z.quot 100 len
      + Z.max 0 (Z.min (Z.rem 100 len - Z.of_nat k)
                       (Z.of_nat (length names))).
Proof.
  induction names as [|x names IH]; intros k Hrem.
  - simpl. lia.
  - rewrite imap_cons, fmap_cons. cbn [snd length].
    change (sum_Z (?a :: ?l)) with (a + sum_Z l).
    rewrite (imap_ext _ (λ i p, (p, share_of len (S k + i)))).
    2: { intros i p _. simpl. do 2 f_equal. lia. }
    rewrite (IH (S k) Hrem). rewrite Nat.add_0_r. unfold share_of.
    destruct (Z.ltb_spec (Z.of_nat k) (Z.rem 100 len)); lia.
Qed.

Lemma share_equally_spec (names : list string) :
  NoDup names → names ≠ [] →
  ∃ dist, share_equally names = Some dist
    ∧ map_to_list dist
      ≡ₚ imap (λ i p, (p, share_of (Z.of_nat (length names)) i)) names
    ∧ providers.dist_sum dist = 100.
Proof.
  intros Hnd Hne. unfold share_equally.
  assert (Hlen : 0 < Z.of_nat (length names)) by (destruct names; simpl; [done|lia]).
  destruct (Z.eqb_spec (Z.of_nat (length names)) 0); [lia|].
  set (dist := foldl (λ (result : gmap string Z) (ip : nat * string),
                        <[ip.2 := share_of (Z.of_nat (length names)) ip.1]>
                          result)
                     ∅ (imap pair names)).
  assert (Hperm : map_to_list dist
            ≡ₚ imap (λ i p, (p, share_of (Z.of_nat (length names)) i)) names).
  { pose proof (foldl_insert_shares (share_of (Z.of_nat (length names)))
                  names id ∅ Hnd ltac:(intros; apply lookup_empty)) as H.
    rewrite map_to_list_empty in H. exact H. }
  exists dist. split; [reflexivity|]. split; [exact Hperm|].
  unfold providers.dist_sum.
  rewrite (sum_Z_perm _ _ (fmap_Permutation snd _ _ Hperm)).
  pose proof (Z.rem_bound_pos 100 (Z.of_nat (length names)) ltac:(lia) Hlen).
  pose proof (sum_shares names (Z.of_nat (length names)) 0 ltac:(lia)) as Hs.
  cbn [Nat.add] in Hs. rewrite Hs.
  pose proof (Z.quot_rem' 100 (Z.of_nat (length names))). simpl Z.of_nat. lia.
Qed.

Lemma NoDup_providerOrder : NoDup providerOrder.
Proof.
  unfold providerOrder.
  repeat (apply NoDup_cons; split;
          [rewrite ?not_elem_of_cons; repeat split;
           try discriminate; apply not_elem_of_nil|]).
  apply NoDup_nil_2.
Qed.

Lemma chosen_names (enabled : gmap string bool) :
  ∃ names, EnabledProviderDist enabled = share_equally names
    ∧ NoDup names ∧ names ≠ [] ∧ names ⊆ providerOrder
    ∧ names
      = (if decide (filter (λ p, default false (enabled !! p) = true)
                           providerOrder = [])
         then providerOrder
         else filter (λ p, default false (enabled !! p) = true)
                     providerOrder).
Proof.
  unfold EnabledProviderDist.
  set (chosen := filter (λ p, default false (enabled !! p) = true)
                        providerOrder).
  destruct (decide (chosen = [])) as [Hnil|Hsome].
  - exists providerOrder. rewrite Hnil. simpl.
    split; [done|]. split; [apply NoDup_providerOrder|].
    split; [done|]. done.
  - exists chosen. destruct chosen as [|c cs] eqn:Hc; [done|].
    split; [done|]. rewrite <- Hc. subst chosen.
    split; [apply NoDup_filter, NoDup_providerOrder|].
    split; [by rewrite Hc|]. split; [|done].
    intros p Hp. by apply list_elem_of_filter in Hp as [_ ?].
Qed.

Lemma served_providerOrder k :
  k ∈ providerOrder → providers.served providers.stopsByProvider k.
Proof.
  unfold providerOrder. rewrite !elem_of_cons.
  intros [->|[->|[->|[->|H]]]]; [..|by apply elem_of_nil in H];
    (eexists; split; [vm_compute; reflexivity|discriminate]).
Qed.

Lemma EnabledProviderDist_ok (enabled : gmap string bool) :
  ∃ dist, EnabledProviderDist enabled = Some dist
    ∧ providers.dist_sum dist = 100
    ∧ dist ≠ ∅
    ∧ ∀ k, k ∈ dom dist → providers.served providers.stopsByProvider k.
Proof.
  destruct (chosen_names enabled) as (names & -> & Hnd & Hne & Hsub & _).
  destruct (share_equally_spec names Hnd Hne) as (dist & -> & Hperm & Hsum).
  exists dist. split; [done|]. split; [done|]. split.
  - intros ->. rewrite map_to_list_empty in Hperm.
    apply Permutation_nil_l in Hperm. by destruct names.
  - intros k [v Hk]%elem_of_dom. apply served_providerOrder, Hsub.
    apply elem_of_map_to_list in Hk. rewrite Hperm in Hk.
    apply elem_of_lookup_imap in Hk as (i & p & [= -> _] & Hp).
    by eapply list_elem_of_lookup_2.
Qed.

(** [EnabledProviderDist] never divides by zero and always returns a
    distribution that sums to exactly 100: over the enabled providers, or
    over all four when none is enabled (keys that the map does not hold
    count as disabled); the shares are equal up to one percent, and every
    provider in it is one for which the catalog has stops. *)
Theorem EnabledProviderDist_total (enabled : gmap string bool) :
  let chosen := filter (λ p, default false (enabled !! p) = true)
                       providerOrder in
  ∃ dist, EnabledProviderDist enabled = Some dist
    ∧ providers.dist_sum dist = 100
    ∧ dom dist
      = list_to_set (if decide (chosen = []) then providerOrder else chosen)
    ∧ map_Forall (λ k v,
                    Z.quot 100 (Z.of_nat (size dist)) ≤ v
                    ∧ v ≤ Z.quot 100 (Z.of_nat (size dist)) + 1
                    ∧ 25 ≤ v
                    ∧ providers.served providers.stopsByProvider k)
                 dist.
Proof.
  intros chosen.
  destruct (chosen_names enabled) as (names & -> & Hnd & Hne & Hsub & Hnames).
  fold chosen in Hnames. rewrite <- Hnames.
  destruct (share_equally_spec names Hnd Hne) as (dist & -> & Hperm & Hsum).
  exists dist. split; [done|]. split; [done|].
  assert (Hkeys : ∀ k, k ∈ dom dist ↔ k ∈ names).
  { intros k. rewrite elem_of_dom. split.
    - intros [v Hk]. apply elem_of_map_to_list in Hk. rewrite Hperm in Hk.
      apply elem_of_lookup_imap in Hk as (i & p & [= -> _] & Hp).
      by eapply list_elem_of_lookup_2.
    - intros Hk. apply list_elem_of_lookup in Hk as [i Hi].
      eexists. apply elem_of_map_to_list. rewrite Hperm.
      apply elem_of_lookup_imap. by exists i, k. }
  assert (Hsize : size dist = length names).
  { rewrite <- length_map_to_list, Hperm. apply length_imap. }
  assert (Hlen4 : (0 < length names ≤ 4)%nat).
  { split; [destruct names; simpl; [done|lia]|].
    change 4%nat with (length providerOrder).
    apply submseteq_length, NoDup_submseteq; done. }
  split.
  - apply set_eq. intros k. rewrite Hkeys. by rewrite elem_of_list_to_set.
  - intros k v Hk. rewrite Hsize.
    assert (Hin : k ∈ names).
    { apply Hkeys, elem_of_dom. by exists v. }
    apply elem_of_map_to_list in Hk. rewrite Hperm in Hk.
    apply elem_of_lookup_imap in Hk as (i & p & [= -> ->] & Hp).
    unfold share_of.
    assert (Hq : 25 ≤ Z.quot 100 (Z.of_nat (length names))).
    { destruct (length names) as [|[|[|[|[|n]]]]]; try lia; vm_compute;
        discriminate. }
    split; [destruct (_ <? _); lia|]. split; [destruct (_ <? _); lia|].
    split; [destruct (_ <? _); lia|].
    by apply served_providerOrder, Hsub.
Qed.

(** ** The setup screen *)

Lemma first_index_bounds {A} (p : A → bool) (l : list A) i j :
  first_index p l i = Some j → i ≤ j < i + Z.of_nat (length l).
Proof.
  revert i. induction l as [|x l IH]; intros i; simpl; [done|].
  destruct (p x).
  - intros [= <-]. lia.
  - intros Hj. apply IH in Hj. lia.
Qed.

Lemma NewSetupModel_valid url defaultDevices defaultDuration :
  valid_indices (NewSetupModel url defaultDevices defaultDuration)
  ∧ Start (Result (NewSetupModel url defaultDevices defaultDuration)) = false.
Proof.
  unfold valid_indices, NewSetupModel.
  cbn [field devIdx durIdx providerIdx Result Start not_started].
  split; [|done]. split; [lia|]. split; [|split; [|simpl; lia]].
  - match goal with
    | |- context [first_index ?p ?l 0] =>
        destruct (first_index p l 0) as [j|] eqn:Hj
    end; simpl; [|lia].
    apply first_index_bounds in Hj. simpl in Hj. lia.
  - match goal with
    | |- context [first_index ?p ?l 0] =>
        destruct (first_index p l 0) as [j|] eqn:Hj
    end; simpl; [|lia].
    apply first_index_bounds in Hj. simpl in Hj. lia.
Qed.

Lemma index_is_Some {A} (l : list A) i :
  0 ≤ i < Z.of_nat (length l) → ∃ x, index l i = Some x ∧ x ∈ l.
Proof.
  intros Hi. unfold index. destruct (Z.ltb_spec i 0); [lia|].
  destruct (lookup_lt_is_Some_2 l (Z.to_nat i)) as [x Hx]; [lia|].
  exists x. split; [done|]. by eapply list_elem_of_lookup_2.
Qed.

Ltac setup_simpl :=
  unfold valid_indices, with_size, with_field, with_devIdx, with_durIdx,
    with_providerIdx, with_enabled, with_Result, fieldDevices, fieldDuration,
    fieldProviders in *;
  simpl in *.

Ltac setup_done :=
  setup_simpl; rewrite ?wrap64_id by (unfold int64_range; lia);
  split; [repeat split; lia | split; done].

Lemma toggle_provider_valid m :
  valid_indices m →
  ∃ m', toggle_provider m = Some m' ∧ valid_indices m'
        ∧ Result m' = Result m.
Proof.
  intros (Hf & Hd & Hu & Hp). unfold toggle_provider.
  destruct (index_is_Some providerOrder (providerIdx m) Hp) as (p & -> & _).
  simpl. eexists. split; [reflexivity|].
  setup_simpl. split; [repeat split; lia | done].
Qed.

Lemma SetupModel_Update_valid msg m :
  valid_indices m → (Start (Result m) = true → valid_result (Result m)) →
  ∃ m' quit, SetupModel_Update msg m = Some (m', quit)
    ∧ valid_indices m'
    ∧ (Start (Result m') = true → valid_result (Result m'))
    ∧ (quit = false → Result m' = Result m).
Proof.
  intros Hv Hr. pose proof Hv as (Hf & Hd & Hu & Hp).
  destruct msg as [w h|k|]; unfold SetupModel_Update.
  - eexists _, _. split; [reflexivity|]. setup_done.
  - repeat case_bool_decide.
    + eexists _, _. split; [reflexivity|]. setup_done.
    + eexists _, _. split; [reflexivity|].
      rewrite wrap64_id by (unfold int64_range; lia).
      pose proof (Z.rem_bound_pos (field m + 1) 3 ltac:(lia) ltac:(lia)).
      setup_done.
    + eexists _, _. split; [reflexivity|].
      rewrite wrap64_id by (unfold int64_range; lia).
      pose proof (Z.rem_bound_pos (field m + 2) 3 ltac:(lia) ltac:(lia)).
      setup_done.
    + destruct (field m =? fieldDevices);
        [|destruct (field m =? fieldDuration);
          [|destruct (field m =? fieldProviders)]];
        (eexists _, _; split; [reflexivity|]);
        rewrite ?wrap64_id by (unfold int64_range; lia);
        try match goal with
            | |- context [0 <? ?x] => destruct (Z.ltb_spec 0 x)
            end;
        setup_done.
    + destruct (field m =? fieldDevices);
        [|destruct (field m =? fieldDuration);
          [|destruct (field m =? fieldProviders)]];
        (eexists _, _; split; [reflexivity|]);
        setup_simpl;
        rewrite ?wrap64_id by (unfold int64_range; lia);
        try match goal with
            | |- context [?x <? ?y] => destruct (Z.ltb_spec x y)
            end;
        setup_done.
    + destruct (field m =? fieldProviders).
      * destruct (toggle_provider_valid m Hv) as (m' & -> & Hv' & Hres).
        simpl. eexists _, _. split; [reflexivity|]. rewrite Hres. done.
      * eexists _, _. split; [reflexivity|]. done.
    + destruct (field m =? fieldProviders).
      * destruct (toggle_provider_valid m Hv) as (m' & -> & Hv' & Hres).
        simpl. eexists _, _. split; [reflexivity|]. rewrite Hres. done.
      * destruct (index_is_Some devicePresets (devIdx m) Hd)
          as (devices & -> & Hdev).
        destruct (index_is_Some durationPresets (durIdx m) Hu)
          as (duration & -> & Hdur).
        destruct (EnabledProviderDist_ok (enabledProviders m))
          as (dist & -> & Hsum & Hne & Hserved).
        simpl. eexists _, _. split; [reflexivity|].
        split; [done|]. split; [|done]. intros _.
        unfold valid_result, with_Result.
        cbn [Result Devices Duration Providers Start].
        split; [done|]. split; [|done].
        by apply (list_elem_of_fmap_2 snd).
    + eexists _, _. split; [reflexivity|]. done.
  - eexists _, _. split; [reflexivity|]. done.
Qed.

Lemma run_setup_valid msgs :
  ∀ m, valid_indices m →
    (Start (Result m) = true → valid_result (Result m)) →
    ∃ m' quit, run_setup msgs m = Some (m', quit) ∧ valid_indices m'
      ∧ (Start (Result m') = true → valid_result (Result m'))
      ∧ (quit = false → Result m' = Result m).
Proof.
  induction msgs as [|msg msgs IH]; intros m Hv Hr; simpl.
  - by exists m, false.
  - destruct (SetupModel_Update_valid msg m Hv Hr)
      as (m' & quit & -> & Hv' & Hr' & Hsame).
    destruct quit; [by exists m', true|].
    destruct (IH m' Hv' Hr') as (m2 & quit & Hrun & Hv2 & Hr2 & Hsame2).
    exists m2, quit. split; [done|]. split; [done|]. split; [done|].
    intros Hq. by rewrite (Hsame2 Hq), Hsame.
Qed.

(** Whatever the defaults given on the command line and whatever the user
    types, the setup screen never panics: every cursor stays inside its
    list; the result says "start" only once the program has ended; and
    then it holds a number of devices and a duration from the presets and
    a distribution that sums to 100, is not empty, and names only
    providers for which the catalog has stops. *)
Theorem setup_never_panics (url : string) (defaultDevices : Z)
    (defaultDuration : string) (msgs : list Msg) :
  ∃ m' quit,
    run_setup msgs (NewSetupModel url defaultDevices defaultDuration)
    = Some (m', quit)
    ∧ valid_indices m'
    ∧ (Start (Result m') = true → quit = true ∧ valid_result (Result m')).
Proof.
  destruct (NewSetupModel_valid url defaultDevices defaultDuration)
    as [Hv Hstart].
  destruct (run_setup_valid msgs _ Hv)
    as (m' & quit & Hrun & Hv' & Hr' & Hsame).
  { rewrite Hstart. discriminate. }
  exists m', quit. split; [done|]. split; [done|].
  intros Hs. split; [|by apply Hr'].
  destruct quit; [done|]. rewrite (Hsame eq_refl), Hstart in Hs. done.
Qed.

(** From the setup screen to the runner: when the user starts the test,
    the configuration that [runLoadTest] builds from the result makes
    [runner.New] return a runner with the chosen number of devices,
    whatever the order in which the map is enumerated, the shuffle and the
    random draws. *)
Theorem setup_result_builds_runner
    (url secretKey mqttHost mqttUsername mqttPassword : string)
    (mqttPort duration defaultDevices : Z) (defaultDuration : string)
    (msgs : list Msg)
    (range_order : nat → gmap string Z → list (string * Z))
    (shuffle : list string → list string)
    (rnd : nat → nat) (uuid : nat → string) (fuel : nat) :
  (∀ j m, range_order j m ≡ₚ map_to_list m) →
  (∀ l, shuffle l ≡ₚ l) →
  (50 ≤ fuel)%nat →
  ∃ m' quit,
    run_setup msgs (NewSetupModel url defaultDevices defaultDuration)
    = Some (m', quit)
    ∧ (Start (Result m') = true →
       ∃ r, runner.New range_order shuffle rnd uuid fuel
              (runner.mkConfig url secretKey mqttHost mqttPort mqttUsername
                 mqttPassword (Devices (Result m')) (Providers (Result m'))
                 duration)
            = Returns (inr r)
         ∧ Z.of_nat (length (runner.Devices_ r)) = Devices (Result m')
         ∧ 1 ≤ Devices (Result m') ≤ 50).
Proof.
  intros Hro Hsh Hfuel.
  destruct (NewSetupModel_valid url defaultDevices defaultDuration)
    as [Hv Hstart].
  destruct (run_setup_valid msgs _ Hv) as (m' & quit & Hrun & _ & Hres & _).
  { rewrite Hstart. discriminate. }
  exists m', quit. split; [done|]. intros Hs.
  destruct (Hres Hs) as (Hdev & _ & _ & Hne & Hserved).
  assert (Hn : 1 ≤ Devices (Result m') ≤ 50).
  { unfold devicePresets in Hdev. rewrite !elem_of_cons in Hdev.
    destruct Hdev as [->|[->|[->|[->|[->|H]]]]]; try lia.
    by apply elem_of_nil in H. }
  destruct (RunnerMore.NewIn_built providers.stopsByProvider range_order
              shuffle rnd uuid fuel
              (runner.mkConfig url secretKey mqttHost mqttPort mqttUsername
                 mqttPassword (Devices (Result m')) (Providers (Result m'))
                 duration))
    as (ds & Hnew & Hlen & _); simpl; try done; try lia.
  simpl in Hlen. eexists. split; [exact Hnew|]. simpl. split; [lia|done].
Qed.

Lemma setup_result_builds_runner_witness :
  ∃ m' quit,
    run_setup [KeyMsg "right"; KeyMsg "enter"]
      (NewSetupModel "https://staging.example" 5 "5m") = Some (m', quit)
    ∧ (Start (Result m') = true →
       ∃ r, runner.New (λ _ m, map_to_list m) id (λ i, i) (λ i, pretty i) 50
              (runner.mkConfig "https://staging.example" "key" "broker" 1883
                 "user" "secret" (Devices (Result m')) (Providers (Result m'))
                 0)
            = Returns (inr r)
         ∧ Z.of_nat (length (runner.Devices_ r)) = Devices (Result m')
         ∧ 1 ≤ Devices (Result m') ≤ 50).
Proof.
  apply (setup_result_builds_runner "https://staging.example" "key" "broker"
           "user" "secret" 1883 0 5 "5m" [KeyMsg "right"; KeyMsg "enter"]
           (λ _ m, map_to_list m) id (λ i, i) (λ i, pretty i) 50).
  - intros; reflexivity.
  - intros; reflexivity.
  - lia.
Defined.

(** ** The main screen *)

Lemma list_rows_seqZ fuel :
  ∀ i start n maxItems,
    (Z.to_nat (Z.min n (start + maxItems) - i) ≤ fuel)%nat →
    list_rows fuel i start n maxItems
    = seqZ i (Z.min n (start + maxItems) - i).
Proof.
  induction fuel as [|fuel IH]; intros i start n maxItems Hfuel; simpl.
  - by rewrite seqZ_nil by lia.
  - destruct (Z.ltb_spec i n); destruct (Z.ltb_spec (i - start) maxItems);
      simpl; try (by rewrite seqZ_nil by lia).
    rewrite (seqZ_cons i) by lia. f_equal.
    rewrite IH by lia. f_equal. lia.
Qed.

Lemma renderList_rows_seqZ n selected height :
  let maxItems := if height - 2 <? 1 then 1 else height - 2 in
  let start := if maxItems <=? selected then selected - maxItems + 1 else 0 in
  1 ≤ maxItems ∧ 0 ≤ start
  ∧ renderList_rows n selected height
    = seqZ start (Z.min n (start + maxItems) - start).
Proof.
  intros maxItems start.
  assert (Hmax : 1 ≤ maxItems).
  { subst maxItems. destruct (Z.ltb_spec (height - 2) 1); lia. }
  assert (Hstart : 0 ≤ start).
  { subst start. destruct (Z.leb_spec maxItems selected); lia. }
  split; [done|]. split; [done|].
  unfold renderList_rows. fold maxItems. fold start.
  apply list_rows_seqZ. lia.
Qed.

(** The list panel scrolls with the cursor: [renderList] shows a run of
    consecutive devices, at most as many as fit (and at least room for
    one), all of them existing devices, and when the cursor is on a device
    of the list, that device is among those shown. *)
Theorem renderList_shows_selected (n selected height : Z) :
  0 ≤ selected < n →
  let rows := renderList_rows n selected height in
  selected ∈ rows
  ∧ Forall (λ i, 0 ≤ i < n) rows
  ∧ Z.of_nat (length rows) ≤ Z.max 1 (height - 2)
  ∧ ∃ start, rows = seqZ start (Z.of_nat (length rows)).
Proof.
  intros Hsel rows. subst rows.
  destruct (renderList_rows_seqZ n selected height) as (Hmax & Hstart & ->).
  set (maxItems := if height - 2 <? 1 then 1 else height - 2) in *.
  set (start := if maxItems <=? selected
                then selected - maxItems + 1 else 0) in *.
  assert (Hle : start ≤ selected).
  { subst start. destruct (Z.leb_spec maxItems selected); lia. }
  assert (Hlt : selected < start + maxItems).
  { subst start. destruct (Z.leb_spec maxItems selected); lia. }
  assert (Hm : maxItems = Z.max 1 (height - 2)).
  { subst maxItems. destruct (Z.ltb_spec (height - 2) 1); lia. }
  split; [apply elem_of_seqZ; lia|]. split.
  - apply Forall_forall. intros i Hi. apply elem_of_seqZ in Hi. lia.
  - rewrite length_seqZ. split; [lia|].
    exists start. f_equal. lia.
Qed.

Lemma renderList_shows_selected_witness :
  let rows := renderList_rows 10 7 6 in
  7 ∈ rows
  ∧ Forall (λ i, 0 ≤ i < 10) rows
  ∧ Z.of_nat (length rows) ≤ Z.max 1 (6 - 2)
  ∧ ∃ start, rows = seqZ start (Z.of_nat (length rows)).
Proof. apply (renderList_shows_selected 10 7 6). lia. Defined.

Lemma length_visibleDevices m devices :
  (length (visibleDevices m devices) ≤ length devices)%nat.
Proof.
  unfold visibleDevices. destruct (filterError m); simpl; [|done].
  apply length_filter.
Qed.

Lemma Model_Update_selected msg devices m :
  0 ≤ selected m < 2 ^ 63 → Z.of_nat (length devices) < 2 ^ 63 →
  ∃ m' cmd, Model_Update msg devices m = Some (m', cmd)
    ∧ 0 ≤ selected m' < 2 ^ 63
    ∧ ∀ d, cmd = Refresh d →
           visibleDevices m devices !! Z.to_nat (selected m) = Some d.
Proof.
  intros Hsel Hlen.
  pose proof (length_visibleDevices m devices) as Hvis.
  destruct msg as [w h|k|]; unfold Model_Update.
  - eexists _, _. split; [reflexivity|]. done.
  - destruct (showHelp m).
    { eexists _, _. split; [reflexivity|]. done. }
    repeat case_bool_decide.
    + eexists _, _. split; [reflexivity|]. done.
    + eexists _, _. split; [reflexivity|].
      destruct (Z.ltb_spec 0 (selected m)); unfold with_selected; simpl;
        rewrite ?wrap64_id by (unfold int64_range; lia);
        (split; [lia|done]).
    + eexists _, _. split; [reflexivity|]. cbv zeta.
      destruct (Z.ltb_spec (selected m)
                  (Z.of_nat (length (visibleDevices m devices)) - 1));
        unfold with_selected; simpl;
        rewrite ?wrap64_id by (unfold int64_range; lia);
        (split; [lia|done]).
    + cbv zeta.
      destruct (Z.ltb_spec (selected m)
                  (Z.of_nat (length (visibleDevices m devices)))).
      * destruct (index_is_Some (visibleDevices m devices) (selected m))
          as (d & Hd & _); [lia|].
        rewrite Hd. simpl. eexists _, _. split; [reflexivity|].
        split; [done|]. intros d' [= <-].
        unfold index in Hd. by destruct (selected m <? 0).
      * eexists _, _. split; [reflexivity|]. done.
    + eexists _, _. split; [reflexivity|]. done.
    + eexists _, _. split; [reflexivity|]. done.
    + eexists _, _. split; [reflexivity|]. done.
  - eexists _, _. split; [reflexivity|]. done.
Qed.

Lemma Model_View_selected devices m :
  0 ≤ selected m < 2 ^ 63 → Z.of_nat (length devices) < 2 ^ 63 →
  ∃ m' shown rows, Model_View devices m = Some (m', shown, rows)
    ∧ 0 ≤ selected m' < 2 ^ 63
    ∧ (width m ≠ 0 → height m ≠ 0 → showHelp m = false →
       visibleDevices m devices ≠ [] →
       selected m'
       = Z.min (selected m)
               (Z.of_nat (length (visibleDevices m devices)) - 1)
       ∧ shown = visibleDevices m devices !! Z.to_nat (selected m')
       ∧ is_Some shown
       ∧ selected m' ∈ rows).
Proof.
  intros Hsel Hlen.
  pose proof (length_visibleDevices m devices) as Hvis.
  unfold Model_View.
  destruct (Z.eqb_spec (width m) 0) as [Hw|Hw]; simpl.
  { eexists _, _, _. split; [reflexivity|]. done. }
  destruct (Z.eqb_spec (height m) 0) as [Hh|Hh]; simpl.
  { eexists _, _, _. split; [reflexivity|]. done. }
  destruct (showHelp m) eqn:Hhelp.
  { eexists _, _, _. split; [reflexivity|]. done. }
  set (visible := visibleDevices m devices) in *.
  destruct (Z.ltb_spec 0 (Z.of_nat (length visible))) as [Hpos|Hzero]; simpl.
  - destruct (Z.leb_spec (Z.of_nat (length visible)) (selected m))
      as [Hbig|Hin]; simpl.
    + destruct (index_is_Some visible (Z.of_nat (length visible) - 1))
        as (d & Hd & _); [lia|].
      rewrite Hd. simpl. eexists _, _, _. split; [reflexivity|]. simpl.
      split; [lia|]. intros _ _ _ _. split; [lia|].
      unfold index in Hd.
      destruct (Z.of_nat (length visible) - 1 <? 0); [done|].
      split; [done|]. split; [by eexists|].
      destruct (renderList_rows_seqZ (Z.of_nat (length visible))
                  (Z.of_nat (length visible) - 1)
                  (if height m - 2 <? 1 then 1 else height m - 2))
        as (Hmax & Hstart & ->).
      apply elem_of_seqZ.
      repeat match goal with
             | |- context [?a <? ?b] => destruct (Z.ltb_spec a b)
             | |- context [?a <=? ?b] => destruct (Z.leb_spec a b)
             end; lia.
    + destruct (index_is_Some visible (selected m)) as (d & Hd & _); [lia|].
      rewrite Hd. simpl. eexists _, _, _. split; [reflexivity|]. simpl.
      split; [lia|]. intros _ _ _ _. split; [lia|].
      unfold index in Hd. destruct (selected m <? 0); [done|].
      split; [done|]. split; [by eexists|].
      destruct (renderList_rows_seqZ (Z.of_nat (length visible))
                  (selected m)
                  (if height m - 2 <? 1 then 1 else height m - 2))
        as (Hmax & Hstart & ->).
      apply elem_of_seqZ.
      repeat match goal with
             | |- context [?a <? ?b] => destruct (Z.ltb_spec a b)
             | |- context [?a <=? ?b] => destruct (Z.leb_spec a b)
             end; lia.
  - eexists _, _, _. split; [reflexivity|]. split; [done|].
    intros _ _ _ Hne. destruct visible; [done|simpl in Hzero; lia].
Qed.

Lemma run_ui_selected steps :
  ∀ m, 0 ≤ selected m < 2 ^ 63 →
    Forall (λ s, Z.of_nat (length (devices_of s)) < 2 ^ 63) steps →
    ∃ m', run_ui steps m = Some m' ∧ 0 ≤ selected m' < 2 ^ 63.
Proof.
  induction steps as [|[msg devices|devices] steps IH];
    intros m Hsel Hlen; simpl.
  - by exists m.
  - apply Forall_cons in Hlen as [Hd Hlen]. simpl in Hd.
    destruct (Model_Update_selected msg devices m Hsel Hd)
      as (m' & cmd & -> & Hsel' & _).
    by apply IH.
  - apply Forall_cons in Hlen as [Hd Hlen]. simpl in Hd.
    destruct (Model_View_selected devices m Hsel Hd)
      as (m' & shown & rows & -> & Hsel' & _).
    by apply IH.
Qed.

(** The main screen never indexes outside the list of devices.  After any
    session of key presses, other messages and redraws, during which the
    devices may change state in any way, no call has panicked; a refresh is
    asked of the device under the cursor; and the next redraw, if it draws
    the main screen with at least one device visible, brings the cursor
    back into the list when the list has become shorter, shows the device
    under the cursor in the detail panel, and has the cursor's row among
    the rows of the list panel. *)
Theorem ui_selection_safe (steps : list UiStep)
    (devices : list device.MockDevice) :
  Forall (λ s, Z.of_nat (length (devices_of s)) < 2 ^ 63) steps →
  Z.of_nat (length devices) < 2 ^ 63 →
  ∃ m, run_ui steps NewModel = Some m
    ∧ (∀ msg, ∃ m' cmd, Model_Update msg devices m = Some (m', cmd)
         ∧ ∀ d, cmd = Refresh d →
                visibleDevices m devices !! Z.to_nat (selected m) = Some d)
    ∧ ∃ m' shown rows, Model_View devices m = Some (m', shown, rows)
        ∧ (width m ≠ 0 → height m ≠ 0 → showHelp m = false →
           visibleDevices m devices ≠ [] →
           selected m'
           = Z.min (selected m)
                   (Z.of_nat (length (visibleDevices m devices)) - 1)
           ∧ shown = visibleDevices m devices !! Z.to_nat (selected m')
           ∧ is_Some shown
           ∧ selected m' ∈ rows).
Proof.
  intros Hsteps Hlen.
  destruct (run_ui_selected steps NewModel ltac:(simpl; lia) Hsteps)
    as (m & Hrun & Hsel).
  exists m. split; [done|]. split.
  - intros msg.
    destruct (Model_Update_selected msg devices m Hsel Hlen)
      as (m' & cmd & Hup & _ & Hcmd).
    by exists m', cmd.
  - destruct (Model_View_selected devices m Hsel Hlen)
      as (m' & shown & rows & Hview & _ & Hshown).
    by exists m', shown, rows.
Qed.

(** Two devices, of which the filter leaves one; the cursor was on the
    second. *)
Lemma ui_selection_safe_witness :
  let failed := device.write_State device.StateError device.sample_device in
  let steps := [Deliver (WindowSizeMsg 80 24) [device.sample_device; failed];
                Deliver (KeyMsg "down") [device.sample_device; failed];
                Redraw [device.sample_device; failed]] in
  let devices := [failed] in
  ∃ m, run_ui steps NewModel = Some m
    ∧ (∀ msg, ∃ m' cmd, Model_Update msg devices m = Some (m', cmd)
         ∧ ∀ d, cmd = Refresh d →
                visibleDevices m devices !! Z.to_nat (selected m) = Some d)
    ∧ ∃ m' shown rows, Model_View devices m = Some (m', shown, rows)
        ∧ (width m ≠ 0 → height m ≠ 0 → showHelp m = false →
           visibleDevices m devices ≠ [] →
           selected m'
           = Z.min (selected m)
                   (Z.of_nat (length (visibleDevices m devices)) - 1)
           ∧ shown = visibleDevices m devices !! Z.to_nat (selected m')
           ∧ is_Some shown
           ∧ selected m' ∈ rows).
Proof.
  apply ui_selection_safe.
  - repeat constructor; simpl; lia.
  - simpl. lia.
Defined.

(** ** Shortening a text *)

Lemma length_substring_0 n s :
  (n ≤ String.length s)%nat → String.length (String.substring 0 n s) = n.
Proof.
  revert s. induction n as [|n IH]; intros [|a s] Hn; simpl in *;
    try done; try lia.
  f_equal. apply IH. lia.
Qed.

Lemma length_string_app (s1 s2 : string) :
  String.length (s1 +:+ s2) = (String.length s1 + String.length s2)%nat.
Proof. induction s1 as [|a s1 IH]; simpl; [done|]. by rewrite IH. Qed.

Lemma string_app_empty (s : string) : s +:+ EmptyString = s.
Proof.
  induction s as [|a s IH]; [done|].
  change (String a (s +:+ EmptyString) = String a s). by rewrite IH.
Qed.

Lemma substring_0_prefix n s :
  ∃ rest, s = String.substring 0 n s +:+ rest.
Proof.
  revert s. induction n as [|n IH]; intros [|a s]; simpl.
  - by exists EmptyString.
  - by eexists.
  - by exists EmptyString.
  - destruct (IH s) as [rest Hrest]. exists rest.
    change (String a s = String a (String.substring 0 n s +:+ rest)).
    by f_equal.
Qed.

(** [truncate] with a limit that is not negative never panics and returns
    a text of at most [max] bytes: the text itself when it fits, and
    otherwise exactly [max] bytes that start the text, the last three of
    them replaced by dots when there is room for three.  With a negative
    limit it panics on every text. *)
Theorem truncate_length (s : string) (max : Z) :
  (0 ≤ max →
   ∃ r, truncate s max = Some r
     ∧ Z.of_nat (String.length r) = Z.min (Z.of_nat (String.length s)) max
     ∧ (Z.of_nat (String.length s) ≤ max → r = s)
     ∧ (max < Z.of_nat (String.length s) →
        ∃ kept rest, s = kept +:+ rest
          ∧ r = kept +:+ (if max <? 3 then EmptyString else "...")))
  ∧ (max < 0 → truncate s max = None).
Proof.
  unfold truncate. split.
  - intros Hmax. destruct (Z.leb_spec (Z.of_nat (String.length s)) max).
    + exists s. split; [done|]. split; [lia|]. split; [done|]. lia.
    + destruct (Z.ltb_spec max 3).
      * destruct (Z.ltb_spec max 0); [lia|].
        eexists. split; [reflexivity|].
        rewrite length_substring_0 by lia.
        split; [lia|]. split; [lia|]. intros _.
        destruct (substring_0_prefix (Z.to_nat max) s) as [rest Hrest].
        exists (String.substring 0 (Z.to_nat max) s), rest.
        split; [done|]. by rewrite string_app_empty.
      * eexists. split; [reflexivity|].
        rewrite length_string_app, length_substring_0 by lia. simpl.
        split; [lia|]. split; [lia|]. intros _.
        destruct (substring_0_prefix (Z.to_nat (max - 3)) s) as [rest Hrest].
        by exists (String.substring 0 (Z.to_nat (max - 3)) s), rest.
  - intros Hneg.
    destruct (Z.leb_spec (Z.of_nat (String.length s)) max); [lia|].
    destruct (Z.ltb_spec max 3); [|lia].
    destruct (Z.ltb_spec max 0); [done|lia].
Qed.

(** ** Counters with thousands separators *)

Lemma string_app_assoc (a b c : string) : (a +:+ b) +:+ c = a +:+ (b +:+ c).
Proof.
  induction a as [|x a IH]; [done|].
  change (String x ((a +:+ b) +:+ c) = String x (a +:+ (b +:+ c))).
  by rewrite IH.
Qed.

Lemma pretty_N_go_app x s : pretty_N_go x s = pretty_N_go x "" +:+ s.
Proof.
  revert s. induction (N.lt_wf_0 x) as [x _ IH]; intros s.
  assert (x = 0 ∨ 0 < x)%N as [->|Hx] by lia.
  - by rewrite !pretty_N_go_0.
  - rewrite !(pretty_N_go_step x) by done.
    assert (Hlt : (x `div` 10 < x)%N) by (by apply N.div_lt).
    rewrite (IH _ Hlt (String (pretty_N_char (x `mod` 10)) s)).
    rewrite (IH _ Hlt (String (pretty_N_char (x `mod` 10)) "")).
    by rewrite string_app_assoc.
Qed.

Lemma pretty_N_split (x : N) :
  (1000 ≤ x)%N → pretty x = pretty (x / 1000)%N +:+ digits3 x.
Proof.
  intros Hx. unfold pretty, pretty_N.
  assert (H1000 : (0 < x / 1000)%N).
  { apply N.div_str_pos. lia. }
  rewrite decide_False by lia. rewrite decide_False by lia.
  rewrite (pretty_N_go_step x) by lia.
  assert (H10 : (0 < x / 10)%N) by (apply N.div_str_pos; lia).
  rewrite (pretty_N_go_step (x `div` 10)%N) by done.
  assert (H100 : (0 < (x / 10) / 10)%N).
  { rewrite N.Div0.div_div. apply N.div_str_pos. lia. }
  rewrite (pretty_N_go_step ((x `div` 10) `div` 10)%N) by done.
  rewrite pretty_N_go_app. rewrite !N.Div0.div_div. simpl (10 * 10)%N.
  simpl (100 * 10)%N. done.
Qed.

Lemma Sprintf_03d_digits :
  forallb (λ b, String.eqb (Sprintf_03d (Z.of_nat b)) (digits3 (N.of_nat b))
                && String.eqb (without_commas (digits3 (N.of_nat b)))
                              (digits3 (N.of_nat b)))
          (seq 0 1000) = true.
Proof. vm_compute. reflexivity. Qed.

Lemma digits3_small (b : N) :
  (b < 1000)%N →
  Sprintf_03d (Z.of_N b) = digits3 b
  ∧ without_commas (digits3 b) = digits3 b.
Proof.
  intros Hb.
  pose proof (proj1 (forallb_forall _ _) Sprintf_03d_digits (N.to_nat b)) as H.
  cbv beta in H. rewrite N2Nat.id, N_nat_Z in H.
  assert (Hin : In (N.to_nat b) (seq 0 1000)) by (apply in_seq; lia).
  apply H in Hin. apply andb_true_iff in Hin as [H1 H2].
  by apply String.eqb_eq in H1, H2.
Qed.

Lemma digits3_mod (x : N) : digits3 (x mod 1000) = digits3 x.
Proof.
  unfold digits3.
  assert ((x mod 1000) mod 10 = x mod 10)%N as ->.
  { rewrite (N.div_mod x 1000) at 2 by done.
    replace (1000 * (x / 1000))%N with ((x / 1000 * 100) * 10)%N by lia.
    by rewrite N.add_comm, N.Div0.mod_add. }
  assert ((x mod 1000) / 10 mod 10 = x / 10 mod 10)%N as ->.
  { rewrite (N.div_mod x 1000) at 2 by done.
    replace (1000 * (x / 1000))%N with ((x / 1000 * 100) * 10)%N by lia.
    rewrite N.add_comm, N.div_add by done.
    replace (x / 1000 * 100)%N with ((x / 1000 * 10) * 10)%N by lia.
    by rewrite N.Div0.mod_add. }
  assert ((x mod 1000) / 100 mod 10 = x / 100 mod 10)%N as ->.
  { rewrite (N.div_mod x 1000) at 2 by done.
    replace (1000 * (x / 1000))%N with ((x / 1000 * 10) * 100)%N by lia.
    rewrite N.add_comm, N.div_add by done.
    by rewrite N.Div0.mod_add. }
  done.
Qed.

Lemma without_commas_app (a b : string) :
  without_commas (a +:+ b) = without_commas a +:+ without_commas b.
Proof.
  induction a as [|c a IH]; [done|].
  change (without_commas (String c (a +:+ b))
          = without_commas (String c a) +:+ without_commas b).
  simpl. rewrite IH. by destruct (Ascii.eqb c ",").
Qed.

Lemma without_commas_pretty_N_go (x : N) :
  without_commas (pretty_N_go x "") = pretty_N_go x "".
Proof.
  induction (N.lt_wf_0 x) as [x _ IH].
  assert (x = 0 ∨ 0 < x)%N as [->|Hx] by lia; [done|].
  rewrite pretty_N_go_step by done.
  rewrite pretty_N_go_app, without_commas_app, IH by (by apply N.div_lt).
  f_equal. unfold pretty_N_char. by repeat case_match.
Qed.

Lemma without_commas_pretty (n : Z) : without_commas (pretty n) = pretty n.
Proof.
  assert (HN : ∀ x : N, without_commas (pretty x) = pretty x).
  { intros x. unfold pretty, pretty_N. case_decide; [done|].
    apply without_commas_pretty_N_go. }
  destruct n as [|p|p]; [done|apply (HN (Npos p))|].
  change (pretty (Z.neg p)) with ("-" +:+ pretty (Npos p)).
  rewrite without_commas_app, HN. done.
Qed.

Lemma pretty_Z_of_N (x : N) : pretty (Z.of_N x) = pretty x.
Proof. by destruct x. Qed.

Lemma pretty_Z_split (n : Z) :
  1000 ≤ n →
  pretty n = pretty (Z.quot n 1000) +:+ Sprintf_03d (Z.rem n 1000)
  ∧ without_commas (Sprintf_03d (Z.rem n 1000)) = Sprintf_03d (Z.rem n 1000)
  ∧ String.length (Sprintf_03d (Z.rem n 1000)) = 3%nat.
Proof.
  intros Hn.
  rewrite Z.quot_div_nonneg, Z.rem_mod_nonneg by lia.
  assert (Hx : n = Z.of_N (Z.to_N n)) by lia.
  set (x := Z.to_N n) in *. rewrite Hx.
  change 1000 with (Z.of_N 1000).
  rewrite <- N2Z.inj_div, <- N2Z.inj_mod, !pretty_Z_of_N.
  destruct (digits3_small (x mod 1000)%N) as [-> Hwc].
  { apply N.mod_lt. done. }
  rewrite Hwc, digits3_mod. split; [|done].
  apply pretty_N_split. lia.
Qed.

(** X29.  [formatNumber] only inserts commas: with the commas taken out
    its text is the decimal text of the number, for every number, negative
    ones included.  Below 1000 it is that text unchanged; from 1000 on it
    ends in a comma followed by exactly three digits. *)
Theorem formatNumber_digits (n : Z) :
  without_commas (formatNumber n) = pretty n
  ∧ (n < 1000 → formatNumber n = pretty n)
  ∧ (1000 ≤ n →
     ∃ front last3, formatNumber n = front +:+ "," +:+ last3
       ∧ String.length last3 = 3%nat
       ∧ without_commas last3 = last3).
Proof.
  unfold formatNumber.
  destruct (Z.ltb_spec n 1000) as [Hsmall|Hbig].
  { split; [apply without_commas_pretty|]. split; [done|lia]. }
  destruct (pretty_Z_split n Hbig) as (Hn & Hwc & Hlen).
  destruct (Z.ltb_spec n 1000000) as [Hmid|Hlarge].
  - split.
    + rewrite !without_commas_app, without_commas_pretty, Hwc. simpl.
      by rewrite Hn.
    + split; [lia|]. intros _. by eexists _, _.
  - destruct (pretty_Z_split (Z.quot n 1000)) as (Hq & Hwcq & _).
    { rewrite Z.quot_div_nonneg by lia. apply Z.div_le_lower_bound; lia. }
    assert (Hqq : Z.quot (Z.quot n 1000) 1000 = Z.quot n 1000000).
    { rewrite (Z.quot_div_nonneg n 1000), (Z.quot_div_nonneg n 1000000) by lia.
      rewrite Z.quot_div_nonneg by (try apply Z.div_pos; lia).
      by rewrite Z.div_div by lia. }
    rewrite Hqq in Hq. split.
    + rewrite !without_commas_app, without_commas_pretty, Hwc, Hwcq. simpl.
      by rewrite Hn, Hq, string_app_assoc.
    + split; [lia|]. intros _.
      exists (pretty (Z.quot n 1000000) +:+ "," +:+
              Sprintf_03d (Z.rem (Z.quot n 1000) 1000)),
             (Sprintf_03d (Z.rem n 1000)).
      by rewrite !string_app_assoc.
Qed.

End TuiSpec.

(** * The distribution given on the command line *)

Module CmdSpec.
Import cmd.

Section parse.
Variable TrimSpace : string → string.
Variable Atoi : string → option Z.

Lemma parse_parts_entries parts :
  ∀ result total r,
    parse_parts TrimSpace Atoi parts result total = inr r ↔
    ∃ es, Forall2 (λ part e, entry_of TrimSpace Atoi part = Some e) parts es
      ∧ r = (foldl (λ m e, <[e.1 := e.2]> m) result es,
             foldl (λ t e, wrap64 (t + e.2)) total es).
Proof.
  induction parts as [|part parts IH]; intros result total r.
  - simpl. split.
    + intros [= <-]. exists []. split; [constructor|done].
    + intros (es & Hes & ->). by inversion Hes.
  - cbn [parse_parts]. unfold SplitN2.
    destruct (cut "=" (TrimSpace part)) as [[k v]|] eqn:Hcut.
    + destruct (Atoi (TrimSpace v)) as [pct|] eqn:Hpct.
      * rewrite IH. split.
        -- intros (es & Hes & ->). exists ((TrimSpace k, pct) :: es).
           split; [|done]. constructor; [|done].
           unfold entry_of. by rewrite Hcut, Hpct.
        -- intros (es & Hes & ->).
           inversion Hes as [|? e ? es' He Hes']; subst.
           unfold entry_of in He. rewrite Hcut, Hpct in He.
           injection He as <-. by exists es'.
      * split; [done|]. intros (es & Hes & _).
        inversion Hes as [|? e ? es' He Hes']; subst.
        unfold entry_of in He. by rewrite Hcut, Hpct in He.
    + split; [done|]. intros (es & Hes & _).
      inversion Hes as [|? e ? es' He Hes']; subst.
      unfold entry_of in He. by rewrite Hcut in He.
Qed.

Lemma foldl_insert_list_to_map (es : list (string * Z)) :
  ∀ m : gmap string Z,
    foldl (λ m e, <[e.1 := e.2]> m) m es = list_to_map (reverse es) ∪ m.
Proof.
  induction es as [|[k v] es IH]; intros m; simpl.
  - by rewrite (left_id_L ∅ (∪)).
  - rewrite IH, reverse_cons, list_to_map_app. simpl.
    rewrite <- (assoc_L (∪)). f_equal.
    rewrite insert_empty, <- insert_union_singleton_l. done.
Qed.

Lemma foldl_wrap_total (es : list (string * Z)) :
  ∀ t, foldl (λ t e, wrap64 (t + e.2)) (wrap64 t) es
       = wrap64 (t + sum_Z es.*2).
Proof.
  induction es as [|e es IH]; intros t.
  - simpl. by rewrite Z.add_0_r.
  - cbn [foldl]. rewrite RunnerSpec.wrap64_add_l, IH.
    rewrite fmap_cons. change (sum_Z (?a :: ?l)) with (a + sum_Z l).
    f_equal. lia.
Qed.

Lemma Split_nonempty sep s : Split sep s ≠ [].
Proof.
  destruct s as [|c s]; simpl; [done|].
  destruct (Ascii.eqb c sep); [done|]. by destruct (Split sep s).
Qed.

Lemma parseProviderDist_inr s dist :
  parseProviderDist TrimSpace Atoi s = inr dist →
  ∃ es, Forall2 (λ part e, entry_of TrimSpace Atoi part = Some e)
                (Split "," s) es
    ∧ es ≠ []
    ∧ wrap64 (sum_Z es.*2) = 100
    ∧ dist = list_to_map (reverse es).
Proof.
  unfold parseProviderDist.
  destruct (parse_parts TrimSpace Atoi (Split "," s) ∅ 0)
    as [err|[result total]] eqn:Hparse; [done|].
  destruct (Z.eqb_spec total 100) as [->|]; [|done].
  intros [= <-].
  apply parse_parts_entries in Hparse as (es & Hes & [= -> Htotal]).
  exists es. split; [done|]. split.
  { intros ->. inversion Hes as [Hnil|]. by apply (Split_nonempty "," s). }
  pose proof (foldl_wrap_total es 0) as Hw.
  rewrite wrap64_id in Hw by (unfold int64_range; lia).
  rewrite Z.add_0_l in Hw. rewrite Hw in Htotal.
  split; [done|].
  by rewrite foldl_insert_list_to_map, (right_id_L ∅ (∪)).
Qed.

Lemma dom_entries (es : list (string * Z)) :
  dom (list_to_map (reverse es) : gmap string Z) = list_to_set es.*1.
Proof.
  rewrite dom_list_to_map_L, fmap_reverse.
  apply set_eq. intros k. rewrite !elem_of_list_to_set.
  by rewrite elem_of_reverse.
Qed.

(** [parseProviderDist] accepts a text exactly when every part between
    commas has an equals sign with a number after it and the numbers add
    up to 100 in 64-bit arithmetic; nothing is asked of the keys or of
    the sign of a number.  The map it returns gives each key the last
    number listed for it.  Hence, when no key is repeated and the sum
    does not overflow, the map holds exactly the keys listed and sums to
    100. *)
Theorem parseProviderDist_accepts (s : string) (dist : gmap string Z) :
  parseProviderDist TrimSpace Atoi s = inr dist ↔
  ∃ es, mapM (entry_of TrimSpace Atoi) (Split "," s) = Some es
    ∧ es ≠ []
    ∧ wrap64 (sum_Z es.*2) = 100
    ∧ dist = list_to_map (reverse es)
    ∧ dom dist = list_to_set es.*1
    ∧ (NoDup es.*1 → int64_range (sum_Z es.*2) →
       providers.dist_sum dist = 100).
Proof.
  split.
  - intros Hparse.
    destruct (parseProviderDist_inr s dist Hparse)
      as (es & Hes & Hne & Htotal & ->).
    exists es. split; [by apply mapM_Some|]. do 3 (split; [done|]).
    split; [apply dom_entries|].
    intros Hnd Hrange. unfold providers.dist_sum.
    rewrite wrap64_id in Htotal by done.
    rewrite (sum_Z_perm _ es.*2); [done|].
    apply fmap_Permutation. rewrite map_to_list_to_map.
    + apply reverse_Permutation.
    + by rewrite fmap_reverse, reverse_Permutation.
  - intros (es & Hes & _ & Htotal & -> & _). unfold parseProviderDist.
    assert (Hparse : parse_parts TrimSpace Atoi (Split "," s) ∅ 0
              = inr (foldl (λ m e, <[e.1 := e.2]> m) ∅ es,
                     foldl (λ t e, wrap64 (t + e.2)) 0 es)).
    { apply parse_parts_entries. exists es. split; [|done].
      by apply mapM_Some. }
    rewrite Hparse.
    pose proof (foldl_wrap_total es 0) as Hw.
    rewrite wrap64_id in Hw by (unfold int64_range; lia).
    rewrite Z.add_0_l in Hw. rewrite Hw, Htotal. simpl.
    by rewrite foldl_insert_list_to_map, (right_id_L ∅ (∪)).
Qed.

(** From the flags to the runner, without the menu: a distribution that
    [parseProviderDist] has accepted and whose keys all have stops in the
    catalog makes [runner.New] return a runner with the number of devices
    asked for, whatever the percentages are (negative, above 100, a key
    given twice). *)
Theorem flags_build_runner (s : string) (dist : gmap string Z)
    (url secretKey mqttHost mqttUsername mqttPassword : string)
    (mqttPort duration devices : Z)
    (range_order : nat → gmap string Z → list (string * Z))
    (shuffle : list string → list string)
    (rnd : nat → nat) (uuid : nat → string) (fuel : nat) :
  parseProviderDist TrimSpace Atoi s = inr dist →
  (∀ k, k ∈ dom dist → providers.served providers.stopsByProvider k) →
  (∀ j m, range_order j m ≡ₚ map_to_list m) →
  (∀ l, shuffle l ≡ₚ l) →
  0 ≤ devices → 4 * devices < 2 ^ 63 → (Z.to_nat devices ≤ fuel)%nat →
  ∃ r, runner.New range_order shuffle rnd uuid fuel
         (runner.mkConfig url secretKey mqttHost mqttPort mqttUsername
            mqttPassword devices dist duration)
       = Returns (inr r)
    ∧ Z.of_nat (length (runner.Devices_ r)) = devices
    ∧ Forall (λ d, providers.Provider (device.Stop d) ∈ dom dist)
             (runner.Devices_ r).
Proof.
  intros Hparse Hserved Hro Hsh Hn Hcap Hfuel.
  destruct (parseProviderDist_inr s dist Hparse)
    as (es & Hes & Hne & Htotal & Hdist).
  assert (Hdne : dist ≠ ∅).
  { intros Hempty. apply (f_equal dom) in Hempty.
    rewrite Hdist, dom_entries, dom_empty_L in Hempty.
    destruct es as [|e es]; [done|]. simpl in Hempty.
    apply (f_equal (λ X : gset string, bool_decide (e.1 ∈ X))) in Hempty.
    rewrite bool_decide_eq_true_2 in Hempty by set_solver.
    rewrite bool_decide_eq_false_2 in Hempty by set_solver. done. }
  destruct (RunnerMore.NewIn_built providers.stopsByProvider range_order
              shuffle rnd uuid fuel
              (runner.mkConfig url secretKey mqttHost mqttPort mqttUsername
                 mqttPassword devices dist duration))
    as (ds & Hnew & Hlen & Hall); simpl; try done.
  simpl in Hlen, Hall. eexists. split; [exact Hnew|]. simpl.
  split; [lia|]. apply Forall_forall. intros d Hd.
  apply list_elem_of_lookup in Hd as [j Hj].
  destruct (Hall j d Hj) as (k & stops & Hk & Hstops & Hstop & _).
  destruct (map_Forall_lookup_1 _ _ _ _ ProvidersMore.catalog_consistent
              Hstops) as [_ Hprov].
  by rewrite (proj1 (Forall_forall _ _) Hprov _ Hstop).
Qed.

End parse.

(** The default of the flag. *)
Example default_providers_accepted :
  ∃ dist, parseProviderDist id sample_Atoi default_providers = inr dist
    ∧ dist !! "cta" = Some 25 ∧ dist !! "mta" = Some 25
    ∧ dist !! "mbta" = Some 25 ∧ dist !! "septa" = Some 25.
Proof. eexists. split; [vm_compute; reflexivity|]. vm_compute. done. Qed.

(** A key given twice: the text is accepted, and the map, which keeps the
    second number, sums to 40. *)
Example repeated_key_accepted :
  ∃ dist, parseProviderDist id sample_Atoi "cta=60,cta=40" = inr dist
    ∧ map_to_list dist = [("cta", 40)].
Proof. eexists. split; [vm_compute; reflexivity|]. vm_compute. done. Qed.

Lemma flags_build_runner_witness :
  ∃ r, runner.New (λ _ m, map_to_list m) id (λ i, i) (λ i, pretty i) 5
         (runner.mkConfig "https://staging.example" "key" "broker" 1883
            "user" "secret" 5 (<["cta" := 40]> ∅) 0)
       = Returns (inr r)
    ∧ Z.of_nat (length (runner.Devices_ r)) = 5
    ∧ Forall (λ d, providers.Provider (device.Stop d)
                   ∈ dom (<["cta" := 40]> ∅ : gmap string Z))
             (runner.Devices_ r).
Proof.
  apply (flags_build_runner id sample_Atoi "cta=60,cta=40"
           (<["cta" := 40]> ∅) "https://staging.example" "key" "broker"
           "user" "secret" 1883 0 5 (λ _ m, map_to_list m) id (λ i, i)
           (λ i, pretty i) 5).
  - vm_compute. reflexivity.
  - intros k Hk. apply elem_of_dom in Hk as [p Hp].
    destruct (decide (k = "cta")) as [->|Hcta].
    { eexists. split; [vm_compute; reflexivity|discriminate]. }
    rewrite lookup_insert_ne in Hp by done. by rewrite lookup_empty in Hp.
  - intros; reflexivity.
  - intros; reflexivity.
  - lia.
  - lia.
  - simpl. lia.
Defined.

(** ** The entry point *)

Lemma has_prefix_spec p s :
  has_prefix p s = true ↔ ∃ post, s = p +:+ post.
Proof.
  revert s. induction p as [|a p IH]; intros s; simpl.
  - split; [by exists s|done].
  - destruct s as [|b s]; simpl.
    + split; [done|]. by intros [post ?].
    + rewrite andb_true_iff, IH, Ascii.eqb_eq. split.
      * intros [-> [post ->]]. by exists post.
      * intros [post [= -> ->]]. split; [done|]. by exists post.
Qed.

Lemma Contains_spec s sub : Contains s sub = true ↔ device.contains s sub.
Proof.
  unfold device.contains. split.
  - induction s as [|a s IH]; simpl; rewrite orb_true_iff.
    + intros [H|H]; [|done]. apply has_prefix_spec in H as [post ->].
      by exists EmptyString, post.
    + intros [H|H].
      * apply has_prefix_spec in H as [post ->]. by exists EmptyString, post.
      * destruct (IH H) as (pre & post & ->). by exists (String a pre), post.
  - intros (pre & post & ->). induction pre as [|a pre IH].
    + assert (H : has_prefix sub (sub +:+ post) = true)
        by (apply has_prefix_spec; by exists post).
      change (EmptyString +:+ sub +:+ post) with (sub +:+ post).
      destruct (sub +:+ post); simpl; by rewrite H.
    + change ((String a pre) +:+ sub +:+ post)
        with (String a (pre +:+ sub +:+ post)).
      simpl. rewrite IH. apply orb_true_r.
Qed.

Section main.
Variable getenv : string → string.
Variable TrimSpace : string → string.
Variable Atoi : string → option Z.
Variable ParseDuration : string → option Z.
Variable range_order : nat → gmap string Z → list (string * Z).
Variable shuffle : list string → list string.
Variable rnd : nat → nat.
Variable uuid : nat → string.
Variable fuel : nat.

(** The guard of the entry point.  Whenever [runLoadTest] gets as far as
    starting devices, the three required variables are set, and the server
    address contains "staging" or [--force] was given; the runner is built
    for that server and has as many devices as its configuration says:
    the number and the distribution of the flags when the menu is skipped,
    a preset number otherwise.  It refuses only an address without
    "staging" when [--force] is absent. *)
Theorem runLoadTest_guard (flags : Flags) (menu : list tui.Msg) :
  match runLoadTest getenv TrimSpace Atoi ParseDuration range_order shuffle
                    rnd uuid fuel flags menu with
  | Starts r =>
      getenv "LOADTEST_SERVER_URL" ≠ EmptyString
      ∧ getenv "LOADTEST_SECRET_KEY" ≠ EmptyString
      ∧ getenv "LOADTEST_MQTT_HOST" ≠ EmptyString
      ∧ (device.contains (getenv "LOADTEST_SERVER_URL") "staging"
         ∨ flagForce flags = true)
      ∧ runner.ServerURL (runner.Cfg r) = getenv "LOADTEST_SERVER_URL"
      ∧ runner.SecretKey (runner.Cfg r) = getenv "LOADTEST_SECRET_KEY"
      ∧ runner.MQTTHost (runner.Cfg r) = getenv "LOADTEST_MQTT_HOST"
      ∧ Z.of_nat (length (runner.Devices_ r))
        = runner.Devices (runner.Cfg r)
      ∧ (if flagNoMenu flags
         then runner.Devices (runner.Cfg r) = flagDevices flags
              ∧ parseProviderDist TrimSpace Atoi (flagProviders flags)
                = inr (runner.Providers (runner.Cfg r))
         else runner.Devices (runner.Cfg r) ∈ tui.devicePresets)
  | Refuses =>
      ¬ device.contains (getenv "LOADTEST_SERVER_URL") "staging"
      ∧ flagForce flags = false
  | _ => True
  end.
Proof.
  unfold runLoadTest.
  case_bool_decide as Hurl; [done|].
  case_bool_decide as Hkey; [done|].
  destruct (Contains (getenv "LOADTEST_SERVER_URL") "staging") eqn:Hstaging;
    destruct (flagForce flags) eqn:Hforce; simpl.
  4: { split; [|done]. intros Hc. apply Contains_spec in Hc. congruence. }
  all: case_bool_decide as Hhost; [done|].
  all: match goal with
       | |- context [if bool_decide ?P then Some 1883 else ?a] =>
           destruct (if bool_decide P then Some 1883 else a) as [mqttPort|];
             [|done]
       end.
  all: destruct (parseProviderDist TrimSpace Atoi (flagProviders flags))
         as [err|providerDist] eqn:Hparse; [done|].
  all: assert (Hguard : device.contains (getenv "LOADTEST_SERVER_URL")
                          "staging" ∨ flagForce flags = true)
         by (first [left; by apply Contains_spec | by right]).
  all: destruct (flagNoMenu flags) eqn:Hmenu.
  all: try match goal with
           | |- context [tui.run_setup ?ms ?m0] =>
               destruct (TuiSpec.run_setup_valid ms m0
                           (proj1 (TuiSpec.NewSetupModel_valid _ _ _)))
                 as (m' & quit & -> & _ & Hres & _);
                 [rewrite (proj2 (TuiSpec.NewSetupModel_valid _ _ _));
                  discriminate|];
               destruct quit; [|done];
               destruct (tui.Start (tui.Result m')) eqn:Hstart; [|done];
               simpl; destruct (Hres eq_refl) as (Hdev & _)
           end.
  all: match goal with
       | |- context [if bool_decide ?P then Some 0 else ?a] =>
           destruct (if bool_decide P then Some 0 else a) as [duration|];
             [|done]
       end.
  all: match goal with
       | |- context [runner.New ?a ?b ?c ?d ?e ?cfg] =>
           destruct (runner.New a b c d e cfg) as [[err|r]| |] eqn:Hnew;
             try done;
             destruct (RunnerMore.NewIn_returns _ _ _ _ _ _ _ _ Hnew)
               as (-> & Hlen & _)
       end.
  all: rewrite ?Hforce in Hguard; simpl in *; repeat split; done.
Qed.

(** With the menu, construction cannot fail.  Whatever the environment,
    the flags and the keys pressed, the program does not panic, does not
    hang while it distributes the devices, and reports no unknown
    provider and no invalid duration: it stops for a missing variable, a
    bad port or a bad [--providers] text, refuses a server that is not a
    staging server, waits for input, is cancelled, or starts.  (The
    preset durations are durations that [time.ParseDuration] accepts.) *)
Theorem runLoadTest_with_menu (flags : Flags) (menu : list tui.Msg) :
  (∀ j m, range_order j m ≡ₚ map_to_list m) →
  (∀ l, shuffle l ≡ₚ l) →
  (50 ≤ fuel)%nat →
  (∀ v, v ∈ tui.durationPresets.*2 → v ≠ EmptyString →
        is_Some (ParseDuration v)) →
  flagNoMenu flags = false →
  match runLoadTest getenv TrimSpace Atoi ParseDuration range_order shuffle
                    rnd uuid fuel flags menu with
  | Crashes | NeverReturns
  | ReturnsError (BadConfig _) | ReturnsError (InvalidDuration _) => False
  | _ => True
  end.
Proof.
  intros Hro Hsh Hfuel Hdur Hmenu. unfold runLoadTest. rewrite Hmenu.
  case_bool_decide as Hurl; [done|].
  case_bool_decide as Hkey; [done|].
  destruct (negb _ && negb _); [done|].
  case_bool_decide as Hhost; [done|].
  match goal with
  | |- context [if bool_decide ?P then Some 1883 else ?a] =>
      destruct (if bool_decide P then Some 1883 else a) as [mqttPort|];
        [|done]
  end.
  destruct (parseProviderDist TrimSpace Atoi (flagProviders flags))
    as [err|providerDist]; [done|].
  match goal with
  | |- context [tui.run_setup ?ms ?m0] =>
      destruct (TuiSpec.run_setup_valid ms m0
                  (proj1 (TuiSpec.NewSetupModel_valid _ _ _)))
        as (m' & quit & -> & _ & Hres & _);
        [rewrite (proj2 (TuiSpec.NewSetupModel_valid _ _ _)); discriminate|]
  end.
  destruct quit; [|done].
  destruct (tui.Start (tui.Result m')) eqn:Hstart; [|done]. simpl.
  destruct (Hres eq_refl) as (Hdev & Hd & _ & Hne & Hserved).
  assert (Hn : 1 ≤ tui.Devices (tui.Result m') ≤ 50).
  { unfold tui.devicePresets in Hdev. rewrite !elem_of_cons in Hdev.
    destruct Hdev as [->|[->|[->|[->|[->|H]]]]]; try lia.
    by apply elem_of_nil in H. }
  assert (Hparsed : ∃ duration,
            (if bool_decide (tui.Duration (tui.Result m') = EmptyString)
             then Some 0 else ParseDuration (tui.Duration (tui.Result m')))
            = Some duration).
  { case_bool_decide as Hempty; [by eexists|].
    destruct (Hdur _ Hd Hempty) as [duration ->]. by eexists. }
  destruct Hparsed as [duration ->].
  match goal with
  | |- context [runner.New ?a ?b ?c ?d ?e ?cfg] =>
      destruct (RunnerMore.NewIn_built providers.stopsByProvider a b c d e
                  cfg) as (ds & Hnew & _); simpl; try done; try lia
  end.
  unfold runner.New. by rewrite Hnew.
Qed.

End main.

(** The staging server, the default flags, and the user confirming the
    defaults of the menu. *)
Lemma runLoadTest_with_menu_witness :
  match runLoadTest
          (λ name, if bool_decide (name = "LOADTEST_MQTT_PORT")
                   then EmptyString else "staging.example")
          id sample_Atoi (λ _, Some 1) (λ _ m, map_to_list m) id (λ i, i)
          (λ i, pretty i) 50
          (mkFlags 5 default_providers EmptyString false false)
          [tui.KeyMsg "enter"] with
  | Crashes | NeverReturns
  | ReturnsError (BadConfig _) | ReturnsError (InvalidDuration _) => False
  | _ => True
  end.
Proof.
  apply runLoadTest_with_menu.
  - intros; reflexivity.
  - intros; reflexivity.
  - lia.
  - intros; by eexists.
  - reflexivity.
Defined.

End CmdSpec.
